(** * mpf-mc asset pipeline: a shallow embedding of [mc/core/assets.py]

    The development models the asset manager, the loader queue, the
    per-asset load protocol and the asset-group selection policies of
    [mc/core/assets.py] and proves properties of them.

    Layout: §1 the Python runtime pieces the code relies on (exceptions,
    [str] of an integer, string comparison, binary64 arithmetic, [round],
    sets, deques, [queue.PriorityQueue] with its heap); §2 the data
    model; §3 the operations, in the order of their call dependencies;
    §4 the step relation of the running system, the predicates the
    statements use (§4b) and the registration of asset classes (§4c);
    §5 lemmas and theorems on the load protocol and the selection
    policies; §6 further properties of the code. *)

From Stdlib Require Import ZArith String Ascii DecimalString DecimalZ Bool Lia.
From Stdlib Require Import Floats.SpecFloat.
From stdpp Require Import base option list sorting gmap strings.

Local Open Scope Z_scope.

(* ===================================================================== *)
(** * 1. Python runtime model *)
(* ===================================================================== *)

(** ** 1.1 Exceptions and results *)

(** The exceptions the modelled code can raise.  [DanglingRef] is not a
    Python exception: it marks a store lookup through a reference that
    names no object, which Python's references cannot do. *)
Inductive PyExn : Set :=
| ZeroDivisionError
| OverflowError
| ValueError
| IndexError
| NotImplementedError
| DanglingRef.

Inductive Res (A : Type) : Type :=
| Ok (a : A)
| Raise (e : PyExn).
Arguments Ok {A} a.
Arguments Raise {A} e.

#[global] Instance Res_ret : MRet Res := fun A a => Ok a.
#[global] Instance Res_bind : MBind Res := fun A B f m =>
  match m with
  | Ok a => f a
  | Raise e => Raise e
  end.

#[global] Instance PyExn_eq_dec : EqDecision PyExn.
Proof. solve_decision. Defined.

(** [try: body except exn: handler] *)
Definition try_except {A} (body : Res A) (exn : PyExn) (handler : Res A) : Res A :=
  match body with
  | Ok a => Ok a
  | Raise e => if decide (e = exn) then handler else Raise e
  end.

(** Monadic left fold: a [for] loop whose body may raise. *)
Fixpoint foldM {A S} (body : S → A → Res S) (s : S) (l : list A) : Res S :=
  match l with
  | [] => Ok s
  | x :: l' => s' ← body s x; foldM body s' l'
  end.

(** ** 1.2 [str] of an int and comparison of strings *)

(** ["%s" % n] for an int [n]: its decimal numeral, with a leading minus
    sign for a negative one. *)
Definition str_int (n : Z) : string := NilZero.string_of_int (Z.to_int n).

(** [s1 > s2] on [str]: lexicographic by code point. *)
Definition str_gt (s1 s2 : string) : bool := String.ltb s2 s1.

(** ** 1.3 binary64 floats *)

Definition prec : Z := 53.
Definition emax : Z := 1024.

(** An int as an exact (unrounded) operand. *)
Definition exact_int (n : Z) : spec_float :=
  match n with
  | Z0 => S754_zero false
  | Zpos p => S754_finite false p 0
  | Zneg p => S754_finite true p 0
  end.

(** [float(n)]: the int rounded to the nearest double. *)
Definition float_of_int (n : Z) : Res spec_float :=
  match binary_normalize prec emax n 0 false with
  | S754_infinity _ => Raise OverflowError
  | x => Ok x
  end.

(** [a / b] on ints (true division): the exact quotient rounded once to
    the nearest double, ties to even; [ZeroDivisionError] for [b = 0],
    [OverflowError] when the quotient is out of range. *)
Definition int_truediv (a b : Z) : Res spec_float :=
  if b =? 0 then Raise ZeroDivisionError
  else match SFdiv prec emax (exact_int a) (exact_int b) with
       | S754_infinity _ => Raise OverflowError
       | q => Ok q
       end.

(** [x * n] for a float [x] and an int [n]. *)
Definition float_mul_int (x : spec_float) (n : Z) : Res spec_float :=
  y ← float_of_int n; Ok (SFmul prec emax x y).

(** [round(x)] with one argument: the nearest int, ties to even. *)
Definition round_half_even (m : positive) (e : Z) : Z :=
  match e with
  | Zneg k =>
      let d := 2 ^ Zpos k in
      let q := Zpos m / d in
      let r := Zpos m mod d in
      match 2 * r ?= d with
      | Lt => q
      | Gt => q + 1
      | Eq => if Z.even q then q else q + 1
      end
  | _ => Zpos m * 2 ^ e
  end.

Definition py_round (x : spec_float) : Res Z :=
  match x with
  | S754_zero _ => Ok 0
  | S754_infinity _ => Raise OverflowError
  | S754_nan => Raise ValueError
  | S754_finite s m e =>
      Ok (if s then - round_half_even m e else round_half_even m e)
  end.

(** ** 1.4 [random.randint] *)

(** The generator is an oracle: [v] is the value it produces for this
    call.  [randint(lo, hi)] yields it when it lies in [[lo, hi]]; an
    empty range raises [ValueError], and so does (in the model only) a
    value outside the range, which the generator never produces. *)
Definition randint (lo hi v : Z) : Res Z :=
  if (lo <=? v) && (v <=? hi) then Ok v else Raise ValueError.

(** ** 1.5 Sets and deques *)

(** A [set] is a duplicate-free list under the element type's [==];
    iteration follows insertion order (Python leaves the order open). *)
Section PySet.
Context {A : Type} (eqb : A → A → bool).

Definition set_mem (x : A) (s : list A) : bool := existsb (eqb x) s.

Definition set_add (x : A) (s : list A) : list A :=
  if set_mem x s then s else s ++ [x].

Definition set_discard (x : A) (s : list A) : list A :=
  filter (λ y, eqb x y = false) s.
End PySet.

(** [deque.rotate(1)] and [deque.rotate(-1)]. *)
Definition rotate_right {A} (d : list A) : list A :=
  match d with
  | [] => []
  | x :: d' => List.last d' x :: removelast d
  end.

Definition rotate_left {A} (d : list A) : list A :=
  match d with
  | [] => []
  | x :: d' => d' ++ [x]
  end.

(** ** 1.6 [queue.PriorityQueue] *)

(** The queue keeps its entries in a list that [heapq] maintains as a
    binary heap: [put] is [heappush], [get] is [heappop].  Entries are
    compared with their [__lt__] as it answers when the call is made,
    and only along the path the call walks; an entry whose key changes
    while it is queued stays where it is. *)
Section PriorityQueue.
Context {A : Type} (lt : A → A → bool).

(** [heap[i], heap[j] = heap[j], heap[i]] *)
Definition heap_swap (i j : nat) (heap : list A) : list A :=
  match heap !! i, heap !! j with
  | Some x, Some y => <[i := y]> (<[j := x]> heap)
  | _, _ => heap
  end.

(** [heapq._siftdown(heap, startpos, pos)]: the entry at [pos] moves
    towards [startpos] while it is less than its parent.  [n] bounds the
    number of moves; [pos] is enough. *)
Fixpoint _siftdown (n : nat) (heap : list A) (startpos pos : nat) : list A :=
  match n with
  | O => heap
  | S n' =>
      if decide (startpos < pos)%nat then
        let parentpos := ((pos - 1) / 2)%nat in
        match heap !! pos, heap !! parentpos with
        | Some newitem, Some parent =>
            if lt newitem parent
            then _siftdown n' (heap_swap pos parentpos heap) startpos parentpos
            else heap
        | _, _ => heap
        end
      else heap
  end.

(** The loop of [heapq._siftup(heap, pos)]: the smaller child moves up
    until the entry that started at [pos] has reached a leaf; the result
    is the heap and that leaf.  [n] bounds the number of moves; the
    length of the heap is enough. *)
Fixpoint _siftup_loop (n : nat) (heap : list A) (pos : nat) : list A * nat :=
  match n with
  | O => (heap, pos)
  | S n' =>
      let childpos := (2 * pos + 1)%nat in
      match heap !! childpos with
      | None => (heap, pos)                       (* childpos >= endpos *)
      | Some child =>
          let childpos :=
            match heap !! (childpos + 1)%nat with      (* rightpos *)
            | Some rchild =>
                if lt child rchild then childpos else (childpos + 1)%nat
            | None => childpos
            end in
          _siftup_loop n' (heap_swap pos childpos heap) childpos
      end
  end.

(** [heapq._siftup(heap, pos)] *)
Definition _siftup (heap : list A) (pos : nat) : list A :=
  let r := _siftup_loop (length heap) heap pos in
  _siftdown (snd r) (fst r) pos (snd r).

(** [heapq.heappush(heap, item)] *)
Definition heappush (heap : list A) (item : A) : list A :=
  _siftdown (length heap) (heap ++ [item]) 0 (length heap).

(** [heapq.heappop(heap)]: the entry handed out and the heap afterwards;
    [None] for an empty heap. *)
Definition heappop (heap : list A) : option (A * list A) :=
  match last heap with
  | None => None
  | Some lastelt =>                                (* heap.pop() *)
      match removelast heap with
      | [] => Some (lastelt, [])
      | returnitem :: rest => Some (returnitem, _siftup (lastelt :: rest) 0)
      end
  end.

(** [PriorityQueue.get]; [None] is an empty queue ([Empty] once the
    timeout has passed). *)
Definition PriorityQueue_get (q : list A) : option (A * list A) := heappop q.

(** [PriorityQueue.put] *)
Definition PriorityQueue_put (x : A) (q : list A) : list A := heappush q x.
End PriorityQueue.

(* ===================================================================== *)
(** * 2. Data model *)
(* ===================================================================== *)

(** Objects live in a store and are named by their position in it: an
    asset reference is an index into [w_assets], a group reference an
    index into [w_groups].  Two references are the same object exactly
    when they are the same index. *)

(** A callback handed to [load] by the application: [None] (the default
    argument) or a callable.  Callables are opaque; calling one is
    recorded in the world's event list. *)
Inductive AppCallback : Set :=
| PyNone
| Callable (k : nat).

(** What an asset's [_callbacks] set can hold: an application callback
    or the bound method [group._group_member_loaded] of group [g]. *)
Inductive Callback : Set :=
| App (c : AppCallback)
| GroupMemberLoaded (g : nat).

#[global] Instance AppCallback_eq_dec : EqDecision AppCallback.
Proof. solve_decision. Defined.
#[global] Instance Callback_eq_dec : EqDecision Callback.
Proof. solve_decision. Defined.

Definition callable (c : Callback) : bool :=
  match c with
  | App PyNone => false
  | _ => true
  end.

(** [class Asset]: the instance attributes set by [__init__]. *)
Record Asset : Set := mkAsset {
  priority : Z;
  _id : Z;
  _callbacks : list Callback;
  loading : bool;
  loaded : bool;
  unloading : bool
}.

(** A member of a group: the tuple [(asset, number)] appended to
    [self.assets].  [m_oid] is the tuple's object identity (its position
    in [self.assets]), which [is]/[is not] compare; [==], and with it
    set membership, compares the asset and the number. *)
Record Member : Set := mkMember {
  m_oid : nat;
  m_asset : nat;
  m_weight : Z
}.

Definition Member_is (x y : Member) : bool := Nat.eqb (m_oid x) (m_oid y).

Definition Member_eqb (x y : Member) : bool :=
  Nat.eqb (m_asset x) (m_asset y) && (m_weight x =? m_weight y).

(** The objects that reach a group's [loading_members] set: member
    tuples (through [add]) and asset instances (through [discard]).
    An asset is never [==] to a tuple. *)
Inductive PyObj : Set :=
| ObjAsset (a : nat)
| ObjMember (m : Member).

Definition PyObj_eqb (x y : PyObj) : bool :=
  match x, y with
  | ObjAsset a, ObjAsset b => Nat.eqb a b
  | ObjMember m, ObjMember n => Member_eqb m n
  | _, _ => false
  end.

(** [class AssetGroup].  [g_type] is [config['type']]; [g_priority] is
    the [priority] attribute, which exists only once [load] has set it. *)
Record AssetGroup : Set := mkAssetGroup {
  g_type : string;
  g_priority : option Z;
  loading_members : list PyObj;
  g_callbacks : list AppCallback;
  assets : list Member;
  _last_asset : option Member;
  _asset_sequence : list nat;
  _assets_sent : list Member;
  _total_weights : Z
}.

(** [class AssetManager]: counters, the two queues (of asset
    references) and the poll-scheduled flag. *)
Record AssetManager : Set := mkAssetManager {
  num_assets_to_load : Z;
  num_assets_loaded : Z;
  num_bcp_assets_to_load : Z;
  num_bcp_assets_loaded : Z;
  num_bcb_assets_remaining : Z;
  loader_queue : list nat;
  loaded_queue : list nat;
  _loaded_watcher : bool
}.

(** What the code does to its collaborators: calls of application
    callbacks, posts to the event bus, the boot-hold release, the report
    of the loader thread's exception on [exception_queue]. *)
Inductive Event : Set :=
| CalledWithAsset (k : nat) (a : nat)
| CalledWithGroup (k : nat) (g : nat)
| LoadingAssets (total loaded_ remaining percent : Z)
| ClearBootHold
| LoaderException (e : PyExn).

(** What a call of a hook of the concrete asset kind ([_do_load],
    [_do_unload]) does: it returns ([None]) or raises.  The hooks of the
    base class raise [NotImplementedError]; a concrete kind replaces
    them.  A hook acts on nothing the model holds. *)
Definition Hook : Set := option PyExn.

(** [Asset._do_load] and [Asset._do_unload] of the base class. *)
Definition Asset__do_load : Hook := Some NotImplementedError.
Definition Asset__do_unload : Hook := Some NotImplementedError.

(** Where the loader thread is in the loop of [AssetLoader.run]: in
    [loader_queue.get]; holding the asset it got, before it reads
    [asset.loaded]; in [asset._do_load()]; before
    [loaded_queue.put(asset)]; or out of the loop, which an exception
    ended. *)
Inductive LoaderThread : Set :=
| Waiting
| Taken (asset : nat)
| Decoding (asset : nat)
| Finished (asset : nat)
| Ended.

Record World : Set := mkWorld {
  w_assets : list Asset;
  w_groups : list AssetGroup;
  w_manager : AssetManager;
  w_next_id : Z;          (* Asset._next_id *)
  w_init_done : bool;     (* mc.init_done *)
  w_events : list Event;
  w_loader : LoaderThread (* the loader thread *)
}.

(** *** Field updates *)

Definition set_priority (p : Z) (a : Asset) : Asset :=
  mkAsset p (_id a) (_callbacks a) (loading a) (loaded a) (unloading a).
Definition set_callbacks (c : list Callback) (a : Asset) : Asset :=
  mkAsset (priority a) (_id a) c (loading a) (loaded a) (unloading a).
Definition set_loading (b : bool) (a : Asset) : Asset :=
  mkAsset (priority a) (_id a) (_callbacks a) b (loaded a) (unloading a).
Definition set_loaded (b : bool) (a : Asset) : Asset :=
  mkAsset (priority a) (_id a) (_callbacks a) (loading a) b (unloading a).
Definition set_unloading (b : bool) (a : Asset) : Asset :=
  mkAsset (priority a) (_id a) (_callbacks a) (loading a) (loaded a) b.

Definition set_g_priority (p : option Z) (g : AssetGroup) : AssetGroup :=
  mkAssetGroup (g_type g) p (loading_members g) (g_callbacks g) (assets g)
    (_last_asset g) (_asset_sequence g) (_assets_sent g) (_total_weights g).
Definition set_loading_members (s : list PyObj) (g : AssetGroup) : AssetGroup :=
  mkAssetGroup (g_type g) (g_priority g) s (g_callbacks g) (assets g)
    (_last_asset g) (_asset_sequence g) (_assets_sent g) (_total_weights g).
Definition set_g_callbacks (c : list AppCallback) (g : AssetGroup) : AssetGroup :=
  mkAssetGroup (g_type g) (g_priority g) (loading_members g) c (assets g)
    (_last_asset g) (_asset_sequence g) (_assets_sent g) (_total_weights g).
Definition set_last_asset (m : option Member) (g : AssetGroup) : AssetGroup :=
  mkAssetGroup (g_type g) (g_priority g) (loading_members g) (g_callbacks g)
    (assets g) m (_asset_sequence g) (_assets_sent g) (_total_weights g).
Definition set_asset_sequence (d : list nat) (g : AssetGroup) : AssetGroup :=
  mkAssetGroup (g_type g) (g_priority g) (loading_members g) (g_callbacks g)
    (assets g) (_last_asset g) d (_assets_sent g) (_total_weights g).
Definition set_assets_sent (s : list Member) (g : AssetGroup) : AssetGroup :=
  mkAssetGroup (g_type g) (g_priority g) (loading_members g) (g_callbacks g)
    (assets g) (_last_asset g) (_asset_sequence g) s (_total_weights g).
Definition set_total_weights (t : Z) (g : AssetGroup) : AssetGroup :=
  mkAssetGroup (g_type g) (g_priority g) (loading_members g) (g_callbacks g)
    (assets g) (_last_asset g) (_asset_sequence g) (_assets_sent g) t.

Definition with_assets (f : list Asset → list Asset) (w : World) : World :=
  mkWorld (f (w_assets w)) (w_groups w) (w_manager w) (w_next_id w)
    (w_init_done w) (w_events w) (w_loader w).
Definition with_groups (f : list AssetGroup → list AssetGroup) (w : World) : World :=
  mkWorld (w_assets w) (f (w_groups w)) (w_manager w) (w_next_id w)
    (w_init_done w) (w_events w) (w_loader w).
Definition with_manager (f : AssetManager → AssetManager) (w : World) : World :=
  mkWorld (w_assets w) (w_groups w) (f (w_manager w)) (w_next_id w)
    (w_init_done w) (w_events w) (w_loader w).
Definition emit (e : Event) (w : World) : World :=
  mkWorld (w_assets w) (w_groups w) (w_manager w) (w_next_id w)
    (w_init_done w) (w_events w ++ [e]) (w_loader w).
Definition with_loader (t : LoaderThread) (w : World) : World :=
  mkWorld (w_assets w) (w_groups w) (w_manager w) (w_next_id w)
    (w_init_done w) (w_events w) t.

(** How a call that changes the world ends: it returns, or an exception
    leaves it; either way the world is as the call left it. *)
Inductive Run : Set :=
| Done (w : World)
| Aborted (e : PyExn) (w : World).

Definition final (r : Run) : World :=
  match r with
  | Done w => w
  | Aborted _ w => w
  end.

Definition get_asset (a : nat) (w : World) : Res Asset :=
  match w_assets w !! a with
  | Some x => Ok x
  | None => Raise DanglingRef
  end.

Definition get_group (g : nat) (w : World) : Res AssetGroup :=
  match w_groups w !! g with
  | Some x => Ok x
  | None => Raise DanglingRef
  end.

Definition upd_asset (a : nat) (f : Asset → Asset) : World → World :=
  with_assets (alter f a).

Definition upd_group (g : nat) (f : AssetGroup → AssetGroup) : World → World :=
  with_groups (alter f g).

(* ===================================================================== *)
(** * 3. Operations *)
(* ===================================================================== *)

(** ** 3.1 [AssetManager]: construction and progress *)

(** [AssetManager.__init__] *)
Definition AssetManager_init : AssetManager :=
  mkAssetManager 0 0 0 0 0 [] [] false.

(** The world once the manager exists: no asset, no group yet, the
    loader thread started. *)
Definition World_init : World :=
  mkWorld [] [] AssetManager_init 0 false [] Waiting.

(** [AssetManager.loading_percent] *)
Definition loading_percent (m : AssetManager) : Res Z :=
  try_except
    (q ← int_truediv (num_assets_loaded m + num_bcp_assets_loaded m)
                     (num_assets_to_load m + num_bcp_assets_to_load m);
     p ← float_mul_int q 100;
     py_round p)
    ZeroDivisionError
    (Ok 100).

(** [AssetManager.num_assets_remaining] *)
Definition num_assets_remaining (m : AssetManager) : Z :=
  num_assets_to_load m - num_assets_loaded m.

(** [AssetManager._post_loading_event].  [loading_percent] is evaluated
    as an argument of [events.post]: when it raises, nothing has been
    posted.  The second evaluation, for [print], finds the same counters. *)
Definition _post_loading_event (w : World) : Run :=
  let m := w_manager w in
  let total := num_assets_to_load m + num_bcp_assets_to_load m in
  let remaining := total - num_assets_loaded m - num_bcp_assets_loaded m in
  match loading_percent m with
  | Raise e => Aborted e w
  | Ok percent =>
      let w1 := emit (LoadingAssets total
                        (num_assets_loaded m + num_bcp_assets_loaded m)
                        remaining percent) w in
      Done (if (remaining =? 0) && negb (w_init_done w1)
            then emit ClearBootHold w1 else w1)
  end.

(** The three assignments of [_bcp_client_asset_load]. *)
Definition set_bcp_counters (total remaining : Z) (m : AssetManager)
    : AssetManager :=
  mkAssetManager (num_assets_to_load m) (num_assets_loaded m)
    total (total - remaining) remaining
    (loader_queue m) (loaded_queue m) (_loaded_watcher m).

(** [AssetManager._bcp_client_asset_load] *)
Definition _bcp_client_asset_load (total remaining : Z) (w : World) : Run :=
  _post_loading_event (with_manager (set_bcp_counters total remaining) w).

(** ** 3.2 [Asset]: identity and ordering *)

(** [Asset.__init__]: the new asset takes the next creation id and is
    appended to the store. *)
Definition Asset_init (config_priority : Z) (w : World) : World :=
  let id := w_next_id w + 1 in                      (* Asset._get_id *)
  mkWorld (w_assets w ++ [mkAsset config_priority id [] false false false])
    (w_groups w) (w_manager w) id (w_init_done w) (w_events w) (w_loader w).

(** The string ["%s, %s" % (priority, _id)]. *)
Definition Asset_key (a : Asset) : string :=
  (str_int (priority a) ++ ", " ++ str_int (_id a))%string.

(** [Asset.__lt__] *)
Definition Asset_lt (self other : Asset) : bool :=
  str_gt (Asset_key self) (Asset_key other).

(** [__lt__] between two queue entries, which are references. *)
Definition ref_lt (w : World) (a b : nat) : bool :=
  match w_assets w !! a, w_assets w !! b with
  | Some x, Some y => Asset_lt x y
  | _, _ => false
  end.

(** [AssetManager._load_asset] *)
Definition _load_asset (a : nat) (w : World) : World :=
  with_manager (λ m,
    mkAssetManager (num_assets_to_load m + 1) (num_assets_loaded m)
      (num_bcp_assets_to_load m) (num_bcp_assets_loaded m)
      (num_bcb_assets_remaining m)
      (PriorityQueue_put (ref_lt w) a (loader_queue m)) (loaded_queue m)
      true) w.

(** ** 3.3 Callbacks of groups and assets *)

(** [AssetGroup._call_callbacks] *)
Definition AssetGroup__call_callbacks (g : nat) (w : World) : Res World :=
  grp ← get_group g w;
  let w1 := fold_left (λ w' cb,
              match cb with
              | Callable k => emit (CalledWithGroup k g) w'
              | PyNone => w'
              end) (g_callbacks grp) w in
  Ok (upd_group g (set_g_callbacks []) w1).

(** [AssetGroup._group_member_loaded] *)
Definition AssetGroup__group_member_loaded (g : nat) (asset : PyObj)
    (w : World) : Res World :=
  grp ← get_group g w;
  let members := set_discard PyObj_eqb asset (loading_members grp) in
  let w1 := upd_group g (set_loading_members members) w in
  match members with
  | [] => AssetGroup__call_callbacks g w1
  | _ => Ok w1
  end.

(** [Asset._call_callbacks] *)
Definition Asset__call_callbacks (a : nat) (w : World) : Res World :=
  self ← get_asset a w;
  w1 ← foldM (λ w' cb,
          match cb with
          | App PyNone => Ok w'
          | App (Callable k) => Ok (emit (CalledWithAsset k a) w')
          | GroupMemberLoaded g =>
              AssetGroup__group_member_loaded g (ObjAsset a) w'
          end) w (_callbacks self);
  Ok (upd_asset a (set_callbacks []) w1).

(** ** 3.4 [Asset.load], [Asset._loaded], [Asset.unload] *)

(** [Asset.load] *)
Definition Asset_load (a : nat) (callback : Callback) (prio : option Z)
    (w : World) : Res World :=
  _ ← get_asset a w;
  let w1 := match prio with
            | Some p => upd_asset a (set_priority p) w
            | None => w
            end in
  let w2 := upd_asset a (λ self,
              set_callbacks (set_add (λ x y, bool_decide (x = y))
                               callback (_callbacks self)) self) w1 in
  self ← get_asset a w2;
  if loaded self then Asset__call_callbacks a w2
  else
    let w3 := if unloading self then w2 (* pass *) else w2 in
    let w4 := upd_asset a (set_loading true) w3 in
    Ok (_load_asset a w4).

(** [Asset._loaded] *)
Definition Asset__loaded (a : nat) (w : World) : Res World :=
  _ ← get_asset a w;
  Asset__call_callbacks a
    (upd_asset a (λ self,
       set_unloading false (set_loaded true (set_loading false self))) w).

(** [Asset.unload]; [_do_unload] is what the call of the hook does.  When
    the hook raises, the three flags are set as the first three
    assignments left them and [unloading] stays set. *)
Definition Asset_unload (_do_unload : Hook) (a : nat) (w : World) : Run :=
  match get_asset a w with
  | Raise e => Aborted e w
  | Ok _ =>
      let w1 := upd_asset a (λ self,
                  set_loading false (set_loaded false (set_unloading true self)))
                  w in
      match _do_unload with
      | Some e => Aborted e w1
      | None => Done (upd_asset a (set_unloading false) w1)
      end
  end.

(** ** 3.5 [AssetGroup.load] *)

(** [AssetGroup.load] *)
Definition AssetGroup_load (g : nat) (callback : AppCallback)
    (prio : option Z) (w : World) : Res World :=
  grp ← get_group g w;
  let w1 := match prio with
            | Some p => upd_group g (set_g_priority (Some p)) w
            | None => w
            end in
  let w2 := upd_group g (λ self,
              set_g_callbacks (set_add (λ x y, bool_decide (x = y))
                                 callback (g_callbacks self)) self) w1 in
  w3 ← foldM (λ w' asset,
          a ← get_asset (m_asset asset) w';
          if negb (loaded a) then
            Asset_load (m_asset asset) (GroupMemberLoaded g) None
              (upd_group g (λ self,
                 set_loading_members
                   (set_add PyObj_eqb (ObjMember asset) (loading_members self))
                   self) w')
          else Ok w') w2 (assets grp);
  grp' ← get_group g w3;
  match loading_members grp' with
  | [] => AssetGroup__call_callbacks g w3
  | _ => Ok w3
  end.

(** ** 3.6 The loader thread and the poll *)

(** The loop of [AssetLoader.run] (with [_run] true), one function for
    each stretch between two accesses to what the threads share.  Each
    acts only when the thread is at its point of the loop. *)

(** [asset = self.loader_queue.get(block=True, timeout=.1)].  An empty
    queue ([Empty] after the timeout) starts the loop over. *)
Definition AssetLoader_get (w : World) : World :=
  match w_loader w with
  | Waiting =>
      match PriorityQueue_get (ref_lt w) (loader_queue (w_manager w)) with
      | None => w
      | Some (asset, rest) =>
          with_loader (Taken asset)
            (with_manager (λ m,
               mkAssetManager (num_assets_to_load m) (num_assets_loaded m)
                 (num_bcp_assets_to_load m) (num_bcp_assets_loaded m)
                 (num_bcb_assets_remaining m)
                 rest (loaded_queue m) (_loaded_watcher m)) w)
      end
  | _ => w
  end.

(** [if asset:] (an asset is true) and [if not asset.loaded:] *)
Definition AssetLoader_test (w : World) : World :=
  match w_loader w with
  | Taken asset =>
      match w_assets w !! asset with
      | Some self =>
          with_loader (if loaded self then Finished asset else Decoding asset) w
      | None => w
      end
  | _ => w
  end.

(** [with asset.lock: asset._do_load()]; [_do_load] is what the call of
    the hook does, and nothing else in the module takes the lock.  An
    exception leaves the loop: the asset in hand is dropped, the
    traceback goes to [exception_queue] and [run] returns. *)
Definition AssetLoader_do_load (_do_load : Hook) (w : World) : World :=
  match w_loader w with
  | Decoding asset =>
      match _do_load with
      | None => with_loader (Finished asset) w
      | Some e => with_loader Ended (emit (LoaderException e) w)
      end
  | _ => w
  end.

(** [self.loaded_queue.put(asset)] *)
Definition AssetLoader_put (w : World) : World :=
  match w_loader w with
  | Finished asset =>
      with_loader Waiting
        (with_manager (λ m,
           mkAssetManager (num_assets_to_load m) (num_assets_loaded m)
             (num_bcp_assets_to_load m) (num_bcp_assets_loaded m)
             (num_bcb_assets_remaining m)
             (loader_queue m) (loaded_queue m ++ [asset]) (_loaded_watcher m)) w)
  | _ => w
  end.

(** One turn of the loop that nothing interrupts. *)
Definition AssetLoader_run_once (_do_load : Hook) (w : World) : World :=
  AssetLoader_put
    (AssetLoader_do_load _do_load (AssetLoader_test (AssetLoader_get w))).

Definition set_loaded_queue (q : list nat) (m : AssetManager) : AssetManager :=
  mkAssetManager (num_assets_to_load m) (num_assets_loaded m)
    (num_bcp_assets_to_load m) (num_bcp_assets_loaded m)
    (num_bcb_assets_remaining m) (loader_queue m) q (_loaded_watcher m).

Definition incr_num_assets_loaded (m : AssetManager) : AssetManager :=
  mkAssetManager (num_assets_to_load m) (num_assets_loaded m + 1)
    (num_bcp_assets_to_load m) (num_bcp_assets_loaded m)
    (num_bcb_assets_remaining m) (loader_queue m) (loaded_queue m)
    (_loaded_watcher m).

(** One pass through the body of the loop of [_check_loader_status]:
    [a] is the entry that [get] hands out and [q'] the rest of the
    loaded queue.  An exception leaves the pass with the entry off the
    queue and, when it comes from [_post_loading_event], counted. *)
Definition drain_entry (a : nat) (q' : list nat) (w : World) : Run :=
  let w1 := with_manager (set_loaded_queue q') w in   (* get() *)
  match Asset__loaded a w1 with
  | Raise e => Aborted e w1
  | Ok w2 => _post_loading_event (with_manager incr_num_assets_loaded w2)
  end.

(** The [while not self.loaded_queue.empty()] loop of
    [_check_loader_status] when the loader thread puts nothing while it
    runs: the passes over the queue's content [q]. *)
Fixpoint drain_loaded_queue (q : list nat) (w : World) : Run :=
  match q with
  | [] => Done w
  | a :: q' =>
      match drain_entry a q' w with
      | Aborted e w1 => Aborted e w1
      | Done w1 => drain_loaded_queue q' w1
      end
  end.

(** The reset at the end of [_check_loader_status]. *)
Definition reset_counters (m : AssetManager) : AssetManager :=
  mkAssetManager 0 0
    (num_bcp_assets_to_load m) (num_bcp_assets_loaded m)
    (num_bcb_assets_remaining m) (loader_queue m) (loaded_queue m) false.

(** The [if] that follows the loop. *)
Definition reset_if_done (w : World) : World :=
  if num_assets_to_load (w_manager w) =? num_assets_loaded (w_manager w)
  then with_manager reset_counters w
  else w.

(** [AssetManager._check_loader_status], run without a step of the
    loader thread in between.  The handler for [AttributeError] serves
    the queues set to [None] by [shutdown], which is outside the model;
    no other exception is caught. *)
Definition _check_loader_status (w : World) : Run :=
  match drain_loaded_queue (loaded_queue (w_manager w)) w with
  | Aborted e w1 => Aborted e w1
  | Done w1 => Done (reset_if_done w1)
  end.

(** ** 3.7 [AssetGroup]: construction and the selection policies *)

(** [sum(...)]: the built-in, adding from 0 left to right. *)
Definition py_sum (l : list Z) : Z := fold_left Z.add l 0.

(** [[asset] * number]: a list repeats nothing for a number below 1. *)
Definition expand_member (m : Member) : list nat :=
  replicate (Z.to_nat (m_weight m)) (m_asset m).

(** [AssetGroup._configure_return_asset] *)
Definition _configure_return_asset (g : AssetGroup) : AssetGroup :=
  let g1 := set_total_weights (py_sum (map m_weight (assets g))) g in
  if String.eqb (g_type g1) "sequence" then
    set_asset_sequence
      (rotate_right
         (fold_left (λ d x, d ++ expand_member x) (assets g1)
            (_asset_sequence g1)))
      g1
  else g1.

(** [AssetGroup.__init__], from the point where the member strings of the
    config have been split into name and number and the names resolved in
    the asset registry: [members] lists the [(asset, number)] pairs in
    the order they are appended to [self.assets].  [config_type] is
    [config['type']] when the key is present. *)
Definition AssetGroup_init (config_type : option string)
    (members : list (nat * Z)) : AssetGroup :=
  let type := match config_type with
              | Some t => t
              | None => "sequence"%string
              end in
  _configure_return_asset
    (mkAssetGroup type None [] []
       (imap (λ i p, mkMember i (fst p) (snd p)) members)
       None [] [] 0).

(** The [for asset in assets] loop of [_pick_weighed_random]; [last_] is
    [assets[-1]], returned when the loop runs out. *)
Fixpoint pick_loop (value index_value : Z) (assets : list Member)
    (last_ : Member) : Member :=
  match assets with
  | [] => last_
  | asset :: rest =>
      if index_value >=? value then asset
      else pick_loop value (index_value + m_weight asset) rest last_
  end.

(** [AssetGroup._pick_weighed_random]; [v] is the generator's draw. *)
Definition _pick_weighed_random (total_weights v : Z) (assets : list Member)
    : Res Member :=
  value ← randint 1 total_weights v;
  match assets with
  | [] => Raise IndexError                           (* assets[0] *)
  | first :: rest =>
      Ok (pick_loop value (m_weight first) assets (List.last rest first))
  end.

(** [AssetGroup._get_random_asset] *)
Definition _get_random_asset (v : Z) (g : AssetGroup) : Res (nat * AssetGroup) :=
  m ← _pick_weighed_random (_total_weights g) v (assets g);
  Ok (m_asset m, g).

(** [AssetGroup._get_sequence_asset] *)
Definition _get_sequence_asset (g : AssetGroup) : Res (nat * AssetGroup) :=
  let d := rotate_left (_asset_sequence g) in
  match d with
  | [] => Raise IndexError                           (* deque[0] *)
  | a :: _ => Ok (a, set_asset_sequence d g)
  end.

(** [x is not self._last_asset] *)
Definition is_not_last (last_ : option Member) (x : Member) : bool :=
  match last_ with
  | None => true
  | Some l => negb (Member_is x l)
  end.

(** [AssetGroup._get_random_force_next_asset] *)
Definition _get_random_force_next_asset (v : Z) (g : AssetGroup)
    : Res (nat * AssetGroup) :=
  let candidates := filter (λ x, is_not_last (_last_asset g) x = true) (assets g) in
  let g1 := set_total_weights (py_sum (map m_weight candidates)) g in
  m ← _pick_weighed_random (_total_weights g1) v candidates;
  Ok (m_asset m, set_last_asset (Some m) g1).

(** [AssetGroup._get_random_force_all_asset] *)
Definition _get_random_force_all_asset (v : Z) (g : AssetGroup)
    : Res (nat * AssetGroup) :=
  let g1 := if Nat.eqb (length (_assets_sent g)) (length (assets g))
            then set_assets_sent [] g else g in
  m ← _pick_weighed_random (_total_weights g1) v
        (filter (λ x, set_mem Member_eqb x (_assets_sent g1) = false) (assets g1));
  Ok (m_asset m, set_assets_sent (set_add Member_eqb m (_assets_sent g1)) g1).

(** The [asset] property.  It yields [None] for a type it does not know;
    [v] is the draw of the one [randint] call a random policy makes. *)
Definition AssetGroup_asset (v : Z) (g : AssetGroup)
    : Res (option nat * AssetGroup) :=
  if String.eqb (g_type g) "random" then
    r ← _get_random_asset v g; Ok (Some (fst r), snd r)
  else if String.eqb (g_type g) "sequence" then
    r ← _get_sequence_asset g; Ok (Some (fst r), snd r)
  else if String.eqb (g_type g) "random_force_next" then
    r ← _get_random_force_next_asset v g; Ok (Some (fst r), snd r)
  else if String.eqb (g_type g) "random_force_all" then
    r ← _get_random_force_all_asset v g; Ok (Some (fst r), snd r)
  else Ok (None, g).

(** Successive reads of [asset], one draw per read: the assets returned
    and the group afterwards. *)
Fixpoint read_assets (draws : list Z) (g : AssetGroup)
    : Res (list (option nat) * AssetGroup) :=
  match draws with
  | [] => Ok ([], g)
  | v :: draws' =>
      r ← AssetGroup_asset v g;
      rs ← read_assets draws' (snd r);
      Ok (fst r :: fst rs, snd rs)
  end.

(* ===================================================================== *)
(** * 4. The running system *)
(* ===================================================================== *)

(** One step of the system is one call made by the application (creating
    an asset or a group, [load], [unload], reading a group's [asset], a
    remote progress report, the end of boot), one stretch of the loader
    thread's loop, or a poll or a part of one.  The loader thread shares
    the two queues and the assets' [loaded] flag with the main thread
    and touches them once in each stretch.  A poll between whose passes
    the loader thread runs is a sequence of [step_poll_entry] steps, one
    for each pass through its loop, and a [step_poll_end], with steps of
    the loader thread between them; [step_poll] is the poll that nothing
    interrupts.  An [unload], a progress report, a poll or a pass that
    an exception leaves is a step as well, to the world as the call left
    it; the hook outcome of a step is any a concrete asset kind can
    have. *)
Inductive step : World → World → Prop :=
| step_new_asset p w :
    step w (Asset_init p w)
| step_new_group ty members w :
    Forall (λ p, (fst p < length (w_assets w))%nat) members →
    step w (with_groups (λ gs, gs ++ [AssetGroup_init ty members]) w)
| step_asset_load a c p w w' :
    Asset_load a (App c) p w = Ok w' → step w w'
| step_asset_unload hook a w :
    step w (final (Asset_unload hook a w))
| step_group_load g c p w w' :
    AssetGroup_load g c p w = Ok w' → step w w'
| step_group_read g v grp r grp' w :
    get_group g w = Ok grp →
    AssetGroup_asset v grp = Ok (r, grp') →
    step w (upd_group g (λ _, grp') w)
| step_bcp total remaining w :
    step w (final (_bcp_client_asset_load total remaining w))
| step_boot_done w :
    step w (mkWorld (w_assets w) (w_groups w) (w_manager w) (w_next_id w)
              true (w_events w) (w_loader w))
| step_loader_get w :
    step w (AssetLoader_get w)
| step_loader_test w :
    step w (AssetLoader_test w)
| step_loader_do_load hook w :
    step w (AssetLoader_do_load hook w)
| step_loader_put w :
    step w (AssetLoader_put w)
| step_poll w :
    step w (final (_check_loader_status w))
| step_poll_entry a q' w :
    loaded_queue (w_manager w) = a :: q' →
    step w (final (drain_entry a q' w))
| step_poll_end w :
    step w (reset_if_done w).

Inductive reachable : World → Prop :=
| reachable_init : reachable World_init
| reachable_step w w' : reachable w → step w w' → reachable w'.

(* ===================================================================== *)
(** * 4b. Vocabulary of the statements *)
(* ===================================================================== *)

(** The members of a group written out: each asset as many times as its
    number says, in member order. *)
Definition expand_members (members : list (nat * Z)) : list nat :=
  flat_map (λ p, replicate (Z.to_nat (snd p)) (fst p)) members.
(** The draw [v] lies in the weight bracket of member [i] of [ms]: the
    weights before the member sum to less than [v], those up to and
    including it to at least [v]. *)
Definition in_bracket (ms : list Member) (i : nat) (v : Z) : Prop :=
  py_sum (map m_weight (take i ms)) < v
  ∧ v ≤ py_sum (map m_weight (take (S i) ms)).

(** The stored total weight of a group is the sum of its members'
    weights. *)
Definition total_weight_is_sum (g : AssetGroup) : Prop :=
  _total_weights g = py_sum (map m_weight (assets g)).

(** Every window of three consecutive reads of [g] returns each member
    of [g] once. *)
Definition every_window_complete (g : AssetGroup) : Prop :=
  ∀ (draws : list Z) (rs : list (option nat)) (g' : AssetGroup) (k : nat),
    read_assets draws g = Ok (rs, g') →
    (k + 3 ≤ length rs)%nat →
    take 3 (drop k rs) ≡ₚ map (λ m, Some (m_asset m)) (assets g).

(** The members a [random_force_all] group has handed out in the running
    cycle, as the next read sees them: none once every member has been
    handed out. *)
Definition sent_in_cycle (g : AssetGroup) : list Member :=
  if Nat.eqb (length (_assets_sent g)) (length (assets g)) then []
  else _assets_sent g.

(** A [random_force_all] group over the members [A] with stored total
    [T], whose sent set holds members of [A], each once. *)
Definition force_all_inv (A : list Member) (T : Z) (g : AssetGroup) : Prop :=
  g_type g = "random_force_all"%string
  ∧ assets g = A
  ∧ _total_weights g = T
  ∧ NoDup (_assets_sent g)
  ∧ (∀ x, x ∈ _assets_sent g → x ∈ A).

(** [w'] differs from [w] at most in its groups (their number is the
    same) and by further events. *)
Definition groups_frame (w w' : World) : Prop :=
  w_manager w' = w_manager w
  ∧ w_assets w' = w_assets w
  ∧ length (w_groups w') = length (w_groups w)
  ∧ w_next_id w' = w_next_id w
  ∧ w_init_done w' = w_init_done w
  ∧ (∃ es, w_events w' = w_events w ++ es)
  ∧ w_loader w' = w_loader w.


(** The asset after the first two statements of [load]. *)
Definition registered (callback : Callback) (prio : option Z) (self : Asset) : Asset :=
  set_callbacks
    (set_add (λ x y, bool_decide (x = y)) callback
       (_callbacks (match prio with Some p => set_priority p self | None => self end)))
    (match prio with Some p => set_priority p self | None => self end).


(** The asset the loader thread holds between its [get] and its [put]. *)
Definition in_hand (t : LoaderThread) : list nat :=
  match t with
  | Taken a | Decoding a | Finished a => [a]
  | Waiting | Ended => []
  end.

(** The load requests that are under way: the assets on the two queues
    and in the loader thread's hand. *)
Definition under_way (w : World) : Z :=
  Z.of_nat (length (loader_queue (w_manager w))
            + length (in_hand (w_loader w))
            + length (loaded_queue (w_manager w))).

(** The invariant of the progress counters: the requests counted as
    loaded and those under way are among the requests counted in
    [num_assets_to_load], and they are all of them as long as the loader
    thread has not ended. *)
Definition counters_inv (w : World) : Prop :=
  let m := w_manager w in
  0 ≤ num_assets_loaded m
  ∧ num_assets_loaded m + under_way w ≤ num_assets_to_load m
  ∧ (w_loader w ≠ Ended →
     num_assets_loaded m + under_way w = num_assets_to_load m).

(** The manager after [_load_asset] has put [a] on the loader queue,
    with [lt] for the entries' [__lt__]. *)
Definition enqueued (lt : nat → nat → bool) (a : nat) (m : AssetManager)
    : AssetManager :=
  mkAssetManager (num_assets_to_load m + 1) (num_assets_loaded m)
    (num_bcp_assets_to_load m) (num_bcp_assets_loaded m)
    (num_bcb_assets_remaining m)
    (PriorityQueue_put lt a (loader_queue m)) (loaded_queue m) true.

(** The manager with [k] more assets counted as loaded. *)
Definition add_loaded (k : Z) (m : AssetManager) : AssetManager :=
  mkAssetManager (num_assets_to_load m) (num_assets_loaded m + k)
    (num_bcp_assets_to_load m) (num_bcp_assets_loaded m)
    (num_bcb_assets_remaining m) (loader_queue m) (loaded_queue m)
    (_loaded_watcher m).

(** [loading_percent] returns on the counters of [m]. *)
Definition percent_returns (m : AssetManager) : Prop :=
  ∃ p, loading_percent m = Ok p.

(** The group references among an asset's callbacks name groups among
    the first [n]. *)
Definition callbacks_valid (n : nat) (self : Asset) : Prop :=
  ∀ g, GroupMemberLoaded g ∈ _callbacks self → (g < n)%nat.

(** Every reference held by the manager's queues and by the assets'
    callback sets names an object of the store. *)
Definition refs_valid (w : World) : Prop :=
  Forall (λ a, (a < length (w_assets w))%nat) (loader_queue (w_manager w))
  ∧ Forall (λ a, (a < length (w_assets w))%nat) (loaded_queue (w_manager w))
  ∧ Forall (callbacks_valid (length (w_groups w))) (w_assets w).

(** The reference in the loader thread's hand names an asset of the
    store. *)
Definition hand_valid (w : World) : Prop :=
  Forall (λ a, (a < length (w_assets w))%nat) (in_hand (w_loader w)).

(** No two successive entries of [rs] are the same. *)
Definition no_adjacent_repeat {A} (rs : list A) : Prop :=
  ∀ (i : nat) (x y : A), rs !! i = Some x → rs !! S i = Some y → x ≠ y.

(** An asset as [_loaded] leaves it: loaded, neither loading nor
    unloading, without pending callbacks. *)
Definition as_loaded (self : Asset) : Asset :=
  set_callbacks []
    (set_unloading false (set_loaded true (set_loading false self))).

(** When the poll is not scheduled both counters are 0. *)
Definition watcher_inv (m : AssetManager) : Prop :=
  _loaded_watcher m = false →
  num_assets_loaded m = 0 ∧ num_assets_to_load m = 0.

(** The member [x]'s asset exists in [w] and is not loaded. *)
Definition needs_load (w : World) (x : Member) : bool :=
  match w_assets w !! m_asset x with
  | Some self => negb (loaded self)
  | None => false
  end.

(** The asset at position [i] of the store carries the creation id
    [i + 1], and the class counter is the number of assets created. *)
Definition ids_inv (w : World) : Prop :=
  w_next_id w = Z.of_nat (length (w_assets w))
  ∧ ∀ (i : nat) (self : Asset),
      w_assets w !! i = Some self → _id self = Z.of_nat i + 1.

(** [w'] has the assets of [w] with the same creation ids, and the same
    class counter. *)
Definition ids_frame (w w' : World) : Prop :=
  _id <$> w_assets w' = _id <$> w_assets w ∧ w_next_id w' = w_next_id w.



(** The text holds a comma. *)
Fixpoint has_comma (s : string) : bool :=
  match s with
  | EmptyString => false
  | String c s' => Ascii.eqb c "," || has_comma s'
  end.

(* ===================================================================== *)
(** * 4c. Registration of asset classes *)
(* ===================================================================== *)

(** [list.sort(key=..., reverse=True)]: the sort is stable, entries with
    equal keys keep their order, also in reverse.  The model is the
    stable insertion sort, which yields what any stable sort yields. *)
Section PySort.
Context {A : Type} (key : A → Z).

Fixpoint sort_insert_reverse (x : A) (l : list A) : list A :=
  match l with
  | [] => [x]
  | y :: l' => if key x <? key y then y :: sort_insert_reverse x l' else x :: l
  end.

Definition py_sort_reverse (l : list A) : list A :=
  foldr sort_insert_reverse [] l.
End PySort.

Section AssetClasses.
(** The values of config settings are opaque. *)
Context {V : Type}.

(** An entry of [_asset_classes]: the dict built by
    [register_asset_class], one field per key ([ac_priority] is the key
    ['priority'], [cls] a reference to the class). *)
Record AssetClass : Type := mkAssetClass {
  attribute : string;
  cls : nat;
  path_string : string;
  config_section : string;
  extensions : list string;
  ac_priority : Z;
  group_config_section : option string;
  defaults : gmap string (gmap string V)
}.

(** What registration reads and writes: the names bound on [mc], the
    manager's [_asset_classes], and [mc.machine_config['assets']]
    (section, then folder, then setting); a missing or empty ['assets']
    entry is the empty map, the code treats the two alike. *)
Record Registry : Type := mkRegistry {
  mc_attributes : gset string;
  _asset_classes : list AssetClass;
  machine_assets_config : gmap string (gmap string (gmap string V))
}.

Inductive RegistrationError : Set :=
| AttributeExists       (* ValueError: mc already has the attribute *)
| NoDefaultSection.     (* KeyError: this_config.pop('default') *)

(** [AssetManager._set_asset_class_defaults], as the pair of the dict
    assigned to [asset_class['defaults']] and the config afterwards
    ([pop] takes ['default'] out of the section for good).  [None] is
    the [KeyError] of [pop], raised before anything is assigned. *)
Definition _set_asset_class_defaults (section : string)
    (config : gmap string (gmap string (gmap string V)))
    : option (gmap string (gmap string V)
              * gmap string (gmap string (gmap string V))) :=
  match config !! section with
  | Some this_config =>
      if decide (size this_config = 0%nat) then Some (∅, config)
      else
        match this_config !! "default"%string with
        | None => None
        | Some default_ =>
            let rest := delete "default"%string this_config in
            Some (map_fold (λ name settings d, <[name := settings ∪ default_]> d)
                    {["default"%string := default_]} rest,
                  <[section := rest]> config)
        end
  | None => Some (∅, config)
  end.

(** [AssetManager.register_asset_class]: the registry afterwards and the
    exception raised, if any.  The new dict is appended and sorted in
    with empty defaults and receives its defaults last; the list entry
    and the local variable are the same dict, so the list shows them. *)
Definition register_asset_class (asset_class : nat)
    (attribute_ config_section_ path_string_ : string)
    (extensions_ : list string) (priority_ : Z)
    (group_config_section_ : option string) (reg : Registry)
    : Registry * option RegistrationError :=
  if decide (attribute_ ∈ mc_attributes reg) then (reg, Some AttributeExists)
  else
    let outcome := _set_asset_class_defaults config_section_
                     (machine_assets_config reg) in
    let ac := mkAssetClass attribute_ asset_class path_string_ config_section_
                extensions_ priority_ group_config_section_
                (match outcome with Some (d, _) => d | None => ∅ end) in
    (mkRegistry ({[attribute_]} ∪ mc_attributes reg)
       (py_sort_reverse ac_priority (_asset_classes reg ++ [ac]))
       (match outcome with
        | Some (_, config') => config'
        | None => machine_assets_config reg
        end),
     match outcome with
     | Some _ => None
     | None => Some NoDefaultSection
     end).
End AssetClasses.
Arguments AssetClass : clear implicits.
Arguments Registry : clear implicits.


(* ===================================================================== *)
(** * 5. Lemmas and theorems *)
(* ===================================================================== *)

(** ** 5.1 Results *)

Lemma bind_Ok {A B} (m : Res A) (f : A → Res B) (b : B) :
  m ≫= f = Ok b ↔ ∃ a, m = Ok a ∧ f a = Ok b.
Proof.
  destruct m as [a|e]; simpl; split.
  - eauto.
  - intros (a' & [= <-] & H); exact H.
  - discriminate.
  - intros (a' & [=] & _).
Qed.

(** ** 5.2 Sums and rotations *)

Lemma fold_left_add_shift (l : list Z) (z : Z) :
  fold_left Z.add l z = z + fold_left Z.add l 0.
Proof.
  revert z; induction l as [|x l IH]; intros z; simpl; [lia|].
  rewrite (IH (z + x)), (IH (0 + x)); lia.
Qed.

Lemma py_sum_cons (x : Z) (l : list Z) : py_sum (x :: l) = x + py_sum l.
Proof. unfold py_sum; simpl; apply fold_left_add_shift. Qed.

Lemma py_sum_nil : py_sum [] = 0.
Proof. reflexivity. Qed.

Lemma py_sum_app (l k : list Z) : py_sum (l ++ k) = py_sum l + py_sum k.
Proof.
  induction l as [|x l IH]; simpl; [rewrite py_sum_nil; lia|].
  rewrite !py_sum_cons, IH; lia.
Qed.

Lemma rotate_nat_add_mod (j i len : nat) :
  rotate_nat_add j i len = ((j + i) `mod` len)%nat.
Proof.
  unfold rotate_nat_add.
  rewrite <- Nat2Z.inj_add, Z2Nat.inj_mod, !Nat2Z.id by lia. done.
Qed.

Lemma rotate_left_rotate {A} (l : list A) (j : nat) :
  rotate_left (rotate j l) = rotate (S j) l.
Proof.
  destruct (decide (l = [])) as [->|Hne].
  { unfold rotate. by rewrite !drop_nil, !take_nil. }
  assert (Hlen : (0 < length l)%nat) by (destruct l; simpl; [done|lia]).
  apply list_eq; intros i.
  pose proof (length_rotate l j) as Hrl.
  destruct (decide (i < length l)%nat) as [Hi|Hi].
  - rewrite lookup_rotate_r, rotate_nat_add_mod by done.
    destruct (rotate j l) as [|x d] eqn:Hd; [simpl in Hrl; lia|].
    simpl in Hrl |- *.
    destruct (decide (i < length d)%nat) as [Hid|Hid].
    + rewrite lookup_app_l by done.
      change (d !! i) with ((x :: d) !! S i).
      rewrite <- Hd, lookup_rotate_r, rotate_nat_add_mod by lia.
      do 2 f_equal; lia.
    + assert (i = length d) as -> by lia.
      rewrite lookup_app_r, Nat.sub_diag by done. simpl.
      change (Some x) with ((x :: d) !! 0%nat).
      rewrite <- Hd, lookup_rotate_r, rotate_nat_add_mod by lia.
      f_equal. rewrite <- Hrl.
      rewrite <- (Nat.Div0.mod_add (j + 0) 1 (S (length d))). f_equal; lia.
  - rewrite (lookup_ge_None_2 (rotate (S j) l)) by (rewrite length_rotate; lia).
    apply lookup_ge_None_2.
    destruct (rotate j l); simpl in *; [lia|].
    rewrite length_app; simpl; lia.
Qed.

Lemma rotate_right_rotate {A} (l : list A) :
  rotate_right l = rotate (length l - 1) l.
Proof.
  destruct l as [|x l]; [reflexivity|].
  unfold rotate_right, rotate.
  assert (Hm : ((length (x :: l) - 1) `mod` length (x :: l) = length l)%nat).
  { change (length (x :: l)) with (S (length l)).
    replace (S (length l) - 1)%nat with (length l) by lia.
    apply Nat.mod_small; lia. }
  rewrite Hm.
  destruct (exists_last (l := x :: l)) as (k & y & Hk); [done|].
  rewrite Hk. 
  assert (length l = length k) as ->.
  { apply (f_equal length) in Hk. rewrite length_app in Hk. simpl in Hk. lia. }
  rewrite drop_app_length, take_app_length, removelast_last.
  simpl. f_equal.
  destruct k as [|z k]; simpl in Hk.
  - injection Hk as -> ->. reflexivity.
  - injection Hk as -> ->. apply last_last.
Qed.

Lemma head_rotate {A} (l : list A) (j : nat) :
  head (rotate j l) = l !! (j `mod` length l)%nat.
Proof.
  destruct (decide (l = [])) as [->|Hne].
  { unfold rotate. by rewrite drop_nil, take_nil. }
  assert (0 < length l)%nat by (destruct l; simpl; [done|lia]).
  rewrite head_lookup.
  rewrite lookup_rotate_r, rotate_nat_add_mod by done.
  by rewrite Nat.add_0_r.
Qed.

(** ** 5.3 Group construction *)

Section Construction.
Variable ty : option string.
Variable members : list (nat * Z).

Lemma imap_member_weights (h : nat → nat) (l : list (nat * Z)) :
  map m_weight (imap (λ i p, mkMember (h i) (fst p) (snd p)) l) = map snd l.
Proof.
  revert h; induction l as [|p l IH]; intros h; [reflexivity|].
  simpl. f_equal. apply (IH (h ∘ S)).
Qed.

Lemma imap_member_expand (h : nat → nat) (l : list (nat * Z)) :
  flat_map expand_member (imap (λ i p, mkMember (h i) (fst p) (snd p)) l)
  = expand_members l.
Proof.
  revert h; induction l as [|p l IH]; intros h; [reflexivity|].
  simpl. f_equal. apply (IH (h ∘ S)).
Qed.

Lemma fold_left_extend (l : list Member) (d : list nat) :
  fold_left (λ d x, d ++ expand_member x) l d = d ++ flat_map expand_member l.
Proof.
  revert d; induction l as [|x l IH]; intros d; simpl.
  - by rewrite app_nil_r.
  - by rewrite IH, <- app_assoc.
Qed.

Lemma init_assets :
  assets (AssetGroup_init ty members)
  = imap (λ i p, mkMember i (fst p) (snd p)) members.
Proof.
  unfold AssetGroup_init, _configure_return_asset; simpl.
  by destruct (String.eqb _ _).
Qed.

Lemma init_total_weights :
  _total_weights (AssetGroup_init ty members) = py_sum (map snd members).
Proof.
  unfold AssetGroup_init, _configure_return_asset; simpl.
  rewrite (imap_member_weights id).
  by destruct (String.eqb _ _).
Qed.

Lemma init_type :
  g_type (AssetGroup_init ty members)
  = match ty with Some t => t | None => "sequence"%string end.
Proof.
  unfold AssetGroup_init, _configure_return_asset; simpl.
  by destruct (String.eqb _ _).
Qed.

Lemma init_sequence :
  (ty = None ∨ ty = Some "sequence"%string) →
  _asset_sequence (AssetGroup_init ty members)
  = rotate_right (expand_members members).
Proof.
  intros Hty. unfold AssetGroup_init, _configure_return_asset; simpl.
  assert (match ty with Some t => t | None => "sequence"%string end
          = "sequence"%string) as -> by (by destruct Hty as [-> | ->]).
  simpl. by rewrite fold_left_extend, (imap_member_expand id).
Qed.
End Construction.

Lemma length_expand_members (members : list (nat * Z)) :
  Forall (λ p, 0 ≤ snd p) members →
  Z.of_nat (length (expand_members members)) = py_sum (map snd members).
Proof.
  induction 1 as [|p l Hp _ IH]; [reflexivity|].
  unfold expand_members in *; simpl.
  rewrite length_app, length_replicate, py_sum_cons, Nat2Z.inj_add, IH. lia.
Qed.

(** ** 5.4 The sequence policy *)

Lemma sequence_reads (E : list nat) (draws : list Z) :
  E ≠ [] →
  ∀ (g : AssetGroup) (j : nat),
    g_type g = "sequence"%string →
    _asset_sequence g = rotate j E →
    ∃ g', read_assets draws g
          = Ok (map (λ k, E !! ((j + 1 + k) `mod` length E)%nat)
                  (seq 0 (length draws)), g').
Proof.
  intros HE. induction draws as [|v draws IH]; intros g j Hty Hseq.
  - by eexists.
  - cbn [read_assets]. unfold AssetGroup_asset. rewrite Hty. cbn [String.eqb Ascii.eqb Bool.eqb].
    unfold _get_sequence_asset. rewrite Hseq, rotate_left_rotate.
    pose proof (head_rotate E (S j)) as Hhd.
    pose proof (length_rotate E (S j)) as Hlen.
    destruct (rotate (S j) E) as [|a d] eqn:Hrot.
    { destruct E; [done|discriminate]. }
    change (head (a :: d)) with (Some a) in Hhd. cbn [mbind Res_bind fst snd].
    destruct (IH (set_asset_sequence (a :: d) g) (S j)) as [g' Hg']; [done|done|].
    rewrite Hg'. exists g'. cbn [mbind Res_bind fst snd length seq map].
    assert (Some a = E !! ((j + 1 + 0) `mod` length E)%nat) as ->.
    { rewrite Hhd. f_equal. f_equal. lia. }
    assert (map (λ k, E !! ((S j + 1 + k) `mod` length E)%nat)
              (seq 0 (length draws))
            = map (λ k, E !! ((j + 1 + k) `mod` length E)%nat)
                (seq 1 (length draws))) as ->; [|done].
    rewrite <- seq_shift, map_map. apply map_ext; intros k.
    f_equal. f_equal. lia.
Qed.

(** C7.  A sequence group (the default type) over members with
    non-negative numbers of positive total: the buffer built by the
    constructor is the written-out member list [E] turned by one place,
    the total weight is the length of [E], and read number [k] (from 0)
    returns entry [k mod length E] of [E]: the reads run through [E] in
    member order, over and over.  For members [(A,2),(B,1)] six reads
    give A, A, B, A, A, B. *)
Theorem sequence_group_cycles (ty : option string) (members : list (nat * Z))
    (draws : list Z) :
  ty = None ∨ ty = Some "sequence"%string →
  Forall (λ p, 0 ≤ snd p) members →
  0 < py_sum (map snd members) →
  let g := AssetGroup_init ty members in
  let E := expand_members members in
  _asset_sequence g = rotate_right E
  ∧ _total_weights g = Z.of_nat (length E)
  ∧ (∃ g', read_assets draws g
           = Ok (map (λ k, E !! (k `mod` length E)%nat)
                   (seq 0 (length draws)), g'))
  ∧ (∀ A B : nat, ∃ g',
       read_assets [0; 0; 0; 0; 0; 0] (AssetGroup_init ty [(A, 2); (B, 1)])
       = Ok ([Some A; Some A; Some B; Some A; Some A; Some B], g')).
Proof.
  intros Hty Hw Hpos g E.
  pose proof (length_expand_members members Hw) as HL. fold E in HL.
  assert (HE : E ≠ []) by (intros HE; rewrite HE in HL; simpl in HL; lia).
  assert (HLpos : (0 < length E)%nat) by (destruct E; simpl; [done|lia]).
  split; [by apply init_sequence|].
  split; [unfold g; by rewrite init_total_weights|].
  split.
  - destruct (sequence_reads E draws HE g (length E - 1)) as [g' Hg'].
    + unfold g. rewrite init_type. by destruct Hty as [-> | ->].
    + unfold g. rewrite init_sequence by done. apply rotate_right_rotate.
    + exists g'. rewrite Hg'. do 2 f_equal. apply map_ext; intros k.
      f_equal.
      replace (length E - 1 + 1 + k)%nat with (k + 1 * length E)%nat by lia.
      apply Nat.Div0.mod_add.
  - intros A B. destruct Hty as [-> | ->]; eexists; vm_compute; reflexivity.
Qed.

Lemma sequence_group_cycles_witness :
  ∃ g', read_assets [0; 0; 0; 0] (AssetGroup_init None [(7%nat, 2); (9%nat, 1)])
        = Ok ([Some 7%nat; Some 7%nat; Some 9%nat; Some 7%nat], g').
Proof.
  refine (proj1 (proj2 (proj2
    (sequence_group_cycles None [(7%nat, 2); (9%nat, 1)] [0; 0; 0; 0] _ _ _)))).
  - left; reflexivity.
  - repeat constructor; simpl; lia.
  - reflexivity.
Defined.

(** ** 5.5 The weighted pick *)

(** C6, evaluated where the code leaves the claim.  In the random group
    [(0,3),(1,1),(2,1)] (total weight 5) the draw 5 lies in the bracket
    of the third member (4 < 5 ≤ 5), and [_get_random_asset] returns the
    second member's asset: the running sum starts at the first weight
    and the first weight is added once more after the first comparison,
    so the second member is tested against 6. *)
Theorem weighted_pick_leaves_bracket :
  let g := AssetGroup_init (Some "random"%string)
             [(0%nat, 3); (1%nat, 1); (2%nat, 1)] in
  _total_weights g = 5
  ∧ assets g !! 2%nat = Some (mkMember 2 2 1)
  ∧ in_bracket (assets g) 2 5
  ∧ _get_random_asset 5 g = Ok (1%nat, g)
  ∧ AssetGroup_asset 5 g = Ok (Some 1%nat, g).
Proof. vm_compute. repeat split; congruence. Qed.

(** ** 5.6 The weighted pick returns one of the candidates *)

Lemma last_elem_of {A} (l : list A) (x : A) : List.last l x ∈ x :: l.
Proof.
  induction l as [|y l IH]; [left|].
  destruct l as [|z l]; [right; left|].
  change (List.last (y :: z :: l) x) with (List.last (z :: l) x).
  apply elem_of_cons in IH as [->|IH]; [left|right; by right].
Qed.

Lemma pick_loop_elem_of (value index_value : Z) (l : list Member) (d : Member) :
  pick_loop value index_value l d ∈ l ∨ pick_loop value index_value l d = d.
Proof.
  revert index_value; induction l as [|x l IH]; intros i; simpl; [by right|].
  destruct (i >=? value); [left; left|].
  destruct (IH (i + m_weight x)) as [?|?]; [left; by right|by right].
Qed.

Lemma pick_elem_of (T v : Z) (l : list Member) (m : Member) :
  _pick_weighed_random T v l = Ok m → m ∈ l.
Proof.
  unfold _pick_weighed_random. intros H.
  apply bind_Ok in H as (value & _ & H).
  destruct l as [|x l]; [done|]. injection H as Hm. subst m.
  change (pick_loop value (m_weight x) (x :: l) (List.last l x) ∈ x :: l).
  destruct (pick_loop_elem_of value (m_weight x) (x :: l) (List.last l x))
    as [Hin | Heq]; [exact Hin|].
  rewrite Heq. apply last_elem_of.
Qed.

Lemma pick_succeeds (T v : Z) (l : list Member) :
  1 ≤ v ≤ T → l ≠ [] → ∃ m, _pick_weighed_random T v l = Ok m.
Proof.
  intros Hv Hl. unfold _pick_weighed_random, randint.
  replace ((1 <=? v) && (v <=? T)) with true
    by (symmetry; apply andb_true_iff; split; apply Z.leb_le; lia).
  destruct l; [done|]. by eexists.
Qed.

(** ** 5.7 The stored total weight *)

Lemma filter_all {A} (P : A → Prop) `{∀ x, Decision (P x)} (l : list A) :
  Forall P l → filter P l = l.
Proof.
  induction 1 as [|x l Hx _ IH]; [done|].
  rewrite filter_cons_True by done. by f_equal.
Qed.

Ltac unbind :=
  repeat match goal with
  | H : mbind _ _ = Ok _ |- _ =>
      apply bind_Ok in H; destruct H as (? & ? & ?)
  | H : Raise _ = Ok _ |- _ => discriminate H
  | H : Ok _ = Ok _ |- _ => injection H as ?
  end.

Lemma read_keeps_shape (g g' : AssetGroup) (v : Z) (r : option nat) :
  AssetGroup_asset v g = Ok (r, g') →
  assets g' = assets g ∧ g_type g' = g_type g.
Proof.
  unfold AssetGroup_asset, _get_random_asset, _get_sequence_asset,
    _get_random_force_next_asset, _get_random_force_all_asset.
  intros H.
  repeat (destruct (String.eqb (g_type g) _)); unbind; subst; simpl.
  - done.
  - destruct (rotate_left _); simplify_eq. done.
  - done.
  - by destruct (Nat.eqb _ _).
  - done.
Qed.

Lemma read_keeps_total (g g' : AssetGroup) (v : Z) (r : option nat) :
  AssetGroup_asset v g = Ok (r, g') →
  g_type g ≠ "random_force_next"%string →
  _total_weights g' = _total_weights g.
Proof.
  unfold AssetGroup_asset, _get_random_asset, _get_sequence_asset,
    _get_random_force_next_asset, _get_random_force_all_asset.
  intros H Hty.
  destruct (String.eqb (g_type g) "random") eqn:E1.
  { unbind; subst; done. }
  destruct (String.eqb (g_type g) "sequence") eqn:E2.
  { unbind; subst. destruct (rotate_left _); by simplify_eq. }
  destruct (String.eqb (g_type g) "random_force_next") eqn:E3.
  { by apply String.eqb_eq in E3. }
  destruct (String.eqb (g_type g) "random_force_all") eqn:E4.
  { unbind; subst; simpl. by destruct (Nat.eqb _ _). }
  by simplify_eq.
Qed.

Lemma reads_keep_shape (draws : list Z) :
  ∀ (g g' : AssetGroup) (rs : list (option nat)),
    read_assets draws g = Ok (rs, g') →
    assets g' = assets g ∧ g_type g' = g_type g
    ∧ (g_type g ≠ "random_force_next"%string →
       _total_weights g' = _total_weights g).
Proof.
  induction draws as [|v draws IH]; intros g g' rs H.
  - simpl in H. simplify_eq. auto.
  - cbn [read_assets] in H.
    apply bind_Ok in H as ([r g1] & H1 & H).
    apply bind_Ok in H as ([rs' g2] & H2 & H). cbn [fst snd] in *.
    injection H as <- <-.
    destruct (read_keeps_shape _ _ _ _ H1) as [Ha Ht].
    destruct (IH _ _ _ H2) as (Ha' & Ht' & Hw).
    split; [congruence|]. split; [congruence|].
    intros Hne. rewrite Hw by congruence.
    by eapply read_keeps_total.
Qed.

(** C9 as stated fails: in a [random_force_next] group of two members of
    weight 1, the second read stores the total weight 1, the sum of the
    weights without the member picked first. *)
Lemma total_weight_is_sum_counterexample :
  ¬ (∀ (ty : option string) (members : list (nat * Z)) (draws : list Z)
       (rs : list (option nat)) (g' : AssetGroup),
       read_assets draws (AssetGroup_init ty members) = Ok (rs, g') →
       total_weight_is_sum g').
Proof.
  intros H.
  specialize (H (Some "random_force_next"%string) [(0%nat, 1); (1%nat, 1)]
                [1; 1] _ _ eq_refl).
  vm_compute in H. discriminate H.
Qed.

Lemma force_next_read (g g' : AssetGroup) (v : Z) (r : option nat) :
  g_type g = "random_force_next"%string →
  AssetGroup_asset v g = Ok (r, g') →
  ∃ m, r = Some (m_asset m)
       ∧ _last_asset g' = Some m
       ∧ m ∈ assets g
       ∧ is_not_last (_last_asset g) m = true.
Proof.
  intros Hty. unfold AssetGroup_asset. rewrite Hty.
  cbn [String.eqb Ascii.eqb Bool.eqb]. unfold _get_random_force_next_asset.
  intros H. apply bind_Ok in H as ([a g1] & H & Hr).
  apply bind_Ok in H as (m & Hm & H).
  injection H as <- <-. injection Hr as <- <-.
  apply pick_elem_of, list_elem_of_filter in Hm as [Hnot Hin].
  by exists m.
Qed.

Lemma force_next_reads_last (draws : list Z) :
  ∀ (g g' : AssetGroup) (rs : list (option nat)),
    g_type g = "random_force_next"%string →
    read_assets draws g = Ok (rs, g') →
    match last rs with
    | None => draws = [] ∧ g' = g
    | Some r => ∃ m, r = Some (m_asset m) ∧ _last_asset g' = Some m
                     ∧ m ∈ assets g
    end.
Proof.
  induction draws as [|v draws IH]; intros g g' rs Hty H.
  - injection H as <- <-. done.
  - cbn [read_assets] in H. apply bind_Ok in H as ([r g1] & H1 & H).
    apply bind_Ok in H as ([rs' g2] & H2 & H). cbn [fst snd] in *.
    injection H as <- <-.
    destruct (force_next_read _ _ _ _ Hty H1) as (m & -> & Hl1 & Hin & _).
    destruct (read_keeps_shape _ _ _ _ H1) as [Ha1 Hty1].
    specialize (IH g1 g2 rs' ltac:(congruence) H2).
    rewrite last_cons. destruct (last rs') as [r'|].
    + destruct IH as (m' & -> & Hl & Hin'). exists m'.
      split; [done|]. split; [done|]. congruence.
    + destruct IH as [_ ->]. by exists m.
Qed.

Lemma sum_without_member (m : Member) (A : list Member) :
  NoDup (m_oid <$> A) → m ∈ A →
  py_sum (map m_weight (filter (λ x, is_not_last (Some m) x = true) A))
  = py_sum (map m_weight A) - m_weight m.
Proof.
  induction A as [|x A IH]; intros Hnd Hin; [by apply elem_of_nil in Hin|].
  rewrite fmap_cons in Hnd. apply NoDup_cons in Hnd as [Hx Hnd].
  cbn [map]. rewrite py_sum_cons.
  apply elem_of_cons in Hin as [->|Hin].
  - rewrite filter_cons_False
      by (unfold is_not_last, Member_is; rewrite Nat.eqb_refl; done).
    rewrite filter_all; [lia|].
    apply Forall_forall. intros y Hy. unfold is_not_last, Member_is.
    apply negb_true_iff, Nat.eqb_neq. intros Heq. apply Hx.
    rewrite <- Heq. apply list_elem_of_fmap. by exists y.
  - assert (Hne : m_oid x ≠ m_oid m).
    { intros Heq. apply Hx. rewrite Heq. apply list_elem_of_fmap. by exists m. }
    rewrite filter_cons_True
      by (unfold is_not_last, Member_is; by apply negb_true_iff, Nat.eqb_neq).
    cbn [map]. rewrite py_sum_cons, IH by done. lia.
Qed.

Lemma init_members_oids (members : list (nat * Z)) :
  NoDup (m_oid <$> imap (λ i p, mkMember i (fst p) (snd p)) members).
Proof.
  assert (H : ∀ (l : list (nat * Z)) (k : nat),
            m_oid <$> imap (λ i p, mkMember (k + i) (fst p) (snd p)) l
            = seq k (length l)).
  { induction l as [|p l IH]; intros k; [done|].
    cbn [imap fmap list_fmap length seq]. simpl. f_equal.
    - lia.
    - rewrite <- (IH (S k)). f_equal. apply imap_ext. intros i x _. simpl.
      f_equal. lia. }
  specialize (H members 0%nat). cbn [Nat.add] in H. rewrite H. apply NoDup_seq.
Qed.

(** C9, amended.  The total weight stored by the constructor is the sum
    of the members' weights.  In a group of any type but
    [random_force_next] it still is after any number of reads of
    [asset].  In a [random_force_next] group no member is remembered
    before the first read, and the first read stores the sum of all
    weights; after a read the group remembers the member whose asset
    that read returned, and the next read stores the sum of all weights
    less the weight of that member and returns another member. *)
Theorem total_weight_after_reads (ty : option string)
    (members : list (nat * Z)) (draws : list Z) (rs : list (option nat))
    (g' : AssetGroup) (v : Z) (r : option nat) (g'' : AssetGroup) :
  let g := AssetGroup_init ty members in
  read_assets draws g = Ok (rs, g') →
  AssetGroup_asset v g' = Ok (r, g'') →
  total_weight_is_sum g
  ∧ _last_asset g = None
  ∧ assets g'' = assets g
  ∧ (g_type g ≠ "random_force_next"%string →
     total_weight_is_sum g' ∧ total_weight_is_sum g'')
  ∧ (g_type g = "random_force_next"%string →
     _total_weights g''
     = py_sum (map m_weight
                 (filter (λ x, is_not_last (_last_asset g') x = true)
                    (assets g')))
     ∧ match last rs with
       | None => _last_asset g' = None ∧ total_weight_is_sum g''
       | Some r' =>
           ∃ m, r' = Some (m_asset m) ∧ _last_asset g' = Some m
                ∧ m ∈ assets g
                ∧ _total_weights g''
                  = py_sum (map m_weight (assets g)) - m_weight m
       end
     ∧ ∃ m'', r = Some (m_asset m'') ∧ _last_asset g'' = Some m''
              ∧ m'' ∈ assets g ∧ Some m'' ≠ _last_asset g').
Proof.
  intros g Hreads Hread.
  assert (Hinit : total_weight_is_sum g).
  { unfold total_weight_is_sum, g.
    rewrite init_total_weights, init_assets.
    by rewrite (imap_member_weights id). }
  assert (Hlast0 : _last_asset g = None).
  { unfold g, AssetGroup_init, _configure_return_asset. simpl.
    by destruct (String.eqb _ _). }
  destruct (reads_keep_shape _ _ _ _ Hreads) as (Ha & Ht & Hw).
  destruct (read_keeps_shape _ _ _ _ Hread) as [Ha' Ht'].
  split; [done|]. split; [done|]. split; [congruence|]. split.
  - intros Hne. unfold total_weight_is_sum in *.
    assert (_total_weights g' = py_sum (map m_weight (assets g')))
      by (rewrite Hw, Ha by done; done).
    split; [done|].
    rewrite (read_keeps_total _ _ _ _ Hread) by congruence. congruence.
  - intros Hfn.
    assert (Hcalc : _total_weights g''
      = py_sum (map m_weight
                  (filter (λ x, is_not_last (_last_asset g') x = true)
                     (assets g')))).
    { revert Hread. unfold AssetGroup_asset. rewrite Ht, Hfn.
      cbn [String.eqb Ascii.eqb Bool.eqb]. unfold _get_random_force_next_asset.
      intros H. unbind; subst; done. }
    split; [done|]. split.
    + pose proof (force_next_reads_last draws g g' rs Hfn Hreads) as Hl.
      destruct (last rs) as [r'|].
      * destruct Hl as (m & -> & Hlm & Hin). exists m.
        split; [done|]. split; [done|]. split; [done|].
        rewrite Hcalc, Hlm, Ha. apply sum_without_member; [|done].
        unfold g. rewrite init_assets. apply init_members_oids.
      * destruct Hl as [_ ->]. split; [done|].
        unfold total_weight_is_sum. rewrite Hcalc, Hlast0, Ha'.
        f_equal. f_equal. unfold is_not_last.
        apply filter_all. by apply Forall_forall.
    + destruct (force_next_read g' g'' v r) as (m'' & -> & Hl'' & Hin'' & Hnot);
        [congruence|done|].
      exists m''. split; [done|]. split; [done|]. split; [congruence|].
      intros Heq. rewrite <- Heq in Hnot. simpl in Hnot.
      unfold Member_is in Hnot. by rewrite Nat.eqb_refl in Hnot.
Qed.

Lemma total_weight_after_reads_witness :
  ∃ g' g'' m,
    read_assets [1]
      (AssetGroup_init (Some "random_force_next"%string) [(0%nat, 2); (1%nat, 1)])
    = Ok ([Some 0%nat], g')
    ∧ AssetGroup_asset 1 g' = Ok (Some 1%nat, g'')
    ∧ _last_asset g' = Some m
    ∧ _total_weights g'' = 3 - m_weight m.
Proof.
  pose proof (total_weight_after_reads (Some "random_force_next"%string)
                [(0%nat, 2); (1%nat, 1)] [1] _ _ 1 _ _ eq_refl eq_refl)
    as (_ & _ & _ & _ & Hfn).
  destruct (Hfn eq_refl) as (_ & (m & _ & Hl & _ & Ht) & _).
  eexists _, _, m.
  split; [reflexivity|]. split; [reflexivity|]. split; [exact Hl|exact Ht].
Defined.

(** ** 5.8 The [random_force_all] policy *)

Section ForceAll.
Variable A : list Member.
Variable T : Z.
Hypothesis A_assets : ∀ x y, x ∈ A → y ∈ A → m_asset x = m_asset y → x = y.
Hypothesis A_NoDup : NoDup A.
Hypothesis A_nonempty : A ≠ [].

Lemma Member_eqb_eq (x y : Member) :
  x ∈ A → y ∈ A → Member_eqb x y = true ↔ x = y.
Proof.
  intros Hx Hy. unfold Member_eqb. split.
  - intros [H _]%andb_true_iff. apply Nat.eqb_eq in H. by apply A_assets.
  - intros ->. apply andb_true_iff. split; [apply Nat.eqb_refl|apply Z.eqb_refl].
Qed.

Lemma set_mem_elem_of (x : Member) (s : list Member) :
  x ∈ A → (∀ y, y ∈ s → y ∈ A) → set_mem Member_eqb x s = true ↔ x ∈ s.
Proof.
  intros Hx Hs. unfold set_mem. rewrite existsb_exists. split.
  - intros (y & Hy%list_elem_of_In & Heq).
    apply Member_eqb_eq in Heq; [by subst|done|by apply Hs].
  - intros Hin. exists x. split; [by apply list_elem_of_In|].
    by apply Member_eqb_eq.
Qed.

Lemma candidates_nonempty (s : list Member) :
  NoDup s → (∀ y, y ∈ s → y ∈ A) → (length s < length A)%nat →
  filter (λ x, set_mem Member_eqb x s = false) A ≠ [].
Proof.
  intros Hnd Hs Hlen Hnil.
  assert (Hsub : A ⊆+ s).
  { apply NoDup_submseteq; [done|]. intros x Hx.
    apply (set_mem_elem_of x s Hx Hs).
    destruct (set_mem Member_eqb x s) eqn:E; [done|].
    assert (x ∈ filter (λ x, set_mem Member_eqb x s = false) A)
      by (by apply list_elem_of_filter).
    rewrite Hnil in *. by apply elem_of_nil in H. }
  apply submseteq_length in Hsub. lia.
Qed.

Lemma sent_in_cycle_short (g : AssetGroup) :
  force_all_inv A T g → (length (sent_in_cycle g) < length A)%nat.
Proof.
  intros (_ & Ha & _ & Hnd & Hs). unfold sent_in_cycle. rewrite Ha.
  destruct (Nat.eqb_spec (length (_assets_sent g)) (length A)) as [|Hne].
  - simpl. destruct A; [done|simpl; lia].
  - assert (_assets_sent g ⊆+ A) as Hsub%submseteq_length
      by (by apply NoDup_submseteq).
    lia.
Qed.

(** One read: it succeeds, returns a member not yet handed out in the
    running cycle and adds it to that cycle's members. *)
Lemma force_all_read (g : AssetGroup) (v : Z) :
  force_all_inv A T g → 1 ≤ v ≤ T →
  ∃ m g', AssetGroup_asset v g = Ok (Some (m_asset m), g')
          ∧ force_all_inv A T g'
          ∧ m ∈ A ∧ (m ∉ sent_in_cycle g)
          ∧ _assets_sent g' = sent_in_cycle g ++ [m].
Proof.
  intros Hinv Hv.
  pose proof (sent_in_cycle_short g Hinv) as Hshort.
  destruct Hinv as (Hty & Ha & Ht & Hnd & Hs).
  unfold AssetGroup_asset. rewrite Hty.
  cbn [String.eqb Ascii.eqb Bool.eqb].
  unfold _get_random_force_all_asset.
  set (g1 := if Nat.eqb _ _ then _ else _).
  assert (Hs1 : _assets_sent g1 = sent_in_cycle g)
    by (unfold g1, sent_in_cycle; by destruct (Nat.eqb _ _)).
  assert (Ha1 : assets g1 = A) by (unfold g1; by destruct (Nat.eqb _ _)).
  assert (Ht1 : _total_weights g1 = T) by (unfold g1; by destruct (Nat.eqb _ _)).
  assert (Hty1 : g_type g1 = "random_force_all"%string)
    by (unfold g1; by destruct (Nat.eqb _ _)).
  assert (Hnd1 : NoDup (sent_in_cycle g))
    by (unfold sent_in_cycle; destruct (Nat.eqb _ _); [constructor|done]).
  assert (Hsub1 : ∀ y, y ∈ sent_in_cycle g → y ∈ A).
  { unfold sent_in_cycle; destruct (Nat.eqb _ _); [|done].
    intros y Hy. by apply elem_of_nil in Hy. }
  rewrite Hs1, Ha1, Ht1.
  destruct (pick_succeeds T v
              (filter (λ x, set_mem Member_eqb x (sent_in_cycle g) = false) A))
    as [m Hm]; [done|by apply candidates_nonempty|].
  rewrite Hm. cbn [mbind Res_bind fst snd].
  apply pick_elem_of, list_elem_of_filter in Hm as [Hmem HmA].
  assert (Hnotin : m ∉ sent_in_cycle g).
  { intros Hin. apply (set_mem_elem_of m _ HmA Hsub1) in Hin. congruence. }
  exists m, (set_assets_sent (set_add Member_eqb m (sent_in_cycle g)) g1).
  unfold set_add. rewrite Hmem.
  split; [done|]. split; [|done].
  split; [done|]. split; [done|]. split; [done|]. simpl. split.
  - apply NoDup_app. split; [done|]. split; [|apply NoDup_singleton].
    intros x Hx ->%list_elem_of_singleton. done.
  - intros x [Hx | ->%list_elem_of_singleton]%elem_of_app; [by apply Hsub1|done].
Qed.
(** Reads that stay within one cycle. *)
Lemma force_all_within_cycle (draws : list Z) :
  ∀ g, force_all_inv A T g →
    Forall (λ v, 1 ≤ v ≤ T) draws →
    (length (sent_in_cycle g) + length draws ≤ length A)%nat →
    draws ≠ [] →
    ∃ M g', read_assets draws g = Ok (map (λ m, Some (m_asset m)) M, g')
            ∧ force_all_inv A T g'
            ∧ length M = length draws
            ∧ _assets_sent g' = sent_in_cycle g ++ M.
Proof.
  induction draws as [|v draws IH]; intros g Hinv Hrange Hlen Hne; [done|].
  apply Forall_cons in Hrange as [Hv Hrange].
  destruct (force_all_read g v Hinv Hv) as (m & g1 & Hread & Hinv1 & _ & _ & Hs1).
  cbn [read_assets]. rewrite Hread. cbn [mbind Res_bind fst snd].
  destruct draws as [|v' draws'].
  - exists [m], g1. cbn [read_assets mbind Res_bind fst snd map app].
    split; [done|]. split; [done|]. split; [done|]. exact Hs1.
  - assert (Hsic : sent_in_cycle g1 = sent_in_cycle g ++ [m]).
    { unfold sent_in_cycle at 1. rewrite Hs1.
      destruct Hinv1 as (_ & -> & _). rewrite length_app. simpl in Hlen |- *.
      destruct (Nat.eqb_spec (length (sent_in_cycle g) + 1) (length A));
        [lia|done]. }
    destruct (IH g1 Hinv1 Hrange) as (M & g' & HM & Hinv' & HlenM & Hs');
      [rewrite Hsic, length_app; simpl in *; lia|done|].
    rewrite HM. exists (m :: M), g'. cbn [mbind Res_bind fst snd map].
    split; [done|]. split; [done|]. split; [simpl; by rewrite HlenM|].
    by rewrite Hs', Hsic, <- app_assoc.
Qed.

(** A whole cycle hands out every member once. *)
Lemma force_all_full_cycle (draws : list Z) (g : AssetGroup) :
  force_all_inv A T g →
  Forall (λ v, 1 ≤ v ≤ T) draws →
  sent_in_cycle g = [] →
  length draws = length A →
  ∃ M g', read_assets draws g = Ok (map (λ m, Some (m_asset m)) M, g')
          ∧ force_all_inv A T g'
          ∧ M ≡ₚ A
          ∧ _assets_sent g' = M
          ∧ sent_in_cycle g' = [].
Proof.
  intros Hinv Hrange Hsic Hlen.
  destruct (force_all_within_cycle draws g Hinv Hrange) as
    (M & g' & HM & Hinv' & HlenM & Hs').
  { rewrite Hsic; simpl; lia. }
  { intros ->. destruct A; [done|discriminate]. }
  rewrite Hsic in Hs'. simpl in Hs'.
  exists M, g'. split; [done|]. split; [done|].
  pose proof Hinv' as (_ & Ha' & _ & Hnd & Hsub). rewrite Hs' in Hnd, Hsub.
  split; [|split; [done|]].
  - apply submseteq_length_Permutation; [by apply NoDup_submseteq|lia].
  - unfold sent_in_cycle. rewrite Hs', Ha', HlenM, Hlen.
    by rewrite Nat.eqb_refl.
Qed.

Lemma read_assets_app (d1 d2 : list Z) :
  ∀ g, read_assets (d1 ++ d2) g
       = r1 ← read_assets d1 g;
         r2 ← read_assets d2 (snd r1);
         Ok (fst r1 ++ fst r2, snd r2).
Proof.
  induction d1 as [|v d1 IH]; intros g.
  - cbn [app read_assets mbind Res_bind fst snd].
    by destruct (read_assets d2 g) as [[??]|].
  - cbn [app read_assets].
    destruct (AssetGroup_asset v g) as [[r g1]|]; [|done].
    cbn [mbind Res_bind fst snd]. rewrite IH.
    destruct (read_assets d1 g1) as [[rs1 g2]|]; [|done].
    cbn [mbind Res_bind fst snd].
    by destruct (read_assets d2 g2) as [[??]|].
Qed.

(** Any number of reads from the start of a cycle: every window that
    is a whole cycle hands out every member once, and the sent set
    holds what the reads of the last cycle begun have returned. *)
Lemma force_all_reads (n : nat) :
  ∀ draws g, (length draws ≤ n)%nat →
    force_all_inv A T g →
    Forall (λ v, 1 ≤ v ≤ T) draws →
    sent_in_cycle g = [] →
    ∃ M g', read_assets draws g = Ok (map (λ m, Some (m_asset m)) M, g')
            ∧ length M = length draws
            ∧ (draws = [] → g' = g)
            ∧ (∀ k, (length A * k + length A ≤ length M)%nat →
                    take (length A) (drop (length A * k) M) ≡ₚ A)
            ∧ (draws ≠ [] →
               _assets_sent g'
               = drop (length A * ((length M - 1) / length A)) M).
Proof.
  assert (HA : (0 < length A)%nat) by (destruct A; [done|simpl; lia]).
  induction n as [|n IH]; intros draws g Hn Hinv Hrange Hsic.
  { destruct draws; [|simpl in Hn; lia].
    exists [], g. repeat split; [|done]. intros k Hk; simpl in Hk; lia. }
  destruct (decide (length draws < length A)%nat) as [Hshort|Hlong].
  - destruct draws as [|v draws'].
    { exists [], g. repeat split; [|done]. intros k Hk; simpl in Hk; lia. }
    destruct (force_all_within_cycle (v :: draws') g Hinv Hrange) as
      (M & g' & HM & Hinv' & HlenM & Hs'); [rewrite Hsic; simpl in *; lia|done|].
    exists M, g'. split; [done|]. split; [done|]. split; [done|]. split.
    + intros k Hk. lia.
    + intros _. rewrite Hs', Hsic. simpl.
      rewrite Nat.div_small by lia. by rewrite Nat.mul_0_r.
  - rewrite <- (take_drop (length A) draws) in Hrange |- *.
    apply Forall_app in Hrange as [Hr1 Hr2].
    destruct (force_all_full_cycle (take (length A) draws) g Hinv Hr1 Hsic)
      as (M1 & g1 & HM1 & Hinv1 & Hperm & Hs1 & Hsic1);
      [rewrite length_take; lia|].
    destruct (IH (drop (length A) draws) g1) as
      (M2 & g' & HM2 & HlenM2 & Hnil & Hwin & Hsent);
      [rewrite length_drop; lia|done|done|done|].
    assert (HlenM1 : length M1 = length A) by (by rewrite Hperm).
    rewrite read_assets_app, HM1. cbn [mbind Res_bind fst snd].
    rewrite HM2. cbn [mbind Res_bind fst snd].
    exists (M1 ++ M2), g'. rewrite map_app. split; [done|].
    split; [rewrite !length_app, length_take, length_drop in *; lia|].
    split.
    { intros Heq. apply (f_equal length) in Heq.
      rewrite length_app, length_take, length_drop in Heq. simpl in Heq. lia. }
    split.
    + intros [|k] Hk.
      * rewrite Nat.mul_0_r, drop_0, take_app_length' by done. done.
      * rewrite length_app in Hk.
        replace (length A * S k)%nat with (length M1 + length A * k)%nat by lia.
        rewrite drop_app_add. apply Hwin. lia.
    + intros _. rewrite length_app.
      destruct (decide (drop (length A) draws = [])) as [Hd|Hd].
      * rewrite (Hnil Hd), Hs1. rewrite Hd in HlenM2.
        destruct M2; [|done]. rewrite app_nil_r. simpl.
        rewrite Nat.add_0_r, Nat.div_small by lia.
        by rewrite Nat.mul_0_r.
      * rewrite (Hsent Hd).
        assert (length M2 ≠ 0)%nat.
        { rewrite HlenM2. destruct (drop (length A) draws); [done|simpl; lia]. }
        replace (length M1 + length M2 - 1)%nat
          with (1 * length A + (length M2 - 1))%nat by lia.
        rewrite Nat.div_add_l by lia.
        replace (length A * (1 + (length M2 - 1) / length A))%nat
          with (length M1 + length A * ((length M2 - 1) / length A))%nat by lia.
        by rewrite drop_app_add.
Qed.
End ForceAll.

Lemma init_assets_sent (ty : option string) (members : list (nat * Z)) :
  _assets_sent (AssetGroup_init ty members) = [].
Proof.
  unfold AssetGroup_init, _configure_return_asset; simpl.
  by destruct (String.eqb _ _).
Qed.

Lemma imap_member_assets (h : nat → nat) (l : list (nat * Z)) :
  map (λ m, Some (m_asset m)) (imap (λ i p, mkMember (h i) (fst p) (snd p)) l)
  = map (λ p, Some (fst p)) l.
Proof.
  revert h; induction l as [|p l IH]; intros h; [reflexivity|].
  simpl. f_equal. apply (IH (h ∘ S)).
Qed.

Lemma members_distinct_assets (members : list (nat * Z)) (x y : Member) :
  NoDup (map fst members) →
  x ∈ imap (λ i p, mkMember i (fst p) (snd p)) members →
  y ∈ imap (λ i p, mkMember i (fst p) (snd p)) members →
  m_asset x = m_asset y → x = y.
Proof.
  intros Hnd (i & p & -> & Hi)%elem_of_lookup_imap
    (j & q & -> & Hj)%elem_of_lookup_imap Heq.
  simpl in Heq.
  assert (i = j) as ->.
  { eapply (NoDup_lookup _ _ _ _ Hnd).
    - rewrite list_lookup_fmap, Hi. reflexivity.
    - rewrite list_lookup_fmap, Hj. simpl. by rewrite Heq. }
  congruence.
Qed.

Lemma members_NoDup (members : list (nat * Z)) :
  NoDup (imap (λ i p, mkMember i (fst p) (snd p)) members).
Proof.
  apply NoDup_alt. intros i j x Hi Hj.
  apply list_lookup_imap_Some in Hi as (p & _ & ->).
  apply list_lookup_imap_Some in Hj as (q & _ & Heq).
  by injection Heq.
Qed.

(** C8 as stated fails: with three members of weight 1 and the draws
    1, 1, 1, 3 the reads return the members 0, 1, 2, 2; the window of
    reads two to four holds member 2 twice and member 0 not at all. *)
Lemma every_window_complete_counterexample :
  ¬ every_window_complete
      (AssetGroup_init (Some "random_force_all"%string)
         [(0%nat, 1); (1%nat, 1); (2%nat, 1)]).
Proof.
  intros H.
  assert (Hr : ∃ g', read_assets [1; 1; 1; 3]
                       (AssetGroup_init (Some "random_force_all"%string)
                          [(0%nat, 1); (1%nat, 1); (2%nat, 1)])
                     = Ok ([Some 0; Some 1; Some 2; Some 2]%nat, g'))
    by (eexists; vm_compute; reflexivity).
  destruct Hr as [g' Hr].
  specialize (H _ _ _ 1%nat Hr). simpl in H.
  assert (Hin : Some 0%nat ∈ [Some 1; Some 2; Some 2]%nat).
  { rewrite H by lia. left. }
  repeat (apply elem_of_cons in Hin as [Hin|Hin]; [discriminate Hin|]).
  by apply elem_of_nil in Hin.
Qed.

(** C8, amended.  A [random_force_all] group over three members with
    distinct assets, read with draws in [[1, total weight]]: every read
    succeeds; the reads 3k+1 to 3k+3 of every cycle return the three
    members, each once; and the sent set holds what has been returned
    since the last cycle began, so the first read of a new cycle finds
    it reset and leaves one member in it. *)
Theorem force_all_cycles (members : list (nat * Z)) (draws : list Z) :
  length members = 3%nat →
  NoDup (map fst members) →
  Forall (λ v, 1 ≤ v ≤ py_sum (map snd members)) draws →
  let g := AssetGroup_init (Some "random_force_all"%string) members in
  ∃ rs g', read_assets draws g = Ok (rs, g')
    ∧ length rs = length draws
    ∧ (∀ k, (3 * k + 3 ≤ length rs)%nat →
            take 3 (drop (3 * k) rs) ≡ₚ map (λ p, Some (fst p)) members)
    ∧ map (λ m, Some (m_asset m)) (_assets_sent g')
      = drop (3 * ((length rs - 1) / 3)) rs.
Proof.
  intros Hlen Hnd Hrange g.
  set (A := imap (λ i p, mkMember i (fst p) (snd p)) members).
  assert (HlenA : length A = 3%nat) by (unfold A; by rewrite length_imap).
  assert (HA : A ≠ []) by (intros HA; by rewrite HA in HlenA).
  assert (Hinv : force_all_inv A (py_sum (map snd members)) g).
  { unfold force_all_inv, g.
    rewrite init_type, init_assets, init_total_weights, init_assets_sent.
    repeat split; [constructor|]. intros x Hx. by apply elem_of_nil in Hx. }
  assert (Hsic : sent_in_cycle g = []).
  { unfold sent_in_cycle, g. rewrite init_assets_sent. by destruct (Nat.eqb _ _). }
  destruct (force_all_reads A (py_sum (map snd members))
              (λ x y, members_distinct_assets members x y Hnd)
              (members_NoDup members) HA (length draws) draws g)
    as (M & g' & HM & HlenM & Hnil & Hwin & Hsent); [done..|].
  rewrite HlenA in Hwin, Hsent.
  exists (map (λ m, Some (m_asset m)) M), g'.
  split; [done|]. rewrite length_map. split; [done|]. split.
  - intros k Hk.
    change (take 3 (drop (3 * k) ((λ m, Some (m_asset m)) <$> M))
            ≡ₚ map (λ p, Some (fst p)) members).
    rewrite <- fmap_drop, <- fmap_take, (Hwin k Hk).
    unfold A. change (λ m : Member, Some (m_asset m)) with (λ m, Some (m_asset m)).
    by rewrite <- (imap_member_assets id members).
  - destruct draws as [|v draws'].
    + rewrite (Hnil eq_refl). unfold g. rewrite init_assets_sent.
      destruct M; [done|discriminate].
    + rewrite Hsent by done.
      change (map (λ m, Some (m_asset m)) ?l) with ((λ m, Some (m_asset m)) <$> l).
      by rewrite fmap_drop.
Qed.

Lemma force_all_cycles_witness :
  ∃ rs g', read_assets [2; 1; 3; 3; 2; 1]
             (AssetGroup_init (Some "random_force_all"%string)
                [(4%nat, 1); (5%nat, 1); (6%nat, 1)]) = Ok (rs, g')
    ∧ length rs = 6%nat
    ∧ (∀ k, (3 * k + 3 ≤ length rs)%nat →
            take 3 (drop (3 * k) rs) ≡ₚ [Some 4; Some 5; Some 6]%nat)
    ∧ map (λ m, Some (m_asset m)) (_assets_sent g')
      = drop (3 * ((length rs - 1) / 3)) rs.
Proof.
  apply (force_all_cycles [(4%nat, 1); (5%nat, 1); (6%nat, 1)]
           [2; 1; 3; 3; 2; 1]).
  - reflexivity.
  - apply NoDup_ListNoDup. repeat constructor; simpl; intuition congruence.
  - repeat constructor; vm_compute; congruence.
Defined.

(** ** 5.9 Progress percentage *)






(** ** 5.10 The heap of the loader queue *)

Section HeapFacts.
Context {A : Type} (lt : A → A → bool).

Lemma heap_swap_Permutation (i j : nat) (heap : list A) :
  heap_swap i j heap ≡ₚ heap.
Proof.
  unfold heap_swap.
  destruct (heap !! i) as [x|] eqn:Hi; [|done].
  destruct (heap !! j) as [y|] eqn:Hj; [|done].
  pose proof (lookup_lt_Some _ _ _ Hi) as Hli.
  pose proof (lookup_lt_Some _ _ _ Hj) as Hlj.
  apply Permutation_inj. split; [by rewrite !length_insert|].
  exists (λ k, if decide (k = i) then j else if decide (k = j) then i else k).
  split.
  - intros k1 k2 Hk. repeat case_decide; congruence.
  - intros k. destruct (decide (k = i)) as [->|Hki].
    + by rewrite list_lookup_insert_eq, Hj by (by rewrite length_insert).
    + rewrite list_lookup_insert_ne by done.
      destruct (decide (k = j)) as [->|Hkj].
      * by rewrite list_lookup_insert_eq, Hi.
      * by rewrite list_lookup_insert_ne.
Qed.

Lemma length_heap_swap (i j : nat) (heap : list A) :
  length (heap_swap i j heap) = length heap.
Proof. apply Permutation_length, heap_swap_Permutation. Qed.

(** The bounds given to the two loops are never used up: a larger bound
    gives the same heap. *)
Lemma _siftdown_fuel (n : nat) :
  ∀ (heap : list A) (startpos pos : nat),
    (pos ≤ n)%nat →
    _siftdown lt (S n) heap startpos pos = _siftdown lt n heap startpos pos.
Proof.
  induction n as [|n IH]; intros heap startpos pos Hn.
  - cbn [_siftdown]. destruct (decide _); [lia|done].
  - change (_siftdown lt (S (S n)) heap startpos pos)
      with (if decide (startpos < pos)%nat then
              match heap !! pos, heap !! ((pos - 1) / 2)%nat with
              | Some newitem, Some parent =>
                  if lt newitem parent
                  then _siftdown lt (S n)
                         (heap_swap pos ((pos - 1) / 2) heap) startpos
                         ((pos - 1) / 2)%nat
                  else heap
              | _, _ => heap
              end
            else heap).
    cbn [_siftdown]. destruct (decide _) as [Hlt|]; [|done].
    destruct (heap !! pos); [|done].
    destruct (heap !! _); [|done].
    destruct (lt _ _); [|done].
    apply IH.
    assert ((pos - 1) / 2 ≤ pos - 1)%nat by (apply Nat.Div0.div_le_upper_bound; lia).
    lia.
Qed.

Lemma _siftup_loop_fuel (n : nat) :
  ∀ (heap : list A) (pos : nat),
    (length heap ≤ n + pos)%nat →
    _siftup_loop lt (S n) heap pos = _siftup_loop lt n heap pos.
Proof.
  induction n as [|n IH]; intros heap pos Hn.
  - cbn [_siftup_loop].
    rewrite (lookup_ge_None_2 heap (2 * pos + 1)) by lia. done.
  - change (_siftup_loop lt (S (S n)) heap pos)
      with (match heap !! (2 * pos + 1)%nat with
            | None => (heap, pos)
            | Some child =>
                let childpos :=
                  match heap !! (2 * pos + 1 + 1)%nat with
                  | Some rchild =>
                      if lt child rchild then (2 * pos + 1)%nat
                      else (2 * pos + 1 + 1)%nat
                  | None => (2 * pos + 1)%nat
                  end in
                _siftup_loop lt (S n) (heap_swap pos childpos heap) childpos
            end).
    cbn [_siftup_loop]. destruct (heap !! (2 * pos + 1)%nat); [|done].
    cbv zeta. apply IH. rewrite length_heap_swap.
    destruct (heap !! _); [destruct (lt _ _)|]; lia.
Qed.

Lemma _siftdown_Permutation (n : nat) :
  ∀ (heap : list A) (startpos pos : nat),
    _siftdown lt n heap startpos pos ≡ₚ heap.
Proof.
  induction n as [|n IH]; intros heap startpos pos; [done|].
  cbn [_siftdown]. destruct (decide _); [|done].
  destruct (heap !! pos); [|done].
  destruct (heap !! _); [|done].
  destruct (lt _ _); [|done].
  rewrite IH. apply heap_swap_Permutation.
Qed.

Lemma _siftup_loop_Permutation (n : nat) :
  ∀ (heap : list A) (pos : nat), (_siftup_loop lt n heap pos).1 ≡ₚ heap.
Proof.
  induction n as [|n IH]; intros heap pos; [done|].
  cbn [_siftup_loop]. destruct (heap !! _); [|done].
  rewrite IH. apply heap_swap_Permutation.
Qed.

Lemma _siftup_Permutation (heap : list A) (pos : nat) :
  _siftup lt heap pos ≡ₚ heap.
Proof.
  unfold _siftup. rewrite _siftdown_Permutation. apply _siftup_loop_Permutation.
Qed.

Lemma heappush_Permutation (heap : list A) (item : A) :
  heappush lt heap item ≡ₚ heap ++ [item].
Proof. apply _siftdown_Permutation. Qed.

Lemma removelast_snoc (l : list A) (x : A) : removelast (l ++ [x]) = l.
Proof. by rewrite removelast_app, app_nil_r. Qed.

Lemma heappop_Permutation (heap rest : list A) (x : A) :
  heappop lt heap = Some (x, rest) → heap ≡ₚ x :: rest.
Proof.
  unfold heappop. destruct (last heap) as [lastelt|] eqn:Hl; [|done].
  apply last_Some in Hl as [l' ->]. rewrite removelast_snoc.
  destruct l' as [|returnitem l'].
  - intros [= <- <-]. done.
  - intros [= <- <-]. rewrite _siftup_Permutation.
    rewrite <- app_comm_cons. f_equiv.
    by rewrite Permutation_app_comm.
Qed.

(** [heappop] hands out the root of the heap. *)
Lemma heappop_root (heap : list A) :
  heappop lt heap = match heap with
                    | [] => None
                    | x :: _ => Some (x, default [] (snd <$> heappop lt heap))
                    end.
Proof.
  unfold heappop. destruct heap as [|x heap]; [done|].
  destruct (last (x :: heap)) as [lastelt|] eqn:Hl.
  - apply last_Some in Hl as [l' Hl']. rewrite Hl', removelast_snoc.
    destruct l' as [|y l'].
    + by injection Hl' as -> ->.
    + by injection Hl' as -> ->.
  - by apply last_None in Hl.
Qed.

Lemma heappop_None (heap : list A) : heappop lt heap = None ↔ heap = [].
Proof.
  rewrite heappop_root. by destruct heap.
Qed.
End HeapFacts.

Lemma PriorityQueue_put_Permutation {A} (lt : A → A → bool) (x : A) (q : list A) :
  PriorityQueue_put lt x q ≡ₚ q ++ [x].
Proof. apply heappush_Permutation. Qed.

Lemma PriorityQueue_get_Permutation {A} (lt : A → A → bool)
    (q rest : list A) (x : A) :
  PriorityQueue_get lt q = Some (x, rest) → q ≡ₚ x :: rest.
Proof. apply heappop_Permutation. Qed.

Lemma PriorityQueue_get_length {A} (lt : A → A → bool)
    (q rest : list A) (m : A) :
  PriorityQueue_get lt q = Some (m, rest) →
  m ∈ q ∧ length q = S (length rest).
Proof.
  intros H%PriorityQueue_get_Permutation. split.
  - rewrite H. left.
  - by rewrite H.
Qed.

Lemma PriorityQueue_get_subset {A} (lt : A → A → bool)
    (q rest : list A) (m : A) :
  PriorityQueue_get lt q = Some (m, rest) → ∀ x, x ∈ rest → x ∈ q.
Proof.
  intros H%PriorityQueue_get_Permutation x Hx. rewrite H. by right.
Qed.

(** The heap operations see [__lt__] only through its answers. *)
Section HeapExt.
Context {A : Type} (lt lt' : A → A → bool).
Hypothesis Hlt : ∀ x y, lt x y = lt' x y.

Lemma _siftdown_ext (n : nat) :
  ∀ (heap : list A) (startpos pos : nat),
    _siftdown lt n heap startpos pos = _siftdown lt' n heap startpos pos.
Proof.
  induction n as [|n IH]; intros heap startpos pos; [done|].
  cbn [_siftdown]. destruct (decide _); [|done].
  destruct (heap !! pos); [|done].
  destruct (heap !! _); [|done].
  rewrite Hlt. destruct (lt' _ _); [|done]. apply IH.
Qed.

Lemma PriorityQueue_put_ext (x : A) (q : list A) :
  PriorityQueue_put lt x q = PriorityQueue_put lt' x q.
Proof. apply _siftdown_ext. Qed.
End HeapExt.

(** ** 5.11 The order of the loader queue *)

(** C1, evaluated where the code leaves the claim.  [__lt__] compares
    the texts ["priority, id"]: of two assets of priority 0 with the
    creation ids 1 and 2 the one created later counts as less, moves to
    the root of the heap when it is put and is taken off the loader
    queue first; and an asset of priority 9 counts as less than one of
    priority 10 (["9"] sorts after ["1"]) and is taken first. *)
Theorem loader_queue_takes_later_and_lower_first :
  let early := mkAsset 0 1 [] false false false in
  let late := mkAsset 0 2 [] false false false in
  let high := mkAsset 10 1 [] false false false in
  let low := mkAsset 9 2 [] false false false in
  Asset_lt late early = true ∧ Asset_lt early late = false
  ∧ Asset_lt low high = true ∧ Asset_lt high low = false
  ∧ (∃ w, (w1 ← Asset_load 0 (App PyNone) None
                   (Asset_init 0 (Asset_init 0 World_init));
           Asset_load 1 (App PyNone) None w1) = Ok w
          ∧ loader_queue (w_manager w) = [1; 0]%nat
          ∧ loaded_queue (w_manager (AssetLoader_run_once None w)) = [1%nat]
          ∧ loader_queue (w_manager (AssetLoader_run_once None w)) = [0%nat])
  ∧ (∃ w, (w1 ← Asset_load 0 (App PyNone) None
                   (Asset_init 9 (Asset_init 10 World_init));
           Asset_load 1 (App PyNone) None w1) = Ok w
          ∧ loader_queue (w_manager w) = [1; 0]%nat
          ∧ loaded_queue (w_manager (AssetLoader_run_once None w)) = [1%nat]
          ∧ loader_queue (w_manager (AssetLoader_run_once None w)) = [0%nat]).
Proof.
  intros early late high low.
  split; [vm_compute; reflexivity|]. split; [vm_compute; reflexivity|].
  split; [vm_compute; reflexivity|]. split; [vm_compute; reflexivity|].
  split; eexists; (split; [vm_compute; reflexivity|]);
    (split; [vm_compute; reflexivity|]); split; vm_compute; reflexivity.
Qed.

(** ** 5.12 What firing callbacks leaves alone *)

Lemma get_asset_Ok (a : nat) (w : World) (x : Asset) :
  get_asset a w = Ok x ↔ w_assets w !! a = Some x.
Proof. unfold get_asset. destruct (_ !! _); split; congruence. Qed.

Lemma get_group_Ok (g : nat) (w : World) (x : AssetGroup) :
  get_group g w = Ok x ↔ w_groups w !! g = Some x.
Proof. unfold get_group. destruct (_ !! _); split; congruence. Qed.

Lemma groups_frame_refl (w : World) : groups_frame w w.
Proof. repeat split. exists []. by rewrite app_nil_r. Qed.

Lemma groups_frame_trans (w1 w2 w3 : World) :
  groups_frame w1 w2 → groups_frame w2 w3 → groups_frame w1 w3.
Proof.
  intros (Hm & Ha & Hg & Hn & Hi & [es He] & Hl)
    (Hm' & Ha' & Hg' & Hn' & Hi' & [es' He'] & Hl').
  repeat split; try congruence.
  exists (es ++ es'). by rewrite He', He, app_assoc.
Qed.

Lemma groups_frame_emit (e : Event) (w : World) : groups_frame w (emit e w).
Proof. repeat split. by exists [e]. Qed.

Lemma groups_frame_upd_group (g : nat) (f : AssetGroup → AssetGroup) (w : World) :
  groups_frame w (upd_group g f w).
Proof.
  repeat split; simpl; [apply length_alter|]. exists []. by rewrite app_nil_r.
Qed.

Lemma fold_group_callbacks_frame (g : nat) (l : list AppCallback) (w : World) :
  let w' := fold_left (λ w' cb, match cb with
                                | Callable k => emit (CalledWithGroup k g) w'
                                | PyNone => w'
                                end) l w in
  groups_frame w w' ∧ w_groups w' = w_groups w
  ∧ ∀ k, Callable k ∈ l → CalledWithGroup k g ∈ w_events w'.
Proof.
  revert w; induction l as [|cb l IH]; intros w; simpl.
  - split; [apply groups_frame_refl|]. split; [done|].
    intros k Hk. by apply elem_of_nil in Hk.
  - destruct (IH (match cb with
                  | Callable k => emit (CalledWithGroup k g) w
                  | PyNone => w
                  end)) as (Hf & Hg & Hev).
    split; [|split].
    + eapply groups_frame_trans; [|exact Hf].
      destruct cb; [apply groups_frame_refl|apply groups_frame_emit].
    + rewrite Hg. by destruct cb.
    + intros k [<-|Hk]%elem_of_cons; [|by apply Hev].
      destruct Hf as (_ & _ & _ & _ & _ & [es ->] & _). simpl.
      apply elem_of_app. left. apply elem_of_app. right. left.
Qed.

Lemma AssetGroup__call_callbacks_frame (g : nat) (w w' : World) :
  AssetGroup__call_callbacks g w = Ok w' → groups_frame w w'.
Proof.
  unfold AssetGroup__call_callbacks. intros H.
  apply bind_Ok in H as (grp & _ & H). injection H as <-.
  eapply groups_frame_trans; [|apply groups_frame_upd_group].
  apply fold_group_callbacks_frame.
Qed.

Lemma AssetGroup__call_callbacks_succeeds (g : nat) (w : World) :
  (g < length (w_groups w))%nat → ∃ w', AssetGroup__call_callbacks g w = Ok w'.
Proof.
  intros Hg. apply lookup_lt_is_Some in Hg as [grp Hgrp].
  unfold AssetGroup__call_callbacks, get_group. rewrite Hgrp.
  by eexists.
Qed.

Lemma AssetGroup__group_member_loaded_frame (g : nat) (x : PyObj) (w w' : World) :
  AssetGroup__group_member_loaded g x w = Ok w' → groups_frame w w'.
Proof.
  unfold AssetGroup__group_member_loaded. intros H.
  apply bind_Ok in H as (grp & _ & H).
  destruct (set_discard _ _ _).
  - eapply groups_frame_trans; [apply groups_frame_upd_group|].
    by eapply AssetGroup__call_callbacks_frame.
  - injection H as <-. apply groups_frame_upd_group.
Qed.

Lemma AssetGroup__group_member_loaded_succeeds (g : nat) (x : PyObj) (w : World) :
  (g < length (w_groups w))%nat →
  ∃ w', AssetGroup__group_member_loaded g x w = Ok w'.
Proof.
  intros Hg. pose proof Hg as [grp Hgrp]%lookup_lt_is_Some.
  unfold AssetGroup__group_member_loaded, get_group. rewrite Hgrp.
  cbn [mbind Res_bind].
  destruct (set_discard _ _ _); [|by eexists].
  apply AssetGroup__call_callbacks_succeeds. simpl. by rewrite length_alter.
Qed.

(** The loop of [Asset._call_callbacks] over the callbacks [l]. *)
Lemma fire_asset_callbacks (a : nat) (l : list Callback) :
  ∀ w, (∀ g, GroupMemberLoaded g ∈ l → (g < length (w_groups w))%nat) →
    ∃ w', foldM (λ w' cb,
                   match cb with
                   | App PyNone => Ok w'
                   | App (Callable k) => Ok (emit (CalledWithAsset k a) w')
                   | GroupMemberLoaded g =>
                       AssetGroup__group_member_loaded g (ObjAsset a) w'
                   end) w l = Ok w'
          ∧ groups_frame w w'
          ∧ ∀ k, App (Callable k) ∈ l → CalledWithAsset k a ∈ w_events w'.
Proof.
  induction l as [|cb l IH]; intros w Hg.
  - exists w. split; [done|]. split; [apply groups_frame_refl|].
    intros k Hk. by apply elem_of_nil in Hk.
  - cbn [foldM].
    assert (∃ w1, match cb with
                  | App PyNone => Ok w
                  | App (Callable k) => Ok (emit (CalledWithAsset k a) w)
                  | GroupMemberLoaded g =>
                      AssetGroup__group_member_loaded g (ObjAsset a) w
                  end = Ok w1
                  ∧ groups_frame w w1
                  ∧ ∀ k, cb = App (Callable k) → CalledWithAsset k a ∈ w_events w1)
      as (w1 & Hw1 & Hf1 & Hev1).
    { destruct cb as [[|k]|g].
      - exists w. split; [done|]. split; [apply groups_frame_refl|done].
      - eexists. split; [done|]. split; [apply groups_frame_emit|].
        intros k' [= <-]. simpl. apply elem_of_app. right. left.
      - destruct (AssetGroup__group_member_loaded_succeeds g (ObjAsset a) w)
          as [w1 Hw1]; [apply Hg; left|].
        exists w1. split; [done|].
        split; [by eapply AssetGroup__group_member_loaded_frame|done]. }
    rewrite Hw1. cbn [mbind Res_bind].
    destruct (IH w1) as (w' & Hw' & Hf' & Hev').
    { intros g Hin. destruct Hf1 as (_ & _ & -> & _). apply Hg. by right. }
    exists w'. split; [done|]. split; [by eapply groups_frame_trans|].
    intros k [Hk|Hk]%elem_of_cons; [|by apply Hev'].
    destruct Hf' as (_ & _ & _ & _ & _ & [es ->] & _).
    apply elem_of_app. left. by apply Hev1.
Qed.

Lemma Asset__call_callbacks_spec (a : nat) (self : Asset) (w : World) :
  w_assets w !! a = Some self →
  (∀ g, GroupMemberLoaded g ∈ _callbacks self → (g < length (w_groups w))%nat) →
  ∃ w', Asset__call_callbacks a w = Ok w'
        ∧ w_manager w' = w_manager w
        ∧ w_assets w' = alter (set_callbacks []) a (w_assets w)
        ∧ length (w_groups w') = length (w_groups w)
        ∧ (∃ es, w_events w' = w_events w ++ es)
        ∧ ∀ k, App (Callable k) ∈ _callbacks self →
               CalledWithAsset k a ∈ w_events w'.
Proof.
  intros Ha Hg. unfold Asset__call_callbacks, get_asset. rewrite Ha.
  cbn [mbind Res_bind].
  destruct (fire_asset_callbacks a (_callbacks self) w Hg)
    as (w1 & -> & (Hm & Has & Hgs & _ & _ & Hes & _) & Hev).
  cbn [mbind Res_bind]. eexists. split; [done|]. simpl.
  rewrite Has. repeat split; done.
Qed.

(** ** 5.13 [Asset.load] *)

Lemma set_add_elem_of {A} `{EqDecision A} (x y : A) (s : list A) :
  x ∈ set_add (λ u v, bool_decide (u = v)) y s ↔ x = y ∨ x ∈ s.
Proof.
  unfold set_add, set_mem.
  destruct (existsb _ s) eqn:E.
  - apply existsb_exists in E as (z & Hz%list_elem_of_In & Heq%bool_decide_eq_true).
    subst z. split; [by right|]. by intros [->|?].
  - rewrite elem_of_app, list_elem_of_singleton. tauto.
Qed.

Lemma ref_lt_ext (w w' : World) :
  Asset_key <$> w_assets w = Asset_key <$> w_assets w' →
  ∀ a b, ref_lt w a b = ref_lt w' a b.
Proof.
  intros H a b. unfold ref_lt, Asset_lt.
  pose proof (f_equal (λ l, l !! a) H) as Ha.
  pose proof (f_equal (λ l, l !! b) H) as Hb.
  cbv beta in Ha, Hb. rewrite !list_lookup_fmap in Ha, Hb.
  destruct (w_assets w !! a), (w_assets w' !! a); simplify_eq/=; try done.
  destruct (w_assets w !! b), (w_assets w' !! b); simplify_eq/=; try done.
  congruence.
Qed.

Lemma fmap_key_alter (f g : Asset → Asset) (a : nat) (l : list Asset) :
  (∀ x, Asset_key (f x) = Asset_key (g x)) →
  Asset_key <$> alter f a l = Asset_key <$> alter g a l.
Proof.
  intros Hf. apply list_eq. intros i. rewrite !list_lookup_fmap.
  destruct (decide (i = a)) as [->|Hne].
  - rewrite !list_lookup_alter_eq. destruct (l !! a); simpl; [|done].
    by rewrite Hf.
  - by rewrite !list_lookup_alter_ne.
Qed.

Lemma Asset_load_unfold (w : World) (a : nat) (self : Asset)
    (callback : Callback) (prio : option Z) :
  w_assets w !! a = Some self →
  let w2 := with_assets (alter (registered callback prio) a) w in
  Asset_load a callback prio w
  = if loaded self then Asset__call_callbacks a w2
    else Ok (_load_asset a (upd_asset a (set_loading true) w2)).
Proof.
  intros Ha w2. unfold Asset_load, get_asset. rewrite Ha. cbn [mbind Res_bind].
  assert (Hw2 : upd_asset a
            (λ self0, set_callbacks
               (set_add (λ x y, bool_decide (x = y)) callback (_callbacks self0))
               self0)
            (match prio with
             | Some p => upd_asset a (set_priority p) w
             | None => w
             end) = w2).
  { unfold w2, upd_asset, with_assets. destruct prio as [p|]; simpl; f_equal.
    rewrite list_alter_alter_eq. by apply list_alter_ext. }
  rewrite Hw2.
  assert (Hl : w_assets w2 !! a = Some (registered callback prio self))
    by (unfold w2; simpl; by rewrite list_lookup_alter_eq, Ha).
  rewrite Hl. cbn [mbind Res_bind].
  assert (loaded (registered callback prio self) = loaded self) as ->
    by (by destruct prio).
  destruct (loaded self); [done|].
  by destruct (unloading _).
Qed.

Lemma load_of_loaded_once (w : World) (a : nat) (self : Asset)
    (callback : Callback) (prio : option Z) :
  w_assets w !! a = Some self →
  loaded self = true →
  (∀ g, GroupMemberLoaded g ∈ callback :: _callbacks self →
        (g < length (w_groups w))%nat) →
  ∃ w', Asset_load a callback prio w = Ok w'
    ∧ w_manager w' = w_manager w
    ∧ length (w_groups w') = length (w_groups w)
    ∧ (∀ k, App (Callable k) ∈ callback :: _callbacks self →
            CalledWithAsset k a ∈ w_events w')
    ∧ w_assets w'
      = alter (λ s, set_callbacks []
                      (match prio with Some p => set_priority p s | None => s end))
          a (w_assets w).
Proof.
  intros Ha Hl Hg. rewrite (Asset_load_unfold w a self) by done. rewrite Hl.
  set (w2 := with_assets _ w).
  assert (Hcb : ∀ c, c ∈ _callbacks (registered callback prio self)
                     ↔ c ∈ callback :: _callbacks self).
  { intros c. unfold registered. simpl. rewrite set_add_elem_of, elem_of_cons.
    by destruct prio. }
  destruct (Asset__call_callbacks_spec a (registered callback prio self) w2)
    as (w' & Hw' & Hm & Has & Hgs & _ & Hev).
  { unfold w2; simpl. by rewrite list_lookup_alter_eq, Ha. }
  { intros g Hin. apply Hg. by apply Hcb. }
  exists w'. split; [done|]. split; [done|]. split; [done|]. split.
  - intros k Hk. apply Hev. by apply Hcb.
  - rewrite Has. unfold w2; simpl. rewrite list_alter_alter_eq.
    apply list_alter_ext; [|done]. intros s _. unfold registered.
    by destruct prio.
Qed.

(** C4.  [load] on a loaded asset returns, leaves the manager (both
    queues, every counter) as it was, has called every callable that was
    registered or is passed with this call, and leaves the asset with an
    empty callback set; a second call does the same again. *)
Theorem load_of_loaded_asset (w : World) (a : nat) (self : Asset)
    (callback : Callback) (prio : option Z) :
  w_assets w !! a = Some self →
  loaded self = true →
  (∀ g, GroupMemberLoaded g ∈ callback :: _callbacks self →
        (g < length (w_groups w))%nat) →
  ∃ w', Asset_load a callback prio w = Ok w'
    ∧ w_manager w' = w_manager w
    ∧ (∀ k, App (Callable k) ∈ callback :: _callbacks self →
            CalledWithAsset k a ∈ w_events w')
    ∧ w_assets w'
      = alter (λ s, set_callbacks []
                      (match prio with Some p => set_priority p s | None => s end))
          a (w_assets w)
    ∧ ∃ w'', Asset_load a callback prio w' = Ok w''
             ∧ w_manager w'' = w_manager w
             ∧ w_assets w'' = w_assets w'.
Proof.
  intros Ha Hl Hg.
  destruct (load_of_loaded_once w a self callback prio Ha Hl Hg)
    as (w' & Hw' & Hm & Hgs & Hev & Has).
  exists w'. split; [done|]. split; [done|]. split; [done|]. split; [done|].
  set (self' := set_callbacks []
                  (match prio with Some p => set_priority p self | None => self end)).
  assert (Ha' : w_assets w' !! a = Some self')
    by (by rewrite Has, list_lookup_alter_eq, Ha).
  destruct (load_of_loaded_once w' a self' callback prio Ha')
    as (w'' & Hw'' & Hm' & _ & _ & Has').
  { unfold self'. by destruct prio. }
  { intros g [Heq|Hin]%elem_of_cons.
    - rewrite Hgs. apply Hg. rewrite Heq. left.
    - unfold self' in Hin. simpl in Hin. by apply elem_of_nil in Hin. }
  exists w''. split; [done|]. split; [congruence|].
  rewrite Has', Has, list_alter_alter_eq.
  apply list_alter_ext; [|done]. intros s _. by destruct prio.
Qed.

Lemma load_of_loaded_asset_witness :
  ∃ w', Asset_load 0 (App (Callable 5)) None
          (mkWorld [mkAsset 0 1 [App (Callable 3)] false true false] []
             (mkAssetManager 2 1 0 0 0 [4%nat] [] true) 1 false [] Waiting) = Ok w'
        ∧ w_manager w' = mkAssetManager 2 1 0 0 0 [4%nat] [] true
        ∧ CalledWithAsset 5 0 ∈ w_events w'
        ∧ CalledWithAsset 3 0 ∈ w_events w'.
Proof.
  destruct (load_of_loaded_asset
              (mkWorld [mkAsset 0 1 [App (Callable 3)] false true false] []
                 (mkAssetManager 2 1 0 0 0 [4%nat] [] true) 1 false [] Waiting)
              0 (mkAsset 0 1 [App (Callable 3)] false true false)
              (App (Callable 5)) None eq_refl eq_refl)
    as (w' & Hw' & Hm & Hev & _).
  - intros g Hin.
    repeat (apply elem_of_cons in Hin as [Hin|Hin]; [discriminate Hin|]).
    by apply elem_of_nil in Hin.
  - exists w'. split; [exact Hw'|]. split; [exact Hm|].
    split; apply Hev; [left|right; left].
Defined.

(** C10.  [load] on an asset that is not loaded and whose [unloading]
    flag is set: the call returns, the callback is in the asset's
    callback set, [loading] is set, [unloading] is still set, the pending
    counter is one higher and the asset has been put on the loader
    queue, which holds it once more than before; and the same call on
    the world in which only that flag is cleared gives the same world
    with only that flag cleared. *)
Theorem load_ignores_unloading (w : World) (a : nat) (self : Asset)
    (callback : Callback) (prio : option Z) :
  w_assets w !! a = Some self →
  unloading self = true →
  loaded self = false →
  ∃ w' self',
    Asset_load a callback prio w = Ok w'
    ∧ Asset_load a callback prio (upd_asset a (set_unloading false) w)
      = Ok (upd_asset a (set_unloading false) w')
    ∧ w_assets w' !! a = Some self'
    ∧ callback ∈ _callbacks self'
    ∧ loading self' = true
    ∧ unloading self' = true
    ∧ num_assets_to_load (w_manager w') = num_assets_to_load (w_manager w) + 1
    ∧ loader_queue (w_manager w')
      = PriorityQueue_put (ref_lt w') a (loader_queue (w_manager w))
    ∧ loader_queue (w_manager w') ≡ₚ loader_queue (w_manager w) ++ [a].
Proof.
  intros Ha Hu Hl.
  exists (_load_asset a
            (upd_asset a (set_loading true)
               (with_assets (alter (registered callback prio) a) w))),
    (set_loading true (registered callback prio self)).
  split; [|split; [|split; [|split; [|split; [|split; [|split; [|split]]]]]]].
  - rewrite (Asset_load_unfold w a self) by done. by rewrite Hl.
  - rewrite (Asset_load_unfold _ a (set_unloading false self))
      by (simpl; by rewrite list_lookup_alter_eq, Ha).
    simpl. rewrite Hl. f_equal.
    unfold _load_asset, upd_asset, with_manager, with_assets. simpl.
    f_equal.
    + rewrite !list_alter_alter_eq. apply list_alter_ext; [|done].
      intros s _. by destruct prio.
    + f_equal. apply PriorityQueue_put_ext, ref_lt_ext. simpl.
      rewrite !list_alter_alter_eq.
      apply fmap_key_alter. intros x. simpl. by destruct prio.
  - simpl. by rewrite !list_lookup_alter_eq, Ha.
  - simpl. apply set_add_elem_of. by left.
  - done.
  - simpl. by destruct prio.
  - done.
  - done.
  - simpl. apply PriorityQueue_put_Permutation.
Qed.

Lemma load_ignores_unloading_witness :
  ∃ w' self',
    Asset_load 0 (App (Callable 2)) None
      (mkWorld [mkAsset 0 1 [] false false true] [] AssetManager_init 1 false [] Waiting)
    = Ok w'
    ∧ Asset_load 0 (App (Callable 2)) None
        (upd_asset 0 (set_unloading false)
           (mkWorld [mkAsset 0 1 [] false false true] [] AssetManager_init 1 false [] Waiting))
      = Ok (upd_asset 0 (set_unloading false) w')
    ∧ w_assets w' !! 0%nat = Some self'
    ∧ App (Callable 2) ∈ _callbacks self'
    ∧ loading self' = true
    ∧ unloading self' = true
    ∧ num_assets_to_load (w_manager w') = 0 + 1
    ∧ loader_queue (w_manager w') = PriorityQueue_put (ref_lt w') 0%nat []
    ∧ loader_queue (w_manager w') ≡ₚ [] ++ [0%nat].
Proof.
  exact (load_ignores_unloading
           (mkWorld [mkAsset 0 1 [] false false true] [] AssetManager_init 1 false [] Waiting)
           0 (mkAsset 0 1 [] false false true) (App (Callable 2)) None
           eq_refl eq_refl eq_refl).
Defined.

(** ** 5.14 What [load] leaves alone *)

Lemma fire_asset_callbacks_frame (a : nat) (l : list Callback) :
  ∀ w w', foldM (λ w' cb,
                   match cb with
                   | App PyNone => Ok w'
                   | App (Callable k) => Ok (emit (CalledWithAsset k a) w')
                   | GroupMemberLoaded g =>
                       AssetGroup__group_member_loaded g (ObjAsset a) w'
                   end) w l = Ok w' →
          groups_frame w w'.
Proof.
  induction l as [|cb l IH]; intros w w' H.
  - injection H as <-. apply groups_frame_refl.
  - cbn [foldM] in H. apply bind_Ok in H as (w1 & H1 & H).
    eapply groups_frame_trans; [|by apply IH].
    destruct cb as [[|k]|g].
    + injection H1 as <-. apply groups_frame_refl.
    + injection H1 as <-. apply groups_frame_emit.
    + by eapply AssetGroup__group_member_loaded_frame.
Qed.

Lemma Asset__call_callbacks_frame (a : nat) (w w' : World) :
  Asset__call_callbacks a w = Ok w' →
  w_manager w' = w_manager w
  ∧ w_assets w' = alter (set_callbacks []) a (w_assets w)
  ∧ length (w_groups w') = length (w_groups w).
Proof.
  unfold Asset__call_callbacks. intros H.
  apply bind_Ok in H as (self & _ & H). apply bind_Ok in H as (w1 & H1 & H).
  injection H as <-.
  apply fire_asset_callbacks_frame in H1 as (Hm & Ha & Hg & _).
  simpl. by rewrite Ha.
Qed.

(** Firing an asset's callbacks leaves the loader thread, the class
    counter and the boot flag alone. *)
Lemma Asset__call_callbacks_rest (a : nat) (w w' : World) :
  Asset__call_callbacks a w = Ok w' →
  w_loader w' = w_loader w
  ∧ w_next_id w' = w_next_id w
  ∧ w_init_done w' = w_init_done w.
Proof.
  unfold Asset__call_callbacks. intros H.
  apply bind_Ok in H as (self & _ & H). apply bind_Ok in H as (w1 & H1 & H).
  injection H as <-.
  apply fire_asset_callbacks_frame in H1 as (_ & _ & _ & Hn & Hi & _ & Hl).
  done.
Qed.

Lemma Asset_load_manager (a : nat) (cb : Callback) (p : option Z) (w w' : World) :
  Asset_load a cb p w = Ok w' →
  length (w_groups w') = length (w_groups w)
  ∧ length (w_assets w') = length (w_assets w)
  ∧ w_loader w' = w_loader w
  ∧ (w_manager w' = w_manager w
     ∨ ∃ lt, w_manager w' = enqueued lt a (w_manager w)).
Proof.
  intros H.
  assert (∃ self, w_assets w !! a = Some self) as [self Ha].
  { unfold Asset_load in H. apply bind_Ok in H as (self & Hs%get_asset_Ok & _).
    by exists self. }
  rewrite (Asset_load_unfold w a self) in H by done.
  destruct (loaded self).
  - pose proof (Asset__call_callbacks_rest _ _ _ H) as (Hl & _).
    apply Asset__call_callbacks_frame in H as (Hm & Has & Hg).
    split; [done|]. split; [|split; [done|by left]].
    rewrite Has. simpl. by rewrite !length_alter.
  - injection H as <-. simpl. split; [done|].
    split; [by rewrite !length_alter|]. split; [done|].
    right. by eexists.
Qed.

(** ** 5.15 The progress counters *)

Lemma length_PriorityQueue_put {A} (lt : A → A → bool) (x : A) (q : list A) :
  length (PriorityQueue_put lt x q) = S (length q).
Proof.
  rewrite (PriorityQueue_put_Permutation lt x q), length_app. simpl. lia.
Qed.

Lemma counters_inv_same (w w' : World) :
  w_manager w' = w_manager w → w_loader w' = w_loader w →
  length (w_assets w') = length (w_assets w) →
  counters_inv w → counters_inv w'.
Proof.
  unfold counters_inv, under_way. intros -> -> _. done.
Qed.

Lemma counters_inv_enqueued (lt : nat → nat → bool) (a : nat) (w w' : World) :
  w_manager w' = enqueued lt a (w_manager w) → w_loader w' = w_loader w →
  length (w_assets w') = length (w_assets w) →
  counters_inv w → counters_inv w'.
Proof.
  unfold counters_inv, under_way. intros -> -> _. simpl.
  rewrite length_PriorityQueue_put. intros (H0 & Hle & Heq).
  split; [done|]. split; [lia|]. intros Hne. specialize (Heq Hne). lia.
Qed.

Lemma watcher_inv_enqueued (lt : nat → nat → bool) (a : nat) (m : AssetManager) :
  watcher_inv (enqueued lt a m).
Proof. intros H. discriminate H. Qed.

(** A property of the manager and the loader thread that [load] keeps
    when it enqueues and when it does not. *)
Lemma Asset_load_keeps (P : World → Prop) (a : nat) (cb : Callback)
    (p : option Z) (w w' : World) :
  (∀ w1 w2, w_manager w2 = w_manager w1 → w_loader w2 = w_loader w1 →
            length (w_assets w2) = length (w_assets w1) → P w1 → P w2) →
  (∀ lt b w1 w2, w_manager w2 = enqueued lt b (w_manager w1) →
                 w_loader w2 = w_loader w1 →
                 length (w_assets w2) = length (w_assets w1) → P w1 → P w2) →
  Asset_load a cb p w = Ok w' → P w → P w'.
Proof.
  intros Hsame Henq H HP.
  apply Asset_load_manager in H as (_ & Hla & Hl & [Hm | [lt Hm]]).
  - by eapply Hsame.
  - by eapply Henq.
Qed.

Lemma AssetGroup_load_keeps (P : World → Prop) (g : nat) (c : AppCallback)
    (p : option Z) (w w' : World) :
  (∀ w1 w2, w_manager w2 = w_manager w1 → w_loader w2 = w_loader w1 →
            length (w_assets w2) = length (w_assets w1) → P w1 → P w2) →
  (∀ lt b w1 w2, w_manager w2 = enqueued lt b (w_manager w1) →
                 w_loader w2 = w_loader w1 →
                 length (w_assets w2) = length (w_assets w1) → P w1 → P w2) →
  AssetGroup_load g c p w = Ok w' → P w → P w'.
Proof.
  intros Hsame Henq. unfold AssetGroup_load. intros H HP.
  apply bind_Ok in H as (grp & _ & H). apply bind_Ok in H as (w3 & Hfold & H).
  apply bind_Ok in H as (grp' & _ & H).
  assert (HP3 : P w3).
  { revert Hfold. generalize (assets grp).
    match goal with |- ∀ l, foldM _ ?w0 l = _ → _ =>
      assert (HP0 : P w0) by (destruct p; by eapply Hsame; [| | |exact HP]);
      generalize dependent w0 end.
    intros w0 Hw0 l. revert w0 Hw0.
    induction l as [|x l IH]; intros w0 Hw0 Hf.
    - injection Hf as <-; done.
    - cbn [foldM] in Hf. apply bind_Ok in Hf as (w1 & H1 & Hf).
      apply (IH w1); [|done].
      apply bind_Ok in H1 as (ast & _ & H1).
      destruct (negb (loaded ast)).
      + eapply Asset_load_keeps; [exact Hsame|exact Henq|exact H1|].
        by eapply Hsame; [| | |exact Hw0].
      + injection H1 as <-; done. }
  destruct (loading_members grp').
  - apply AssetGroup__call_callbacks_frame in H as (Hm & Ha & _ & _ & _ & _ & Hl).
    eapply Hsame; [done|done|by rewrite Ha|done].
  - injection H as <-; done.
Qed.

Lemma counters_inv_Asset_load (a : nat) (cb : Callback) (p : option Z)
    (w w' : World) :
  Asset_load a cb p w = Ok w' → counters_inv w → counters_inv w'.
Proof.
  apply Asset_load_keeps; [apply counters_inv_same|apply counters_inv_enqueued].
Qed.

Lemma counters_inv_AssetGroup_load (g : nat) (c : AppCallback) (p : option Z)
    (w w' : World) :
  AssetGroup_load g c p w = Ok w' → counters_inv w → counters_inv w'.
Proof.
  apply AssetGroup_load_keeps;
    [apply counters_inv_same|apply counters_inv_enqueued].
Qed.

Lemma counters_inv_loader_get (w : World) :
  counters_inv w → counters_inv (AssetLoader_get w).
Proof.
  unfold AssetLoader_get. destruct (w_loader w) eqn:Hl; try done.
  destruct (PriorityQueue_get _ _) as [[x rest]|] eqn:E; [|done].
  apply PriorityQueue_get_length in E as [_ Hlen].
  unfold counters_inv, under_way. rewrite Hl. simpl. rewrite Hlen.
  intros (H0 & Hle & Heq). split; [done|]. split; [lia|].
  intros _. specialize (Heq ltac:(done)). lia.
Qed.

Lemma counters_inv_loader_test (w : World) :
  counters_inv w → counters_inv (AssetLoader_test w).
Proof.
  unfold AssetLoader_test. destruct (w_loader w) eqn:Hl; try done.
  destruct (w_assets w !! asset) as [self|]; [|done].
  unfold counters_inv, under_way. rewrite Hl. simpl.
  intros (H0 & Hle & Heq). split; [done|]. split; [by destruct (loaded self)|].
  intros _. specialize (Heq ltac:(done)). by destruct (loaded self).
Qed.

Lemma counters_inv_loader_do_load (hook : Hook) (w : World) :
  counters_inv w → counters_inv (AssetLoader_do_load hook w).
Proof.
  unfold AssetLoader_do_load. destruct (w_loader w) eqn:Hl; try done.
  unfold counters_inv, under_way. rewrite Hl.
  destruct hook as [e|]; simpl; intros (H0 & Hle & Heq).
  - split; [done|]. split; [lia|]. done.
  - split; [done|]. split; [lia|]. intros _. by apply Heq.
Qed.

Lemma counters_inv_loader_put (w : World) :
  counters_inv w → counters_inv (AssetLoader_put w).
Proof.
  unfold AssetLoader_put. destruct (w_loader w) eqn:Hl; try done.
  unfold counters_inv, under_way. rewrite Hl. simpl. rewrite length_app. simpl.
  intros (H0 & Hle & Heq). split; [done|]. split; [lia|].
  intros _. specialize (Heq ltac:(done)). lia.
Qed.

(** ** 5.16 The poll *)

Lemma loading_percent_counters (m m' : AssetManager) :
  num_assets_to_load m' = num_assets_to_load m →
  num_assets_loaded m' = num_assets_loaded m →
  num_bcp_assets_to_load m' = num_bcp_assets_to_load m →
  num_bcp_assets_loaded m' = num_bcp_assets_loaded m →
  loading_percent m' = loading_percent m.
Proof. unfold loading_percent. by intros -> -> -> ->. Qed.

Lemma post_loading_event_spec (w : World) :
  match _post_loading_event w with
  | Done w' => percent_returns (w_manager w)
               ∧ groups_frame w w' ∧ w_groups w' = w_groups w
  | Aborted e w' => loading_percent (w_manager w) = Raise e ∧ w' = w
  end.
Proof.
  unfold _post_loading_event, percent_returns.
  destruct (loading_percent _) as [p|e]; [|done].
  split; [by exists p|].
  destruct (_ && _); (split; [|done]).
  - eapply groups_frame_trans; apply groups_frame_emit.
  - apply groups_frame_emit.
Qed.

Lemma Asset__loaded_spec (a : nat) (self : Asset) (w : World) :
  w_assets w !! a = Some self →
  callbacks_valid (length (w_groups w)) self →
  ∃ w', Asset__loaded a w = Ok w'
    ∧ w_manager w' = w_manager w
    ∧ w_assets w' = alter as_loaded a (w_assets w)
    ∧ length (w_groups w') = length (w_groups w)
    ∧ w_loader w' = w_loader w
    ∧ w_next_id w' = w_next_id w
    ∧ w_init_done w' = w_init_done w
    ∧ (∃ es, w_events w' = w_events w ++ es)
    ∧ ∀ k, App (Callable k) ∈ _callbacks self →
           CalledWithAsset k a ∈ w_events w'.
Proof.
  intros Ha Hc. unfold Asset__loaded, get_asset. rewrite Ha.
  cbn [mbind Res_bind].
  destruct (Asset__call_callbacks_spec a
              (set_unloading false (set_loaded true (set_loading false self)))
              (upd_asset a (λ self,
                 set_unloading false (set_loaded true (set_loading false self))) w))
    as (w' & Hw' & Hm & Has & Hg & Hes & Hev).
  - simpl. by rewrite list_lookup_alter_eq, Ha.
  - simpl. exact Hc.
  - pose proof (Asset__call_callbacks_rest _ _ _ Hw') as (Hl & Hn & Hi).
    exists w'. split; [done|]. split; [done|]. split.
    { rewrite Has. simpl. by rewrite list_alter_alter_eq. }
    split; [by rewrite Hg|].
    repeat split; done.
Qed.

(** One pass of the drain loop: the entry is marked loaded, its
    callbacks are called and it is counted; the pass returns when
    [loading_percent] returns at the new count and is left by its
    exception otherwise. *)
Lemma drain_entry_spec (a : nat) (q' : list nat) (self : Asset) (w : World) :
  w_assets w !! a = Some self →
  Forall (callbacks_valid (length (w_groups w))) (w_assets w) →
  ∃ w' : World,
    (drain_entry a q' w = Done w'
     ∧ percent_returns (add_loaded 1 (w_manager w))
     ∨ ∃ e, drain_entry a q' w = Aborted e w'
            ∧ loading_percent (add_loaded 1 (w_manager w)) = Raise e)
    ∧ w_manager w' = set_loaded_queue q' (add_loaded 1 (w_manager w))
    ∧ w_assets w' = alter as_loaded a (w_assets w)
    ∧ length (w_groups w') = length (w_groups w)
    ∧ w_loader w' = w_loader w
    ∧ w_next_id w' = w_next_id w
    ∧ w_init_done w' = w_init_done w
    ∧ (∃ es, w_events w' = w_events w ++ es)
    ∧ Forall (callbacks_valid (length (w_groups w'))) (w_assets w')
    ∧ ∀ c, App (Callable c) ∈ _callbacks self →
           CalledWithAsset c a ∈ w_events w'.
Proof.
  intros Hself Hc. unfold drain_entry.
  destruct (Asset__loaded_spec a self (with_manager (set_loaded_queue q') w))
    as (w2 & Hw2 & Hm2 & Ha2 & Hg2 & Hl2 & Hn2 & Hi2 & [es2 He2] & Hev2).
  { done. }
  { by apply (Forall_lookup_1 _ _ _ _ Hc Hself). }
  rewrite Hw2. simpl in Hm2, Ha2, Hg2, Hl2, Hn2, Hi2, He2.
  set (w3 := with_manager incr_num_assets_loaded w2).
  assert (Hm3 : w_manager w3
                = set_loaded_queue q' (add_loaded 1 (w_manager w))).
  { unfold w3. simpl. rewrite Hm2. done. }
  assert (Hc3 : Forall (callbacks_valid (length (w_groups w3))) (w_assets w3)).
  { unfold w3. simpl. rewrite Ha2, Hg2. apply Forall_alter; [done|].
    intros x _ _ g Hin. simpl in Hin. by apply elem_of_nil in Hin. }
  assert (Hp3 : loading_percent (w_manager w3)
                = loading_percent (add_loaded 1 (w_manager w)))
    by (apply loading_percent_counters; by rewrite Hm3).
  pose proof (post_loading_event_spec w3) as Hpost.
  destruct (_post_loading_event w3) as [w4|e w4].
  - destruct Hpost as (Hp & (Hm4 & Ha4 & Hg4 & Hn4 & Hi4 & [es4 He4] & Hl4) & _).
    simpl in Ha4, Hg4, Hn4, Hi4, He4, Hl4.
    exists w4. split.
    { left. split; [done|]. unfold percent_returns in *. by rewrite <- Hp3. }
    split; [by rewrite Hm4|]. split; [by rewrite Ha4|].
    split; [by rewrite Hg4|]. split; [by rewrite Hl4|].
    split; [by rewrite Hn4|]. split; [by rewrite Hi4|].
    split; [exists (es2 ++ es4); by rewrite He4, He2, <- app_assoc|].
    split; [by rewrite Ha4, Hg4|].
    intros c Hcb. rewrite He4. apply elem_of_app. left. by apply Hev2.
  - destruct Hpost as [Hr ->].
    exists w3. split; [right; exists e; split; [done|by rewrite <- Hp3]|].
    split; [done|]. split; [done|]. split; [done|]. split; [done|].
    split; [done|]. split; [done|]. split; [by exists es2|].
    split; [done|]. done.
Qed.

(** The drain loop.  It handles the first [k] entries of the queue: each
    is marked loaded, its callbacks are called and it is counted; it
    returns when [k] is the whole queue, and is left by the exception of
    [loading_percent] at the first count at which it raises. *)
Lemma drain_loaded_queue_spec (q : list nat) :
  ∀ w, loaded_queue (w_manager w) = q →
    Forall (λ a, (a < length (w_assets w))%nat) q →
    Forall (callbacks_valid (length (w_groups w))) (w_assets w) →
    ∃ (k : nat) (w' : World),
      (k ≤ length q)%nat
      ∧ (drain_loaded_queue q w = Done w' ∧ k = length q
         ∨ ∃ e, drain_loaded_queue q w = Aborted e w' ∧ (0 < k)%nat
                ∧ loading_percent (add_loaded (Z.of_nat k) (w_manager w))
                  = Raise e)
      ∧ (∀ j : nat, (0 < j)%nat →
           (j < k)%nat ∨ (j = k ∧ ∃ w'', drain_loaded_queue q w = Done w'') →
           percent_returns (add_loaded (Z.of_nat j) (w_manager w)))
      ∧ w_manager w'
        = set_loaded_queue (drop k q) (add_loaded (Z.of_nat k) (w_manager w))
      ∧ w_assets w' = fold_left (λ l a, alter as_loaded a l) (take k q) (w_assets w)
      ∧ length (w_groups w') = length (w_groups w)
      ∧ w_loader w' = w_loader w
      ∧ w_next_id w' = w_next_id w
      ∧ w_init_done w' = w_init_done w
      ∧ (∃ es, w_events w' = w_events w ++ es)
      ∧ Forall (callbacks_valid (length (w_groups w'))) (w_assets w')
      ∧ ∀ a self c, a ∈ take k q → w_assets w !! a = Some self →
          App (Callable c) ∈ _callbacks self →
          CalledWithAsset c a ∈ w_events w'.
Proof.
  induction q as [|a q IH]; intros w Hq Hv Hc.
  - exists 0%nat, w. split; [done|]. split; [by left|].
    split; [intros j Hj [?|[-> _]]; lia|].
    split.
    { destruct (w_manager w); simpl in *. subst. unfold set_loaded_queue, add_loaded.
      simpl. f_equal. lia. }
    repeat split; try done.
    + exists []. by rewrite app_nil_r.
    + intros a self c Ha. by apply elem_of_nil in Ha.
  - apply Forall_cons in Hv as [Ha Hv]. cbn [drain_loaded_queue].
    pose proof Ha as [self Hself]%lookup_lt_is_Some.
    destruct (drain_entry_spec a q self w Hself Hc)
      as (w4 & Hout4 & Hm4 & Ha4 & Hg4 & Hl4 & Hn4 & Hi4 & [es4 He4] & Hc4 & Hev4).
    destruct Hout4 as [[Hd4 Hp]|(e & Hd4 & Hr)]; rewrite Hd4.
    + destruct (IH w4) as (k & w' & Hk & Hout & Hperc & Hm' & Ha' & Hg' & Hl'
                           & Hn' & Hi' & [es' He'] & Hc' & Hev').
      { by rewrite Hm4. }
      { rewrite Ha4, length_alter. done. }
      { done. }
      assert (Hadd : ∀ j : nat,
                add_loaded (Z.of_nat j) (w_manager w4)
                = set_loaded_queue q (add_loaded (Z.of_nat (S j)) (w_manager w))).
      { intros j. rewrite Hm4. unfold add_loaded, set_loaded_queue. simpl.
        f_equal. lia. }
      exists (S k), w'. split; [simpl; lia|]. split.
      { destruct Hout as [[Hd ->]|(e & Hd & Hk0 & Hr)].
        - by left.
        - right. exists e. split; [done|]. split; [lia|].
          rewrite <- Hr, Hadd. by apply loading_percent_counters. }
      split.
      { intros j Hj Hjk. destruct j as [|j]; [lia|].
        destruct j as [|j]; [exact Hp|].
        unfold percent_returns.
        erewrite (loading_percent_counters
                    (add_loaded (Z.of_nat (S j)) (w_manager w4)));
          [|by rewrite Hadd..].
        apply Hperc; [lia|].
        destruct Hjk as [?|[Hjk Hd]]; [left; lia|right].
        split; [lia|done]. }
      split.
      { rewrite Hm', Hadd. unfold set_loaded_queue, add_loaded. simpl. done. }
      split; [by rewrite Ha', Ha4|].
      split; [by rewrite Hg', Hg4|].
      split; [by rewrite Hl', Hl4|].
      split; [by rewrite Hn', Hn4|].
      split; [by rewrite Hi', Hi4|].
      split; [exists (es4 ++ es'); by rewrite He', He4, <- !app_assoc|].
      split; [done|].
      intros b selfb c Hin Hb Hcb. cbn [take] in Hin.
      destruct (decide (b = a)) as [->|Hne].
      * rewrite Hself in Hb. injection Hb as ->.
        rewrite He'. apply elem_of_app. left. by apply Hev4.
      * apply elem_of_cons in Hin as [?|Hin]; [done|].
        eapply (Hev' b selfb c Hin); [|done].
        by rewrite Ha4, list_lookup_alter_ne.
    + exists 1%nat, w4. split; [simpl; lia|]. split.
      { right. exists e. split; [done|]. split; [lia|done]. }
      split; [intros j Hj [?|[-> [w'' Hd]]]; [lia|done]|].
      split; [done|].
      split; [done|]. split; [done|]. split; [done|]. split; [done|].
      split; [done|]. split; [by exists es4|]. split; [done|].
      intros b selfb c Hin Hb Hcb. cbn [take] in Hin.
      apply elem_of_cons in Hin as [->|Hin]; [|by apply elem_of_nil in Hin].
      rewrite Hself in Hb. injection Hb as ->. by apply Hev4.
Qed.

Lemma length_fold_alter {B} (f : B → B) (q : list nat) :
  ∀ l : list B, length (fold_left (λ l a, alter f a l) q l) = length l.
Proof.
  induction q as [|a q IH]; intros l; [done|].
  cbn [fold_left]. by rewrite IH, length_alter.
Qed.

(** The poll, on a world whose references are valid: what the drain loop
    does, and then the reset when the counters have met. *)
Lemma check_loader_status_spec (w : World) :
  refs_valid w →
  let m := w_manager w in
  let q := loaded_queue m in
  ∃ (k : nat) (w1 : World),
    (k ≤ length q)%nat
    ∧ (k = length q
       ∧ _check_loader_status w
         = Done (if num_assets_to_load m =? num_assets_loaded m + Z.of_nat k
                 then with_manager reset_counters w1 else w1)
       ∨ ∃ e, _check_loader_status w = Aborted e w1 ∧ (0 < k)%nat
              ∧ loading_percent (add_loaded (Z.of_nat k) m) = Raise e)
    ∧ (∀ j : nat, (0 < j)%nat →
         (j < k)%nat ∨ (j = k ∧ ∃ w'', _check_loader_status w = Done w'') →
         percent_returns (add_loaded (Z.of_nat j) m))
    ∧ w_manager w1 = set_loaded_queue (drop k q) (add_loaded (Z.of_nat k) m)
    ∧ w_assets w1 = fold_left (λ l a, alter as_loaded a l) (take k q) (w_assets w)
    ∧ length (w_groups w1) = length (w_groups w)
    ∧ w_loader w1 = w_loader w
    ∧ w_next_id w1 = w_next_id w
    ∧ w_init_done w1 = w_init_done w
    ∧ (∃ es, w_events w1 = w_events w ++ es)
    ∧ Forall (callbacks_valid (length (w_groups w1))) (w_assets w1)
    ∧ ∀ a self c, a ∈ take k q → w_assets w !! a = Some self →
        App (Callable c) ∈ _callbacks self →
        CalledWithAsset c a ∈ w_events w1.
Proof.
  intros (Hq1 & Hq2 & Hc) m q.
  destruct (drain_loaded_queue_spec q w eq_refl Hq2 Hc)
    as (k & w1 & Hk & Hout & Hperc & Hm1 & Hrest).
  exists k, w1. split; [done|].
  unfold _check_loader_status. fold m q. split; [|split; [|split; [done|done]]].
  - destruct Hout as [[-> ->]|(e & -> & Hk0 & Hr)].
    + left. split; [done|]. unfold reset_if_done. rewrite Hm1. simpl.
      by destruct (_ =? _).
    + right. by exists e.
  - intros j Hj Hjk. apply Hperc; [done|].
    destruct Hjk as [?|[-> [w'' Hd]]]; [by left|right]. split; [done|].
    destruct (drain_loaded_queue q w) as [w2|e w2]; [by exists w2|done].
Qed.

Lemma counters_inv_poll (w : World) :
  refs_valid w → counters_inv w → counters_inv (final (_check_loader_status w)).
Proof.
  intros Hv (H0 & Hle & Heq).
  destruct (check_loader_status_spec w Hv)
    as (k & w1 & Hk & Hout & _ & Hm1 & _ & _ & Hl1 & _).
  assert (Hlen : length (drop k (loaded_queue (w_manager w)))
                 = (length (loaded_queue (w_manager w)) - k)%nat)
    by apply length_drop.
  assert (Hinv1 : counters_inv w1).
  { unfold counters_inv, under_way in *. rewrite Hm1, Hl1. simpl.
    rewrite Hlen. split; [lia|]. split; [lia|].
    intros Hne. specialize (Heq Hne). lia. }
  destruct Hout as [[-> ->]|(e & -> & _)]; [|done].
  simpl. destruct (Z.eqb_spec (num_assets_to_load (w_manager w))
                     (num_assets_loaded (w_manager w)
                      + Z.of_nat (length (loaded_queue (w_manager w)))))
    as [He|He]; [|done].
  unfold counters_inv, under_way in *. simpl. rewrite Hm1, Hl1. simpl.
  rewrite Hlen. split; [lia|]. split; [lia|]. intros _. lia.
Qed.

Lemma watcher_inv_poll (w : World) :
  refs_valid w → counters_inv w → watcher_inv (w_manager w) →
  watcher_inv (w_manager (final (_check_loader_status w))).
Proof.
  intros Hv (H0 & Hle & _) Hw.
  destruct (check_loader_status_spec w Hv)
    as (k & w1 & Hk & Hout & _ & Hm1 & _).
  assert (Hw1 : _loaded_watcher (w_manager w1) = false →
                num_assets_loaded (w_manager w) = 0
                ∧ num_assets_to_load (w_manager w) = 0
                ∧ k = 0%nat).
  { rewrite Hm1. simpl. intros Hf. destruct (Hw Hf) as [Hl Ht].
    unfold under_way in Hle. lia. }
  destruct Hout as [[-> ->]|(e & -> & Hk0 & _)]; simpl.
  - destruct (Z.eqb_spec (num_assets_to_load (w_manager w))
                (num_assets_loaded (w_manager w)
                 + Z.of_nat (length (loaded_queue (w_manager w)))))
      as [He|He]; [done|].
    intros Hf. destruct (Hw1 Hf) as (Hl & Ht & Hk0).
    rewrite Hm1. simpl. lia.
  - intros Hf. destruct (Hw1 Hf) as (Hl & Ht & ?). lia.
Qed.

Lemma final_drain_entry (a : nat) (q' : list nat) (w : World) :
  loaded_queue (w_manager w) = a :: q' →
  refs_valid w →
  let w' := final (drain_entry a q' w) in
  w_manager w' = set_loaded_queue q' (add_loaded 1 (w_manager w))
  ∧ w_assets w' = alter as_loaded a (w_assets w)
  ∧ length (w_groups w') = length (w_groups w)
  ∧ w_loader w' = w_loader w
  ∧ Forall (callbacks_valid (length (w_groups w'))) (w_assets w').
Proof.
  intros Hq (_ & Hq2 & Hc). cbv zeta.
  rewrite Hq in Hq2. apply Forall_cons in Hq2 as [Ha _].
  pose proof Ha as [self Hself]%lookup_lt_is_Some.
  destruct (drain_entry_spec a q' self w Hself Hc)
    as (w' & Hout & Hm & Has & Hg & Hl & _ & _ & _ & Hc' & _).
  by destruct Hout as [[-> _]|(e & -> & _)].
Qed.

Lemma counters_inv_poll_entry (a : nat) (q' : list nat) (w : World) :
  loaded_queue (w_manager w) = a :: q' →
  refs_valid w → counters_inv w → counters_inv (final (drain_entry a q' w)).
Proof.
  intros Hq Hv (H0 & Hle & Heq).
  destruct (final_drain_entry a q' w Hq Hv) as (Hm & _ & _ & Hl & _).
  unfold counters_inv, under_way in *. rewrite Hm, Hl. rewrite Hq in Hle, Heq.
  simpl in *. split; [lia|]. split; [lia|].
  intros Hne. specialize (Heq Hne). lia.
Qed.

Lemma counters_inv_poll_end (w : World) :
  counters_inv w → counters_inv (reset_if_done w).
Proof.
  intros (H0 & Hle & Heq). unfold reset_if_done.
  destruct (Z.eqb_spec (num_assets_to_load (w_manager w))
              (num_assets_loaded (w_manager w))) as [He|He]; [|done].
  unfold counters_inv, under_way in *. simpl. split; [lia|]. split; [lia|].
  intros _. lia.
Qed.

Lemma watcher_inv_poll_entry (a : nat) (q' : list nat) (w : World) :
  loaded_queue (w_manager w) = a :: q' →
  refs_valid w → counters_inv w → watcher_inv (w_manager w) →
  watcher_inv (w_manager (final (drain_entry a q' w))).
Proof.
  intros Hq Hv (H0 & Hle & _) Hw.
  destruct (final_drain_entry a q' w Hq Hv) as (Hm & _).
  rewrite Hm. intros Hf. simpl in Hf. destruct (Hw Hf) as [Hl Ht].
  unfold under_way in Hle. rewrite Hq in Hle. simpl in Hle. lia.
Qed.

Lemma watcher_inv_poll_end (w : World) :
  watcher_inv (w_manager w) → watcher_inv (w_manager (reset_if_done w)).
Proof.
  intros Hw. unfold reset_if_done. by destruct (_ =? _).
Qed.

(** ** 5.17 References stay valid *)

Lemma callbacks_valid_mono (n n' : nat) (self : Asset) :
  (n ≤ n')%nat → callbacks_valid n self → callbacks_valid n' self.
Proof. intros Hn H g Hg. specialize (H g Hg). lia. Qed.

Lemma callbacks_valid_registered (n : nat) (cb : Callback) (p : option Z)
    (self : Asset) :
  (∀ g, cb = GroupMemberLoaded g → (g < n)%nat) →
  callbacks_valid n self → callbacks_valid n (registered cb p self).
Proof.
  intros Hcb H g Hg. unfold registered in Hg. simpl in Hg.
  apply set_add_elem_of in Hg as [Heq|Hg]; [by apply Hcb|].
  apply H. by destruct p.
Qed.

Lemma refs_valid_Asset_load (a : nat) (cb : Callback) (p : option Z)
    (w w' : World) :
  Asset_load a cb p w = Ok w' →
  (∀ g, cb = GroupMemberLoaded g → (g < length (w_groups w))%nat) →
  refs_valid w → refs_valid w'.
Proof.
  intros H Hcb (Hq1 & Hq2 & Hc).
  assert (∃ self, w_assets w !! a = Some self) as [self Ha].
  { unfold Asset_load in H. apply bind_Ok in H as (self & Hs%get_asset_Ok & _).
    by exists self. }
  rewrite (Asset_load_unfold w a self) in H by done.
  destruct (loaded self).
  - apply Asset__call_callbacks_frame in H as (Hm & Has & Hg).
    unfold refs_valid. rewrite Hm, Has, Hg. simpl. rewrite !length_alter.
    split; [done|]. split; [done|].
    rewrite list_alter_alter_eq. apply Forall_alter; [done|].
    intros x _ _ g Hin. simpl in Hin. by apply elem_of_nil in Hin.
  - injection H as <-. unfold refs_valid. simpl. rewrite !length_alter.
    split; [|split; [done|]].
    + rewrite PriorityQueue_put_Permutation. apply Forall_app. split; [done|].
      apply Forall_singleton. by eapply lookup_lt_Some.
    + rewrite list_alter_alter_eq. apply Forall_alter; [done|].
      intros x _ Hx. by apply (callbacks_valid_registered _ cb p x Hcb) in Hx.
Qed.

Lemma groups_frame_refs_valid (w w' : World) :
  groups_frame w w' → refs_valid w → refs_valid w'.
Proof.
  intros (Hm & Ha & Hg & _) H. unfold refs_valid. by rewrite Hm, Ha, Hg.
Qed.

Lemma refs_valid_AssetGroup_load (g : nat) (c : AppCallback) (p : option Z)
    (w w' : World) :
  AssetGroup_load g c p w = Ok w' → refs_valid w → refs_valid w'.
Proof.
  unfold AssetGroup_load. intros H Hv.
  apply bind_Ok in H as (grp & Hgrp%get_group_Ok & H).
  apply bind_Ok in H as (w3 & Hfold & H).
  apply bind_Ok in H as (grp' & _ & H).
  apply lookup_lt_Some in Hgrp.
  assert (Hv3 : refs_valid w3).
  { revert Hfold. generalize (assets grp).
    match goal with |- ∀ l, foldM _ ?w0 l = _ → _ =>
      assert (Hv0 : refs_valid w0 ∧ (g < length (w_groups w0))%nat);
      [|generalize dependent w0] end.
    { split.
      - eapply groups_frame_refs_valid; [apply groups_frame_upd_group|].
        destruct p; [|done].
        eapply groups_frame_refs_valid; [apply groups_frame_upd_group|done].
      - simpl. rewrite length_alter. destruct p; simpl; [|done].
        by rewrite length_alter. }
    intros w0 Hw0 l. revert w0 Hw0.
    induction l as [|x l IH]; intros w0 [Hw0 Hg0] Hf.
    - injection Hf as <-; done.
    - cbn [foldM] in Hf. apply bind_Ok in Hf as (w1 & H1 & Hf).
      apply (IH w1); [|done].
      apply bind_Ok in H1 as (ast & _ & H1).
      destruct (negb (loaded ast)).
      + pose proof (Asset_load_manager _ _ _ _ _ H1) as (Hlen & _).
        simpl in Hlen. rewrite length_alter in Hlen.
        split; [|by rewrite Hlen].
        eapply refs_valid_Asset_load; [exact H1| |].
        * intros g' [= <-]. simpl. by rewrite length_alter.
        * eapply groups_frame_refs_valid; [apply groups_frame_upd_group|done].
      + injection H1 as <-; done. }
  destruct (loading_members grp').
  - eapply groups_frame_refs_valid; [|exact Hv3].
    by eapply AssetGroup__call_callbacks_frame.
  - injection H as <-; done.
Qed.

Lemma hand_valid_same (w w' : World) :
  w_manager w' = w_manager w → w_loader w' = w_loader w →
  length (w_assets w') = length (w_assets w) →
  hand_valid w → hand_valid w'.
Proof. unfold hand_valid. by intros _ -> ->. Qed.

Lemma hand_valid_enqueued (lt : nat → nat → bool) (a : nat) (w w' : World) :
  w_manager w' = enqueued lt a (w_manager w) → w_loader w' = w_loader w →
  length (w_assets w') = length (w_assets w) →
  hand_valid w → hand_valid w'.
Proof. unfold hand_valid. by intros _ -> ->. Qed.

Lemma valid_loader_get (w : World) :
  refs_valid w ∧ hand_valid w →
  refs_valid (AssetLoader_get w) ∧ hand_valid (AssetLoader_get w).
Proof.
  intros [(Hq1 & Hq2 & Hc) Hh]. unfold AssetLoader_get.
  destruct (w_loader w) eqn:Hl; try done.
  destruct (PriorityQueue_get _ _) as [[x rest]|] eqn:E; [|done].
  apply PriorityQueue_get_Permutation in E. rewrite E in Hq1.
  apply Forall_cons in Hq1 as [Hx Hrest].
  split; [by repeat split|]. unfold hand_valid. simpl. by apply Forall_singleton.
Qed.

Lemma valid_loader_test (w : World) :
  refs_valid w ∧ hand_valid w →
  refs_valid (AssetLoader_test w) ∧ hand_valid (AssetLoader_test w).
Proof.
  intros [Hv Hh]. unfold AssetLoader_test.
  destruct (w_loader w) eqn:Hl; try done.
  destruct (w_assets w !! asset) as [self|]; [|done].
  split; [done|]. unfold hand_valid in *. rewrite Hl in Hh. simpl.
  by destruct (loaded self).
Qed.

Lemma valid_loader_do_load (hook : Hook) (w : World) :
  refs_valid w ∧ hand_valid w →
  refs_valid (AssetLoader_do_load hook w)
  ∧ hand_valid (AssetLoader_do_load hook w).
Proof.
  intros [Hv Hh]. unfold AssetLoader_do_load.
  destruct (w_loader w) eqn:Hl; try done.
  unfold hand_valid in *. rewrite Hl in Hh.
  destruct hook as [e|]; (split; [done|]); simpl; [constructor|done].
Qed.

Lemma valid_loader_put (w : World) :
  refs_valid w ∧ hand_valid w →
  refs_valid (AssetLoader_put w) ∧ hand_valid (AssetLoader_put w).
Proof.
  intros [(Hq1 & Hq2 & Hc) Hh]. unfold AssetLoader_put.
  destruct (w_loader w) eqn:Hl; try done.
  unfold hand_valid in Hh. rewrite Hl in Hh.
  split; [|constructor].
  split; [done|]. split; [|done]. simpl. apply Forall_app. by split.
Qed.

Lemma valid_poll (w : World) :
  refs_valid w ∧ hand_valid w →
  refs_valid (final (_check_loader_status w))
  ∧ hand_valid (final (_check_loader_status w)).
Proof.
  intros [Hv Hh]. pose proof Hv as (Hq1 & Hq2 & Hc).
  destruct (check_loader_status_spec w Hv)
    as (k & w1 & Hk & Hout & _ & Hm1 & Ha1 & Hg1 & Hl1 & _ & _ & _ & Hc1 & _).
  assert (Hlen : length (w_assets w1) = length (w_assets w))
    by (rewrite Ha1; apply length_fold_alter).
  assert (Hv1 : refs_valid w1 ∧ hand_valid w1).
  { split; [|unfold hand_valid; by rewrite Hl1, Hlen].
    unfold refs_valid. rewrite Hm1, Hlen. simpl.
    split; [done|]. split; [|done].
    by apply Forall_drop. }
  destruct Hout as [[-> ->]|(e & -> & _)]; [|done].
  simpl. destruct (_ =? _); [|done].
  destruct Hv1 as [(H1 & H2 & H3) Hh1]. by repeat split.
Qed.

Lemma Asset_load_succeeds (a : nat) (c : AppCallback) (p : option Z) (w : World) :
  refs_valid w → (a < length (w_assets w))%nat →
  ∃ w', Asset_load a (App c) p w = Ok w'.
Proof.
  intros (_ & _ & Hc) [self Ha]%lookup_lt_is_Some.
  rewrite (Asset_load_unfold w a self) by done.
  destruct (loaded self); [|by eexists].
  destruct (Asset__call_callbacks_spec a (registered (App c) p self)
              (with_assets (alter (registered (App c) p) a) w))
    as (w' & Hw' & _).
  - simpl. by rewrite list_lookup_alter_eq, Ha.
  - simpl. apply callbacks_valid_registered; [done|].
    by apply (Forall_lookup_1 _ _ _ _ Hc Ha).
  - by exists w'.
Qed.

Lemma valid_unload (hook : Hook) (a : nat) (w : World) :
  refs_valid w ∧ hand_valid w →
  refs_valid (final (Asset_unload hook a w))
  ∧ hand_valid (final (Asset_unload hook a w)).
Proof.
  intros [(Hq1 & Hq2 & Hc) Hh]. unfold Asset_unload.
  destruct (get_asset a w); [|done].
  assert (Hc1 : Forall (callbacks_valid (length (w_groups w)))
                  (alter (λ self, set_loading false
                            (set_loaded false (set_unloading true self)))
                     a (w_assets w)))
    by (apply Forall_alter; [done|]; by intros x _ Hx).
  destruct hook as [e|]; simpl.
  - split; [|unfold hand_valid; simpl; by rewrite length_alter].
    unfold refs_valid. simpl. rewrite !length_alter. done.
  - split; [|unfold hand_valid; simpl; by rewrite !length_alter].
    unfold refs_valid. simpl. rewrite !length_alter.
    split; [done|]. split; [done|].
    apply Forall_alter; [done|]. by intros x _ Hx.
Qed.

Lemma valid_bcp (total remaining : Z) (w : World) :
  refs_valid w ∧ hand_valid w →
  refs_valid (final (_bcp_client_asset_load total remaining w))
  ∧ hand_valid (final (_bcp_client_asset_load total remaining w)).
Proof.
  intros [(Hq1 & Hq2 & Hc) Hh]. unfold _bcp_client_asset_load.
  pose proof (post_loading_event_spec
                (with_manager (set_bcp_counters total remaining) w)) as Hpost.
  destruct (_post_loading_event _) as [w'|e w'].
  - destruct Hpost as (_ & Hf & _). simpl. split.
    + eapply groups_frame_refs_valid; [exact Hf|]. by repeat split.
    + destruct Hf as (_ & Ha & _ & _ & _ & _ & Hl).
      unfold hand_valid. by rewrite Hl, Ha.
  - destruct Hpost as [_ ->]. simpl. split; [by repeat split|done].
Qed.

Lemma valid_poll_entry (a : nat) (q' : list nat) (w : World) :
  loaded_queue (w_manager w) = a :: q' →
  refs_valid w ∧ hand_valid w →
  refs_valid (final (drain_entry a q' w))
  ∧ hand_valid (final (drain_entry a q' w)).
Proof.
  intros Hq [Hv Hh]. pose proof Hv as (Hq1 & Hq2 & _).
  destruct (final_drain_entry a q' w Hq Hv) as (Hm & Ha & Hg & Hl & Hc).
  rewrite Hq in Hq2. apply Forall_cons in Hq2 as [_ Hq2].
  split.
  - unfold refs_valid. split; [|split; [|exact Hc]].
    + rewrite Hm, Ha, length_alter. simpl. done.
    + rewrite Hm, Ha, length_alter. simpl. done.
  - unfold hand_valid. by rewrite Hl, Ha, length_alter.
Qed.

Lemma valid_poll_end (w : World) :
  refs_valid w ∧ hand_valid w →
  refs_valid (reset_if_done w) ∧ hand_valid (reset_if_done w).
Proof.
  intros [Hv Hh]. unfold reset_if_done. by destruct (_ =? _).
Qed.

Lemma valid_step (w w' : World) :
  step w w' → refs_valid w ∧ hand_valid w → refs_valid w' ∧ hand_valid w'.
Proof.
  intros Hstep Hv. destruct Hstep.
  - destruct Hv as [(Hq1 & Hq2 & Hc) Hh]. split.
    + unfold refs_valid. simpl. rewrite length_app. simpl. split; [|split].
      * eapply Forall_impl; [exact Hq1|]. intros; simpl in *; lia.
      * eapply Forall_impl; [exact Hq2|]. intros; simpl in *; lia.
      * apply Forall_app. split; [done|]. apply Forall_singleton.
        intros g Hg. simpl in Hg. by apply elem_of_nil in Hg.
    + unfold hand_valid in *. simpl. rewrite length_app.
      eapply Forall_impl; [exact Hh|]. intros; simpl in *; lia.
  - destruct Hv as [(Hq1 & Hq2 & Hc) Hh]. split; [|done].
    unfold refs_valid. simpl.
    split; [done|]. split; [done|]. rewrite length_app.
    eapply Forall_impl; [exact Hc|]. intros x Hx.
    eapply callbacks_valid_mono; [|exact Hx]. lia.
  - destruct Hv as [Hv Hh]. split.
    + eapply refs_valid_Asset_load; [eassumption|done|done].
    + eapply (Asset_load_keeps hand_valid);
        [apply hand_valid_same|apply hand_valid_enqueued|eassumption|done].
  - by apply valid_unload.
  - destruct Hv as [Hv Hh]. split.
    + by eapply refs_valid_AssetGroup_load.
    + eapply (AssetGroup_load_keeps hand_valid);
        [apply hand_valid_same|apply hand_valid_enqueued|eassumption|done].
  - destruct Hv as [Hv Hh]. split; [|done].
    eapply groups_frame_refs_valid; [apply groups_frame_upd_group|done].
  - by apply valid_bcp.
  - done.
  - by apply valid_loader_get.
  - by apply valid_loader_test.
  - by apply valid_loader_do_load.
  - by apply valid_loader_put.
  - by apply valid_poll.
  - by apply valid_poll_entry.
  - by apply valid_poll_end.
Qed.

Lemma reachable_valid (w : World) : reachable w → refs_valid w ∧ hand_valid w.
Proof.
  induction 1 as [|w w' _ IH Hstep]; [|by eapply valid_step].
  repeat split; constructor.
Qed.

Lemma reachable_refs_valid (w : World) : reachable w → refs_valid w.
Proof. intros H. by apply reachable_valid. Qed.

Lemma counters_inv_unload (hook : Hook) (a : nat) (w : World) :
  counters_inv w → counters_inv (final (Asset_unload hook a w)).
Proof.
  unfold Asset_unload. destruct (get_asset a w); [|done].
  by destruct hook.
Qed.

Lemma bcp_manager (total remaining : Z) (w : World) :
  w_manager (final (_bcp_client_asset_load total remaining w))
  = set_bcp_counters total remaining (w_manager w)
  ∧ w_loader (final (_bcp_client_asset_load total remaining w)) = w_loader w.
Proof.
  unfold _bcp_client_asset_load.
  pose proof (post_loading_event_spec
                (with_manager (set_bcp_counters total remaining) w)) as Hpost.
  destruct (_post_loading_event _) as [w'|e w'].
  - destruct Hpost as (_ & (Hm & _ & _ & _ & _ & _ & Hl) & _). done.
  - by destruct Hpost as [_ ->].
Qed.

Lemma counters_inv_step (w w' : World) :
  step w w' → refs_valid w → counters_inv w → counters_inv w'.
Proof.
  intros Hstep Hv Hinv. destruct Hstep; try done.
  - by eapply counters_inv_Asset_load.
  - by apply counters_inv_unload.
  - by eapply counters_inv_AssetGroup_load.
  - destruct (bcp_manager total remaining w) as [Hm Hl].
    unfold counters_inv, under_way in *. by rewrite Hm, Hl.
  - by apply counters_inv_loader_get.
  - by apply counters_inv_loader_test.
  - by apply counters_inv_loader_do_load.
  - by apply counters_inv_loader_put.
  - by apply counters_inv_poll.
  - by apply counters_inv_poll_entry.
  - by apply counters_inv_poll_end.
Qed.

Lemma reachable_counters_inv (w : World) : reachable w → counters_inv w.
Proof.
  induction 1 as [|w w' Hr IH Hstep].
  - unfold counters_inv, under_way. simpl. lia.
  - eapply counters_inv_step; [done|by apply reachable_refs_valid|done].
Qed.

(** ** 5.18 The counters in every reachable world *)

(** C3.  In every reachable world the loaded counter lies between 0 and
    the pending counter, and so it does after every step from it (an
    enqueue, a stretch of the loader thread, a pass of the poll's loop,
    a poll, a poll that an exception leaves).  The rest is about the
    poll that nothing interrupts.  A poll that returns leaves both
    counters 0 or leaves
    them different, the pending counter as before and the loaded
    counter grown by the number of entries taken off the loaded queue;
    it resets both to 0 when that number brings the loaded counter up to
    the pending one.  The poll returns when [loading_percent] returns at
    each of the counts it passes; an exception that leaves it is the one
    [loading_percent] raises at the first count where it raises, and the
    counters are then not reset.  A poll that finds the counters equal
    returns and resets both to 0 (the loaded queue is then empty and
    [loading_percent] is not evaluated), and a poll that finds the
    loaded queue empty and both counters 0 leaves every counter as it
    was. *)
Theorem counters_bounded_and_reset (w : World) :
  reachable w →
  let m := w_manager w in
  let q := loaded_queue m in
  0 ≤ num_assets_loaded m ≤ num_assets_to_load m
  ∧ (∀ w', step w w' →
       0 ≤ num_assets_loaded (w_manager w')
         ≤ num_assets_to_load (w_manager w'))
  ∧ (∀ w', _check_loader_status w = Done w' →
       let m' := w_manager w' in
       ((num_assets_loaded m' = 0 ∧ num_assets_to_load m' = 0)
        ∨ (num_assets_loaded m' ≠ num_assets_to_load m'
           ∧ num_assets_to_load m' = num_assets_to_load m
           ∧ num_assets_loaded m'
             = num_assets_loaded m + Z.of_nat (length q)))
       ∧ (num_assets_loaded m + Z.of_nat (length q) = num_assets_to_load m →
          num_assets_loaded m' = 0 ∧ num_assets_to_load m' = 0
          ∧ _loaded_watcher m' = false))
  ∧ ((∀ j : nat, (0 < j ≤ length q)%nat →
        percent_returns (add_loaded (Z.of_nat j) m)) →
     ∃ w', _check_loader_status w = Done w')
  ∧ (∀ e w', _check_loader_status w = Aborted e w' →
       ∃ k : nat,
         (0 < k ≤ length q)%nat
         ∧ loading_percent (add_loaded (Z.of_nat k) m) = Raise e
         ∧ (∀ j : nat, (0 < j < k)%nat →
              percent_returns (add_loaded (Z.of_nat j) m))
         ∧ num_assets_to_load (w_manager w') = num_assets_to_load m
         ∧ num_assets_loaded (w_manager w')
           = num_assets_loaded m + Z.of_nat k)
  ∧ (num_assets_loaded m = num_assets_to_load m →
     ∃ w', _check_loader_status w = Done w'
           ∧ num_assets_loaded (w_manager w') = 0
           ∧ num_assets_to_load (w_manager w') = 0
           ∧ _loaded_watcher (w_manager w') = false)
  ∧ (q = [] → num_assets_loaded m = 0 → num_assets_to_load m = 0 →
     ∃ w', _check_loader_status w = Done w'
           ∧ num_assets_loaded (w_manager w') = num_assets_loaded m
           ∧ num_assets_to_load (w_manager w') = num_assets_to_load m
           ∧ num_bcp_assets_loaded (w_manager w') = num_bcp_assets_loaded m
           ∧ num_bcp_assets_to_load (w_manager w') = num_bcp_assets_to_load m
           ∧ num_bcb_assets_remaining (w_manager w')
             = num_bcb_assets_remaining m).
Proof.
  intros Hr m q.
  pose proof (reachable_counters_inv w Hr) as (H0 & Hle & _).
  pose proof (reachable_refs_valid w Hr) as Hv.
  unfold under_way in Hle. fold m q in H0, Hle.
  destruct (check_loader_status_spec w Hv)
    as (k & w1 & Hk & Hout & Hperc & Hm1 & _).
  fold m q in Hk, Hout, Hperc, Hm1.
  split; [lia|]. split.
  { intros w' Hstep.
    assert (Hr' : reachable w') by (by eapply reachable_step).
    pose proof (reachable_counters_inv w' Hr') as (H0' & Hle' & _).
    unfold under_way in Hle'. lia. }
  split.
  { intros w' Hd m'.
    destruct Hout as [[-> Hd']|(e & Hd' & _)]; [|congruence].
    rewrite Hd in Hd'. injection Hd' as Hw'. subst m'. rewrite Hw'.
    destruct (Z.eqb_spec (num_assets_to_load m)
                (num_assets_loaded m + Z.of_nat (length q))) as [He|He].
    - simpl. split; [by left|done].
    - rewrite Hm1. simpl. split; [right; split; [lia|split; done]|lia]. }
  split.
  { intros Hp. destruct Hout as [[-> Hd']|(e & Hd' & Hk0 & Hraise)].
    - by eexists.
    - destruct (Hp k ltac:(lia)) as [p Hpk]. congruence. }
  split.
  { intros e w' Ha.
    destruct Hout as [[-> Hd']|(e' & Hd' & Hk0 & Hraise)]; [congruence|].
    rewrite Ha in Hd'. injection Hd' as <- <-.
    exists k. split; [lia|]. split; [done|]. split.
    - intros j Hj. apply Hperc; [lia|left; lia].
    - rewrite Hm1. done. }
  split.
  { intros Heq.
    assert (Hq : length q = 0%nat) by lia.
    destruct Hout as [[-> Hd']|(e & _ & Hk0 & _)]; [|lia].
    rewrite Hd'. rewrite Hq, Z.add_0_r, Heq, Z.eqb_refl.
    eexists. split; [done|]. done. }
  intros Hq Hl0 Ht0.
  destruct Hout as [[-> Hd']|(e & _ & Hk0 & _)]; [|rewrite Hq in Hk; simpl in Hk; lia].
  rewrite Hd'. rewrite Hq. simpl. rewrite Z.add_0_r, Hl0, Ht0. simpl.
  eexists. split; [done|]. simpl. rewrite Hm1. simpl. done.
Qed.

Lemma counters_bounded_and_reset_witness :
  ∃ w, Asset_load 0 (App PyNone) None (Asset_init 0 World_init) = Ok w
       ∧ 0 ≤ num_assets_loaded (w_manager (AssetLoader_run_once None w))
           ≤ num_assets_to_load (w_manager (AssetLoader_run_once None w))
       ∧ ∃ w', _check_loader_status (AssetLoader_run_once None w) = Done w'.
Proof.
  eexists. split; [vm_compute; reflexivity|].
  match goal with |- context [AssetLoader_run_once None ?w0] => set (w := w0) end.
  assert (Hr : reachable (AssetLoader_run_once None w)).
  { unfold AssetLoader_run_once.
    eapply reachable_step; [|apply step_loader_put].
    eapply reachable_step; [|apply step_loader_do_load].
    eapply reachable_step; [|apply step_loader_test].
    eapply reachable_step; [|apply step_loader_get].
    eapply reachable_step;
      [|apply (step_asset_load 0 PyNone None (Asset_init 0 World_init));
        vm_compute; reflexivity].
    eapply reachable_step; [apply reachable_init|apply (step_new_asset 0)]. }
  destruct (counters_bounded_and_reset _ Hr) as (Hb & _ & _ & Hret & _).
  split; [exact Hb|]. apply Hret.
  intros j Hj. change (length _) with 1%nat in Hj.
  assert (j = 1%nat) as -> by lia. exists 100. vm_compute. reflexivity.
Defined.

(** ** 5.19 [AssetGroup.load] *)

(** C2, evaluated where the code leaves the claim.  A group with the one
    member [(asset 0, 1)], not loaded, is loaded with callback 7: the
    member tuple enters [loading_members] and the asset the loader
    queue.  The loader turn and the poll load the asset and call
    [_group_member_loaded] with the asset; [discard] is given the asset,
    not the tuple, so [loading_members] keeps the tuple and callback 7 is
    not called.  A second [load], when no member needs loading, finds
    [loading_members] non-empty and calls nothing either. *)
Theorem group_callbacks_not_fired :
  let w0 := with_groups (λ gs, gs ++ [AssetGroup_init None [(0%nat, 1)]])
              (Asset_init 0 World_init) in
  ∃ w1 w2 w3 grp1 grp2 self2,
    AssetGroup_load 0 (Callable 7) None w0 = Ok w1
    ∧ w_groups w1 !! 0%nat = Some grp1
    ∧ loading_members grp1 = [ObjMember (mkMember 0 0 1)]
    ∧ loader_queue (w_manager w1) = [0%nat]
    ∧ _check_loader_status (AssetLoader_run_once None w1) = Done w2
    ∧ w_assets w2 !! 0%nat = Some self2
    ∧ loaded self2 = true ∧ _callbacks self2 = []
    ∧ w_groups w2 !! 0%nat = Some grp2
    ∧ loading_members grp2 = [ObjMember (mkMember 0 0 1)]
    ∧ g_callbacks grp2 = [Callable 7]
    ∧ w_events w2 = [LoadingAssets 1 1 0 100; ClearBootHold]
    ∧ AssetGroup_load 0 (Callable 8) None w2 = Ok w3
    ∧ w_events w3 = w_events w2.
Proof.
  intros w0. do 6 eexists.
  split; [vm_compute; reflexivity|].
  split; [vm_compute; reflexivity|].
  split; [reflexivity|]. split; [reflexivity|].
  split; [vm_compute; reflexivity|].
  split; [reflexivity|]. split; [reflexivity|]. split; [reflexivity|].
  split; [reflexivity|]. split; [reflexivity|]. split; [reflexivity|].
  split; [reflexivity|].
  split; [vm_compute; reflexivity|]. reflexivity.
Qed.

(* ===================================================================== *)
(** * 6. Further properties of the code *)
(* ===================================================================== *)

(** ** 6.1 The weighted pick *)

#[local] Arguments py_sum : simpl never.

(** X1.  With a draw in [[1, total]] and at least one candidate,
    [_pick_weighed_random] returns one of the candidates. *)
Theorem pick_returns_candidate (T v : Z) (l : list Member) :
  1 ≤ v ≤ T → l ≠ [] →
  ∃ m, _pick_weighed_random T v l = Ok m ∧ m ∈ l.
Proof.
  intros Hv Hl. destruct (pick_succeeds T v l Hv Hl) as [m Hm].
  exists m. split; [done|]. by eapply pick_elem_of.
Qed.

Lemma pick_returns_candidate_witness :
  ∃ m, _pick_weighed_random 3 2 [mkMember 0 7 1; mkMember 1 8 2] = Ok m
       ∧ m ∈ [mkMember 0 7 1; mkMember 1 8 2].
Proof.
  apply (pick_returns_candidate 3 2 [mkMember 0 7 1; mkMember 1 8 2]).
  - lia.
  - discriminate.
Defined.

Lemma pick_loop_uniform (w v : Z) (d : Member) (l : list Member) :
  0 < w →
  ∀ pre : list Member,
    Forall (λ m, m_weight m = w) (pre ++ l) →
    py_sum (map m_weight pre) < v →
    v ≤ py_sum (map m_weight (pre ++ l)) →
    ∃ i m, l !! i = Some m
           ∧ pick_loop v (py_sum (map m_weight pre) + w) l d = m
           ∧ in_bracket (pre ++ l) (length pre + i) v.
Proof.
  intros Hw. induction l as [|x l IH]; intros pre Hall Hlo Hhi.
  - rewrite app_nil_r in Hhi. lia.
  - assert (Hx : m_weight x = w).
    { apply Forall_app in Hall as [_ Hall]. by apply Forall_cons in Hall as [? _]. }
    simpl. destruct (Z.geb_spec (py_sum (map m_weight pre) + w) v) as [Hge|Hlt].
    + exists 0%nat, x. split; [done|]. split; [done|].
      unfold in_bracket. rewrite Nat.add_0_r.
      rewrite take_app_length.
      replace (S (length pre)) with (length (pre ++ [x]))
        by (rewrite length_app; simpl; lia).
      rewrite (cons_middle x pre l), app_assoc, take_app_length.
      rewrite map_app, py_sum_app. simpl. rewrite py_sum_cons, py_sum_nil. lia.
    + destruct (IH (pre ++ [x])) as (i & m & Hi & Hp & Hb).
      * by rewrite <- app_assoc.
      * rewrite map_app, py_sum_app. simpl. rewrite py_sum_cons, py_sum_nil. lia.
      * by rewrite <- app_assoc.
      * exists (S i), m. split; [done|]. split.
        -- rewrite <- Hp. f_equal.
           rewrite map_app, py_sum_app. simpl. rewrite py_sum_cons, py_sum_nil. lia.
        -- rewrite <- app_assoc in Hb. simpl in Hb.
           rewrite length_app in Hb. simpl in Hb.
           by replace (length pre + S i)%nat with (length pre + 1 + i)%nat by lia.
Qed.

(** X2.  When all members have the same positive weight (the default
    weight 1, say) and the stored total is the sum of the weights, the
    weighted pick returns the member whose weight bracket holds the
    draw. *)
Theorem pick_uniform_weights (w v : Z) (l : list Member) :
  0 < w →
  Forall (λ m, m_weight m = w) l →
  1 ≤ v ≤ py_sum (map m_weight l) →
  ∃ i m, _pick_weighed_random (py_sum (map m_weight l)) v l = Ok m
         ∧ l !! i = Some m
         ∧ in_bracket l i v.
Proof.
  intros Hw Hall Hv. unfold _pick_weighed_random, randint.
  replace ((1 <=? v) && (v <=? py_sum (map m_weight l))) with true
    by (symmetry; apply andb_true_iff; split; apply Z.leb_le; lia).
  cbn [mbind Res_bind].
  destruct l as [|x l]; [simpl in Hv; rewrite py_sum_nil in Hv; lia|].
  destruct (pick_loop_uniform w v (List.last l x) (x :: l) Hw []) as (i & m & Hi & Hp & Hb);
    [done|simpl; rewrite py_sum_nil; lia|apply Hv|].
  exists i, m. split; [|done].
  f_equal. rewrite <- Hp. simpl. rewrite py_sum_nil.
  apply Forall_cons in Hall as [-> _]. done.
Qed.

Lemma pick_uniform_weights_witness :
  ∃ i m, _pick_weighed_random
           (py_sum (map m_weight [mkMember 0 4 2; mkMember 1 5 2; mkMember 2 6 2]))
           5 [mkMember 0 4 2; mkMember 1 5 2; mkMember 2 6 2] = Ok m
         ∧ [mkMember 0 4 2; mkMember 1 5 2; mkMember 2 6 2] !! i = Some m
         ∧ in_bracket [mkMember 0 4 2; mkMember 1 5 2; mkMember 2 6 2] i 5.
Proof.
  apply (pick_uniform_weights 2 5).
  - lia.
  - repeat constructor.
  - vm_compute. split; discriminate.
Defined.

(** ** 6.2 The [random_force_next] policy *)

Lemma force_next_reads (A : list Member) :
  (∀ x y, x ∈ A → y ∈ A → m_asset x = m_asset y → m_oid x = m_oid y) →
  ∀ (draws : list Z) (g g' : AssetGroup) (rs : list (option nat)),
    g_type g = "random_force_next"%string →
    assets g = A →
    (∀ l, _last_asset g = Some l → l ∈ A) →
    read_assets draws g = Ok (rs, g') →
    (∀ l, _last_asset g = Some l → head rs ≠ Some (Some (m_asset l)))
    ∧ no_adjacent_repeat rs.
Proof.
  intros HA. induction draws as [|v draws IH]; intros g g' rs Hty Ha Hlast H.
  - injection H as <- <-. split; [done|]. intros i x y Hx. done.
  - cbn [read_assets] in H. apply bind_Ok in H as ([r g1] & H1 & H).
    apply bind_Ok in H as ([rs' g2] & H2 & H). cbn [fst snd] in *.
    injection H as <- <-.
    destruct (force_next_read _ _ _ _ Hty H1) as (m & -> & Hl1 & Hin & Hnot).
    destruct (read_keeps_shape _ _ _ _ H1) as [Ha1 Hty1].
    destruct (IH g1 g2 rs') as [Hhd Hadj]; [congruence|congruence| |done|].
    { intros l Hl. rewrite Hl1 in Hl. injection Hl as <-. congruence. }
    split.
    + intros l Hl. simpl. intros [= Heq].
      rewrite Hl in Hnot. simpl in Hnot. unfold Member_is in Hnot.
      apply negb_true_iff, Nat.eqb_neq in Hnot. apply Hnot.
      apply HA; [congruence|by apply Hlast|done].
    + intros [|i] x y Hx Hy; simpl in Hx, Hy.
      * injection Hx as <-. intros <-.
        apply (Hhd m Hl1). by rewrite head_lookup, Hy.
      * by eapply Hadj.
Qed.

(** X3.  A [random_force_next] group whose members have distinct
    assets never returns the same asset on two successive reads. *)
Theorem force_next_no_immediate_repeat (members : list (nat * Z))
    (draws : list Z) (rs : list (option nat)) (g' : AssetGroup) :
  NoDup (map fst members) →
  read_assets draws (AssetGroup_init (Some "random_force_next"%string) members)
  = Ok (rs, g') →
  no_adjacent_repeat rs.
Proof.
  intros Hnd H.
  eapply (force_next_reads (imap (λ i p, mkMember i (fst p) (snd p)) members));
    [| |apply init_assets| |exact H].
  - intros x y Hx Hy Heq. f_equal. by eapply members_distinct_assets.
  - by rewrite init_type.
  - unfold AssetGroup_init, _configure_return_asset; simpl. done.
Qed.

Lemma force_next_no_immediate_repeat_witness :
  no_adjacent_repeat [Some 4%nat; Some 5%nat; Some 4%nat; Some 5%nat].
Proof.
  eapply (force_next_no_immediate_repeat [(4%nat, 1); (5%nat, 2); (6%nat, 1)]
            [1; 1; 1; 2]).
  - apply NoDup_ListNoDup. repeat constructor; simpl; intuition congruence.
  - vm_compute. reflexivity.
Defined.

(** X4.  A [random_force_next] group with a single member returns it on
    the first read; every later read raises [ValueError], since no
    candidate is left and [randint] is asked for a value in [[1, 0]]. *)
Theorem force_next_single_member (a : nat) (n v1 v2 : Z) :
  1 ≤ v1 ≤ n →
  ∃ g1, AssetGroup_asset v1
          (AssetGroup_init (Some "random_force_next"%string) [(a, n)])
        = Ok (Some a, g1)
        ∧ AssetGroup_asset v2 g1 = Raise ValueError.
Proof.
  intros Hv.
  exists (set_last_asset (Some (mkMember 0 a n))
            (AssetGroup_init (Some "random_force_next"%string) [(a, n)])).
  split.
  - unfold AssetGroup_asset, AssetGroup_init, _configure_return_asset.
    cbn [g_type set_total_weights String.eqb Ascii.eqb Bool.eqb].
    unfold _get_random_force_next_asset, _pick_weighed_random, randint, py_sum.
    simpl. change (0 + n) with n.
    replace ((1 <=? v1) && (v1 <=? n)) with true
      by (symmetry; apply andb_true_iff; split; apply Z.leb_le; lia).
    simpl. destruct (n >=? v1); reflexivity.
  - unfold AssetGroup_asset.
    cbn [g_type set_last_asset set_total_weights String.eqb Ascii.eqb Bool.eqb].
    unfold _get_random_force_next_asset, _pick_weighed_random, randint, py_sum.
    simpl.
    destruct (Z.leb_spec 1 v2), (Z.leb_spec v2 0); simpl; try reflexivity. lia.
Qed.

Lemma force_next_single_member_witness :
  ∃ g1, AssetGroup_asset 2
          (AssetGroup_init (Some "random_force_next"%string) [(3%nat, 2)])
        = Ok (Some 3%nat, g1)
        ∧ AssetGroup_asset 1 g1 = Raise ValueError.
Proof. apply (force_next_single_member 3 2 2 1). lia. Defined.

(** ** 6.3 Groups without members *)

(** X5.  Reading [asset] from a group without members raises
    [IndexError] under the sequence policy (the default) and
    [ValueError] under the three random policies; a group of an unknown
    type yields [None]. *)
Theorem empty_group_read (ty : option string) (v : Z) :
  let t := match ty with Some t => t | None => "sequence"%string end in
  AssetGroup_asset v (AssetGroup_init ty [])
  = if String.eqb t "random" then Raise ValueError
    else if String.eqb t "sequence" then Raise IndexError
    else if String.eqb t "random_force_next" then Raise ValueError
    else if String.eqb t "random_force_all" then Raise ValueError
    else Ok (None, AssetGroup_init ty []).
Proof.
  intros t.
  assert (Hr : ∀ T, T ≤ 0 → randint 1 T v = Raise ValueError).
  { intros T HT. unfold randint.
    destruct (Z.leb_spec 1 v), (Z.leb_spec v T); simpl; try reflexivity. lia. }
  unfold AssetGroup_asset. rewrite init_type. fold t.
  destruct (String.eqb t "random") eqn:E1.
  { unfold _get_random_asset, _pick_weighed_random.
    rewrite init_total_weights, Hr; done. }
  destruct (String.eqb t "sequence") eqn:E2.
  { unfold _get_sequence_asset, AssetGroup_init, _configure_return_asset.
    fold t. cbn [g_type set_total_weights]. rewrite E2. reflexivity. }
  destruct (String.eqb t "random_force_next") eqn:E3.
  { unfold _get_random_force_next_asset, _pick_weighed_random.
    rewrite init_assets. cbn [imap filter list_filter set_total_weights _total_weights map].
    rewrite Hr; done. }
  destruct (String.eqb t "random_force_all") eqn:E4.
  { unfold _get_random_force_all_asset, _pick_weighed_random.
    rewrite init_assets, init_assets_sent. cbn [imap length Nat.eqb].
    cbn [_total_weights set_assets_sent]. rewrite init_total_weights, Hr; done. }
  reflexivity.
Qed.

(** ** 6.4 The sequence buffer *)

Lemma rotate_left_Permutation {A} (l : list A) : rotate_left l ≡ₚ l.
Proof.
  destruct l as [|x l]; [done|]. simpl.
  by rewrite Permutation_app_comm.
Qed.

Lemma rotate_Permutation {A} (n : nat) (l : list A) : rotate n l ≡ₚ l.
Proof.
  unfold rotate. rewrite Permutation_app_comm. by rewrite take_drop.
Qed.

Lemma sequence_reads_buffer (draws : list Z) :
  ∀ (g g' : AssetGroup) (rs : list (option nat)),
    g_type g = "sequence"%string →
    read_assets draws g = Ok (rs, g') →
    _asset_sequence g' ≡ₚ _asset_sequence g
    ∧ Forall (λ r, ∃ a, r = Some a ∧ a ∈ _asset_sequence g) rs.
Proof.
  induction draws as [|v draws IH]; intros g g' rs Hty H.
  - injection H as <- <-. done.
  - cbn [read_assets] in H. apply bind_Ok in H as ([r g1] & H1 & H).
    apply bind_Ok in H as ([rs' g2] & H2 & H). cbn [fst snd] in *.
    injection H as <- <-.
    destruct (read_keeps_shape _ _ _ _ H1) as [_ Hty1].
    destruct (IH g1 g2 rs') as [Hp Hall]; [congruence|done|].
    revert H1. unfold AssetGroup_asset. rewrite Hty.
    cbn [String.eqb Ascii.eqb Bool.eqb]. unfold _get_sequence_asset.
    destruct (rotate_left (_asset_sequence g)) as [|a d] eqn:E; [done|].
    cbn [mbind Res_bind fst snd]. intros [= <- <-].
    simpl in Hp, Hall. pose proof (rotate_left_Permutation (_asset_sequence g)) as Hrl.
    rewrite E in Hrl.
    split; [by rewrite Hp|].
    constructor.
    + exists a. split; [done|]. rewrite <- Hrl. left.
    + eapply Forall_impl; [exact Hall|]. intros r (b & -> & Hb).
      exists b. split; [done|]. by rewrite <- Hrl.
Qed.

(** X6.  In a sequence group the rotating buffer holds, after any number
    of reads, each member's asset as many times as its number says (it
    is a rearrangement of the written-out member list), and a read only
    ever returns an asset of that list. *)
Theorem sequence_buffer_content (ty : option string) (members : list (nat * Z))
    (draws : list Z) (rs : list (option nat)) (g' : AssetGroup) :
  ty = None ∨ ty = Some "sequence"%string →
  read_assets draws (AssetGroup_init ty members) = Ok (rs, g') →
  _asset_sequence g' ≡ₚ expand_members members
  ∧ Forall (λ r, ∃ a, r = Some a ∧ a ∈ expand_members members) rs.
Proof.
  intros Hty H.
  assert (Ht : g_type (AssetGroup_init ty members) = "sequence"%string)
    by (rewrite init_type; by destruct Hty as [-> | ->]).
  destruct (sequence_reads_buffer draws _ _ _ Ht H) as [Hp Hall].
  rewrite init_sequence, rotate_right_rotate in Hp, Hall by done.
  split.
  - by rewrite Hp, rotate_Permutation.
  - eapply Forall_impl; [exact Hall|]. intros r (a & -> & Ha).
    exists a. split; [done|]. by rewrite elem_of_rotate in Ha.
Qed.

Lemma sequence_buffer_content_witness :
  ∃ g', read_assets [0; 0] (AssetGroup_init None [(7%nat, 2); (9%nat, 1)])
        = Ok ([Some 7%nat; Some 7%nat], g')
        ∧ _asset_sequence g' ≡ₚ expand_members [(7%nat, 2); (9%nat, 1)].
Proof.
  eexists. split; [vm_compute; reflexivity|].
  refine (proj1 (sequence_buffer_content None [(7%nat, 2); (9%nat, 1)] [0; 0]
                   [Some 7%nat; Some 7%nat] _ (or_introl eq_refl) _)).
  vm_compute. reflexivity.
Defined.

(** ** 6.5 The ends of the progress scale *)

Lemma SFdiv_self (s : bool) (p : positive) :
  SFdiv prec emax (S754_finite s p 0) (S754_finite s p 0)
  = S754_finite false 4503599627370496 (-52).
Proof.
  unfold SFdiv, SFdiv_core_binary.
  replace (Zdigits2 (Z.pos p) + 0 - (Zdigits2 (Z.pos p) + 0)) with 0 by lia.
  change (Z.min (fexp prec emax 0) (0 - 0)) with (-53).
  change (0 - 0 - -53) with 53.
  cbv beta iota zeta.
  assert (Hdiv : Z.div_eucl (Z.shiftl (Z.pos p) 53) (Z.pos p)
                 = (9007199254740992, 0)).
  { rewrite Z.shiftl_mul_pow2 by lia.
    pose proof (Z.div_eucl_eq (Z.pos p * 2 ^ 53) (Z.pos p)) as Heq.
    pose proof (Z.mod_pos_bound (Z.pos p * 2 ^ 53) (Z.pos p)) as Hb.
    unfold Z.modulo in Hb.
    destruct (Z.div_eucl (Z.pos p * 2 ^ 53) (Z.pos p)) as [q r].
    specialize (Heq ltac:(lia)). specialize (Hb ltac:(lia)).
    assert (q = 2 ^ 53) by nia. subst q.
    replace r with 0 by lia. reflexivity. }
  rewrite Hdiv.
  assert (Hloc : new_location (Z.pos p) 0 = loc_Exact).
  { unfold new_location, new_location_even, new_location_odd.
    by destruct (Z.even _). }
  rewrite Hloc. rewrite xorb_nilpotent. vm_compute. reflexivity.
Qed.

(** X7.  With a non-zero total, [loading_percent] is 0 when nothing
    counts as loaded and 100 when the loaded sum equals the total. *)
Theorem loading_percent_ends (m : AssetManager) :
  num_assets_to_load m + num_bcp_assets_to_load m ≠ 0 →
  (num_assets_loaded m + num_bcp_assets_loaded m = 0 →
   loading_percent m = Ok 0)
  ∧ (num_assets_loaded m + num_bcp_assets_loaded m
     = num_assets_to_load m + num_bcp_assets_to_load m →
     loading_percent m = Ok 100).
Proof.
  intros Hden. unfold loading_percent, int_truediv.
  destruct (Z.eqb_spec (num_assets_to_load m + num_bcp_assets_to_load m) 0)
    as [|_]; [done|].
  split.
  - intros ->. 
    destruct (num_assets_to_load m + num_bcp_assets_to_load m) as [|d|d];
      [done|reflexivity|reflexivity].
  - intros ->.
    destruct (num_assets_to_load m + num_bcp_assets_to_load m) as [|d|d];
      [done| |]; cbn [exact_int]; rewrite SFdiv_self; vm_compute; reflexivity.
Qed.

Lemma loading_percent_ends_witness :
  loading_percent (mkAssetManager 7 0 3 0 3 [] [] true) = Ok 0
  ∧ loading_percent (mkAssetManager 7 7 3 3 0 [] [] true) = Ok 100.
Proof.
  split.
  - apply (loading_percent_ends (mkAssetManager 7 0 3 0 3 [] [] true));
      simpl; lia.
  - apply (loading_percent_ends (mkAssetManager 7 7 3 3 0 [] [] true));
      simpl; lia.
Defined.

(** ** 6.6 The loader turn *)

(** One uninterrupted turn of the loader thread, started while it
    waits on a loader queue that is not empty. *)
Lemma AssetLoader_run_once_spec (hook : Hook) (w : World) (a : nat)
    (rest : list nat) (self : Asset) :
  w_loader w = Waiting →
  loader_queue (w_manager w) = a :: rest →
  w_assets w !! a = Some self →
  let m := w_manager w in
  let w' := AssetLoader_run_once hook w in
  let m' := w_manager w' in
  a :: loader_queue m' ≡ₚ loader_queue m
  ∧ PriorityQueue_get (ref_lt w) (loader_queue m) = Some (a, loader_queue m')
  ∧ num_assets_to_load m' = num_assets_to_load m
  ∧ num_assets_loaded m' = num_assets_loaded m
  ∧ _loaded_watcher m' = _loaded_watcher m
  ∧ w_assets w' = w_assets w
  ∧ w_groups w' = w_groups w
  ∧ match (if loaded self then None else hook) with
    | None =>
        loaded_queue m' = loaded_queue m ++ [a]
        ∧ w_loader w' = Waiting
        ∧ w_events w' = w_events w
    | Some e =>
        loaded_queue m' = loaded_queue m
        ∧ w_loader w' = Ended
        ∧ w_events w' = w_events w ++ [LoaderException e]
    end.
Proof.
  intros Hl Hq Ha. cbv zeta.
  unfold AssetLoader_run_once, AssetLoader_get. rewrite Hl.
  pose proof (heappop_root (ref_lt w) (loader_queue (w_manager w))) as Hroot.
  rewrite Hq in Hroot at 2. unfold PriorityQueue_get. rewrite Hroot.
  set (rest' := default [] (snd <$> heappop (ref_lt w)
                                      (loader_queue (w_manager w)))) in *.
  pose proof (heappop_Permutation _ _ _ _ Hroot) as Hperm.
  unfold AssetLoader_test. cbn [w_loader with_loader w_assets with_manager].
  rewrite Ha.
  destruct (loaded self).
  - unfold AssetLoader_do_load, AssetLoader_put. simpl. by rewrite Hperm.
  - unfold AssetLoader_do_load. cbn [w_loader with_loader].
    destruct hook as [e|]; unfold AssetLoader_put; simpl; by rewrite Hperm.
Qed.

(** X8.  A turn of the loader thread that nothing interrupts, started
    while the thread waits and the loader queue is not empty, takes the
    root of the heap off the loader queue, which keeps its other
    entries.  When the asset is loaded already, or when [_do_load]
    returns, the asset is appended to the end of the loaded queue and
    the thread waits again.  When the asset is not loaded and
    [_do_load] raises, the asset is on neither queue, the exception is
    reported and the thread has ended.  Counters, assets and groups are
    as they were. *)
Theorem loader_turn_moves_one (hook : Hook) (w : World) (a : nat)
    (rest : list nat) (self : Asset) :
  w_loader w = Waiting →
  loader_queue (w_manager w) = a :: rest →
  w_assets w !! a = Some self →
  let m := w_manager w in
  let w' := AssetLoader_run_once hook w in
  let m' := w_manager w' in
  a :: loader_queue m' ≡ₚ loader_queue m
  ∧ PriorityQueue_get (ref_lt w) (loader_queue m) = Some (a, loader_queue m')
  ∧ num_assets_to_load m' = num_assets_to_load m
  ∧ num_assets_loaded m' = num_assets_loaded m
  ∧ _loaded_watcher m' = _loaded_watcher m
  ∧ w_assets w' = w_assets w
  ∧ w_groups w' = w_groups w
  ∧ match (if loaded self then None else hook) with
    | None =>
        loaded_queue m' = loaded_queue m ++ [a]
        ∧ w_loader w' = Waiting
        ∧ w_events w' = w_events w
    | Some e =>
        loaded_queue m' = loaded_queue m
        ∧ w_loader w' = Ended
        ∧ w_events w' = w_events w ++ [LoaderException e]
    end.
Proof.
  intros Hl Hq Ha. cbv zeta.
  unfold AssetLoader_run_once, AssetLoader_get. rewrite Hl.
  pose proof (heappop_root (ref_lt w) (loader_queue (w_manager w))) as Hroot.
  rewrite Hq in Hroot at 2. unfold PriorityQueue_get. rewrite Hroot.
  set (rest' := default [] (snd <$> heappop (ref_lt w)
                                      (loader_queue (w_manager w)))) in *.
  pose proof (heappop_Permutation _ _ _ _ Hroot) as Hperm.
  unfold AssetLoader_test. cbn [w_loader with_loader w_assets with_manager].
  rewrite Ha.
  destruct (loaded self).
  - unfold AssetLoader_do_load, AssetLoader_put. simpl. by rewrite Hperm.
  - unfold AssetLoader_do_load. cbn [w_loader with_loader].
    destruct hook as [e|]; unfold AssetLoader_put; simpl; by rewrite Hperm.
Qed.

Lemma loader_turn_moves_one_witness :
  let w := mkWorld [mkAsset 0 1 [] true false false;
                    mkAsset 0 2 [] true false false] []
             (mkAssetManager 2 0 0 0 0 [1; 0]%nat [] true) 2 false [] Waiting in
  loaded_queue (w_manager (AssetLoader_run_once None w)) = [1%nat]
  ∧ w_loader (AssetLoader_run_once Asset__do_load w) = Ended.
Proof.
  intros w.
  pose proof (loader_turn_moves_one None w 1 [0%nat]
                (mkAsset 0 2 [] true false false) eq_refl eq_refl eq_refl)
    as (_ & _ & _ & _ & _ & _ & _ & H1 & _).
  pose proof (loader_turn_moves_one Asset__do_load w 1 [0%nat]
                (mkAsset 0 2 [] true false false) eq_refl eq_refl eq_refl)
    as (_ & _ & _ & _ & _ & _ & _ & _ & H2 & _).
  split; [exact H1|exact H2].
Defined.

(** ** 6.7 What a poll does to the assets it drains *)

Lemma as_loaded_idemp (self : Asset) : as_loaded (as_loaded self) = as_loaded self.
Proof. reflexivity. Qed.

Lemma fold_as_loaded_lookup (q : list nat) (a : nat) :
  ∀ l : list Asset,
    fold_left (λ l a, alter as_loaded a l) q l !! a
    = if bool_decide (a ∈ q) then as_loaded <$> l !! a else l !! a.
Proof.
  induction q as [|b q IH]; intros l; [done|].
  cbn [fold_left]. rewrite IH.
  destruct (decide (a = b)) as [->|Hne].
  - rewrite list_lookup_alter_eq.
    rewrite (bool_decide_eq_true_2 (b ∈ b :: q)) by left.
    destruct (bool_decide (b ∈ q)); [|done].
    destruct (l !! b); [|done]. simpl. by rewrite as_loaded_idemp.
  - rewrite list_lookup_alter_ne by done.
    destruct (decide (a ∈ q)) as [Hin|Hnin].
    + rewrite !bool_decide_eq_true_2; [done|by right|done].
    + rewrite !bool_decide_eq_false_2; [done| |done].
      intros [?|?]%elem_of_cons; done.
Qed.

(** What the poll leaves of the world: the assets and events of the
    world the drain loop leaves. *)
Lemma check_loader_status_drained (w : World) :
  refs_valid w →
  let q := loaded_queue (w_manager w) in
  let w' := final (_check_loader_status w) in
  ∃ k : nat,
    (k ≤ length q)%nat
    ∧ loaded_queue (w_manager w') = drop k q
    ∧ (∀ a self, a ∈ take k q → w_assets w !! a = Some self →
         w_assets w' !! a = Some (as_loaded self)
         ∧ ∀ c, App (Callable c) ∈ _callbacks self →
                CalledWithAsset c a ∈ w_events w')
    ∧ (∀ a, a ∉ take k q → w_assets w' !! a = w_assets w !! a)
    ∧ (_check_loader_status w = Done w' ∧ k = length q
       ∨ ∃ e, _check_loader_status w = Aborted e w' ∧ (0 < k)%nat
              ∧ loading_percent (add_loaded (Z.of_nat k) (w_manager w))
                = Raise e)
    ∧ ((∀ j : nat, (0 < j ≤ length q)%nat →
          percent_returns (add_loaded (Z.of_nat j) (w_manager w))) →
       _check_loader_status w = Done w' ∧ k = length q).
Proof.
  intros Hv q w'.
  destruct (check_loader_status_spec w Hv)
    as (k & w1 & Hk & Hout & _ & Hm1 & Ha1 & _ & _ & _ & _ & _ & _ & Hev).
  fold q in Hk, Hout, Hm1, Ha1, Hev.
  assert (Hw' : w_assets w' = w_assets w1 ∧ w_events w' = w_events w1
                ∧ loaded_queue (w_manager w') = loaded_queue (w_manager w1)).
  { subst w'. destruct Hout as [[_ ->]|(e & -> & _)]; [|done].
    simpl. by destruct (_ =? _). }
  destruct Hw' as (Hwa & Hwe & Hwq).
  assert (Hcase : _check_loader_status w = Done w' ∧ k = length q
       ∨ ∃ e, _check_loader_status w = Aborted e w' ∧ (0 < k)%nat
              ∧ loading_percent (add_loaded (Z.of_nat k) (w_manager w))
                = Raise e).
  { subst w'. destruct Hout as [[Hkq Hd]|(e & Hd & Hk0 & Hr)].
    - left. by rewrite Hd.
    - right. exists e. by rewrite Hd. }
  exists k. split; [done|]. split; [by rewrite Hwq, Hm1|].
  rewrite Hwa, Hwe, Ha1. split.
  { intros a self Hin Hself. split; [|intros c Hc; by eapply Hev].
    by rewrite fold_as_loaded_lookup, bool_decide_eq_true_2, Hself. }
  split.
  { intros a Hnin. by rewrite fold_as_loaded_lookup, bool_decide_eq_false_2. }
  split; [done|].
  intros Hp. destruct Hcase as [?|(e & _ & Hk0 & Hr)]; [done|].
  destruct (Hp k ltac:(lia)) as [p Hpk]. congruence.
Qed.

(** X9.  A poll that nothing interrupts, on a world with valid
    references, handles the entries of the loaded queue from the front:
    each asset it handles is afterwards
    loaded, neither loading nor unloading and without pending callbacks,
    and every callable that was registered on it has been called with
    it; the other assets are as they were.  It handles the whole queue
    and returns when [loading_percent] returns at every count it passes;
    otherwise the exception of [loading_percent] leaves it at the first
    count where that raises, with the later entries still on the
    queue. *)
Theorem poll_marks_drained_assets (w : World) :
  refs_valid w →
  let q := loaded_queue (w_manager w) in
  let w' := final (_check_loader_status w) in
  ∃ k : nat,
    (k ≤ length q)%nat
    ∧ loaded_queue (w_manager w') = drop k q
    ∧ (∀ a self, a ∈ take k q → w_assets w !! a = Some self →
         w_assets w' !! a = Some (as_loaded self)
         ∧ ∀ c, App (Callable c) ∈ _callbacks self →
                CalledWithAsset c a ∈ w_events w')
    ∧ (∀ a, a ∉ take k q → w_assets w' !! a = w_assets w !! a)
    ∧ (_check_loader_status w = Done w' ∧ k = length q
       ∨ ∃ e, _check_loader_status w = Aborted e w' ∧ (0 < k)%nat
              ∧ loading_percent (add_loaded (Z.of_nat k) (w_manager w))
                = Raise e)
    ∧ ((∀ j : nat, (0 < j ≤ length q)%nat →
          percent_returns (add_loaded (Z.of_nat j) (w_manager w))) →
       _check_loader_status w = Done w' ∧ k = length q).
Proof.
  intros Hv q w'.
  destruct (check_loader_status_spec w Hv)
    as (k & w1 & Hk & Hout & _ & Hm1 & Ha1 & _ & _ & _ & _ & _ & _ & Hev).
  fold q in Hk, Hout, Hm1, Ha1, Hev.
  assert (Hw' : w_assets w' = w_assets w1 ∧ w_events w' = w_events w1
                ∧ loaded_queue (w_manager w') = loaded_queue (w_manager w1)).
  { subst w'. destruct Hout as [[_ ->]|(e & -> & _)]; [|done].
    simpl. by destruct (_ =? _). }
  destruct Hw' as (Hwa & Hwe & Hwq).
  assert (Hcase : _check_loader_status w = Done w' ∧ k = length q
       ∨ ∃ e, _check_loader_status w = Aborted e w' ∧ (0 < k)%nat
              ∧ loading_percent (add_loaded (Z.of_nat k) (w_manager w))
                = Raise e).
  { subst w'. destruct Hout as [[Hkq Hd]|(e & Hd & Hk0 & Hr)].
    - left. by rewrite Hd.
    - right. exists e. by rewrite Hd. }
  exists k. split; [done|]. split; [by rewrite Hwq, Hm1|].
  rewrite Hwa, Hwe, Ha1. split.
  { intros a self Hin Hself. split; [|intros c Hc; by eapply Hev].
    by rewrite fold_as_loaded_lookup, bool_decide_eq_true_2, Hself. }
  split.
  { intros a Hnin. by rewrite fold_as_loaded_lookup, bool_decide_eq_false_2. }
  split; [done|].
  intros Hp. destruct Hcase as [?|(e & _ & Hk0 & Hr)]; [done|].
  destruct (Hp k ltac:(lia)) as [p Hpk]. congruence.
Qed.

Lemma poll_marks_drained_assets_witness :
  let w := mkWorld [mkAsset 0 1 [App (Callable 3)] true false false] []
             (mkAssetManager 1 0 0 0 0 [] [0%nat] true) 1 false [] Waiting in
  ∃ w', _check_loader_status w = Done w'
        ∧ w_assets w' !! 0%nat
          = Some (as_loaded (mkAsset 0 1 [App (Callable 3)] true false false))
        ∧ CalledWithAsset 3 0 ∈ w_events w'.
Proof.
  intros w.
  destruct (poll_marks_drained_assets w)
    as (k & Hk & _ & Hin & _ & _ & Hret).
  - repeat split; simpl; repeat constructor.
    intros g Hg. simpl in Hg.
    apply elem_of_cons in Hg as [Hg|Hg]; [discriminate Hg|].
    by apply elem_of_nil in Hg.
  - destruct Hret as [Hd ->].
    { intros j Hj. change (length _) with 1%nat in Hj.
      assert (j = 1%nat) as -> by lia. exists 100. vm_compute. reflexivity. }
    exists (final (_check_loader_status w)). split; [exact Hd|].
    destruct (Hin 0%nat _ ltac:(left) eq_refl) as [Ha Hev].
    split; [exact Ha|]. apply Hev. left.
Defined.

(** ** 6.8 [unload] and a pending load *)

Lemma pending_load_is_decoded (w2 : World) (a : nat) (self2 : Asset) :
  refs_valid w2 →
  w_loader w2 = Waiting →
  w_assets w2 !! a = Some self2 →
  loader_queue (w_manager w2) = [a] →
  loaded_queue (w_manager w2) = [] →
  let w3 := AssetLoader_run_once None w2 in
  loader_queue (w_manager w3) = []
  ∧ loaded_queue (w_manager w3) = [a]
  ∧ (percent_returns (add_loaded 1 (w_manager w3)) →
     ∃ w4 self4,
       _check_loader_status w3 = Done w4
       ∧ w_assets w4 !! a = Some self4
       ∧ loaded self4 = true ∧ unloading self4 = false
       ∧ ∀ k, App (Callable k) ∈ _callbacks self2 →
              CalledWithAsset k a ∈ w_events w4).
Proof.
  intros Hv2 Hl2 Ha2 Hlq2 Hldq2. cbv zeta.
  destruct (AssetLoader_run_once_spec None w2 a [] self2 Hl2 Hlq2 Ha2)
    as (Hperm & _ & Ht3 & Hld3 & _ & Has3 & Hg3 & Hcase).
  cbv zeta in Hperm, Ht3, Hld3, Has3, Hg3, Hcase.
  set (w3 := AssetLoader_run_once None w2) in *.
  assert (Hldq3 : loaded_queue (w_manager w3) = [a]).
  { destruct (loaded self2); destruct Hcase as (Hq & _); by rewrite Hq, Hldq2. }
  assert (Hlq3 : loader_queue (w_manager w3) = []).
  { rewrite Hlq2 in Hperm. apply Permutation_length in Hperm.
    destruct (loader_queue (w_manager w3)); [done|]. simpl in Hperm. lia. }
  split; [done|]. split; [done|].
  intros Hp.
  assert (Hv3 : refs_valid w3).
  { destruct Hv2 as (_ & _ & Hc2).
    unfold refs_valid. rewrite Hldq3, Hlq3, Has3, Hg3.
    split; [constructor|]. split; [|done].
    apply Forall_singleton. by eapply lookup_lt_Some. }
  destruct (check_loader_status_drained w3 Hv3)
    as (k & Hk & _ & Hin & _ & _ & Hret).
  cbv zeta in Hk, Hin, Hret. rewrite Hldq3 in Hk, Hin, Hret.
  destruct Hret as [Hd ->].
  { intros j Hj. simpl in Hj. assert (j = 1%nat) as -> by lia. exact Hp. }
  destruct (Hin a self2) as [Ha4 Hev]; [left|by rewrite Has3|].
  exists (final (_check_loader_status w3)), (as_loaded self2).
  split; [done|]. split; [done|]. split; [done|]. split; [done|].
  exact Hev.
Qed.

(** X10.  [unload] does not take an asset off the loader queue.  An
    asset that is loaded with [load] and unloaded with [unload] before
    the loader thread has reached it stays queued, whether [_do_unload]
    returns or raises; when it raises, [unloading] stays set.  The
    loader thread decodes the asset all the same, and the next poll, if
    [loading_percent] returns at the new count, marks it loaded, clears
    [unloading] and calls the callback passed to [load]. *)
Theorem unload_keeps_pending_load (w : World) (a : nat) (self : Asset)
    (c : AppCallback) (p : option Z) (hook : Hook) :
  refs_valid w →
  w_loader w = Waiting →
  w_assets w !! a = Some self →
  loaded self = false →
  loader_queue (w_manager w) = [] →
  loaded_queue (w_manager w) = [] →
  ∃ w1 self2,
    Asset_load a (App c) p w = Ok w1
    ∧ let w2 := final (Asset_unload hook a w1) in
      let w3 := AssetLoader_run_once None w2 in
      Asset_unload hook a w1
      = match hook with
        | Some e => Aborted e w2
        | None => Done w2
        end
      ∧ w_assets w2 !! a = Some self2
      ∧ loading self2 = false ∧ loaded self2 = false
      ∧ unloading self2 = match hook with Some _ => true | None => false end
      ∧ loader_queue (w_manager w2) = [a]
      ∧ loader_queue (w_manager w3) = []
      ∧ loaded_queue (w_manager w3) = [a]
      ∧ (percent_returns (add_loaded 1 (w_manager w3)) →
         ∃ w4 self4,
           _check_loader_status w3 = Done w4
           ∧ w_assets w4 !! a = Some self4
           ∧ loaded self4 = true ∧ unloading self4 = false
           ∧ ∀ k, c = Callable k → CalledWithAsset k a ∈ w_events w4).
Proof.
  intros Hv Hlw Ha Hl Hq1 Hq2.
  set (w1 := _load_asset a (upd_asset a (set_loading true)
               (with_assets (alter (registered (App c) p) a) w))).
  assert (H1 : Asset_load a (App c) p w = Ok w1)
    by (rewrite (Asset_load_unfold w a self) by done; by rewrite Hl).
  set (r1 := set_loading true (registered (App c) p self)).
  assert (Ha1 : w_assets w1 !! a = Some r1)
    by (unfold w1; simpl; by rewrite !list_lookup_alter_eq, Ha).
  set (f := λ s, set_loading false (set_loaded false (set_unloading true s))).
  assert (Hv1 : refs_valid w1 ∧ hand_valid w1).
  { split; [eapply refs_valid_Asset_load; [exact H1|done|done]|].
    unfold hand_valid, w1. simpl. rewrite Hlw. constructor. }
  pose proof (valid_unload hook a w1 Hv1) as [Hv2 _].
  assert (Hlq1 : loader_queue (w_manager w1) = [a])
    by (unfold w1; simpl; by rewrite Hq1).
  assert (Hldq1 : loaded_queue (w_manager w1) = [])
    by (unfold w1; simpl; by rewrite Hq2).
  assert (Hcb : ∀ k, c = Callable k → App (Callable k) ∈ _callbacks r1).
  { intros k ->. unfold r1, registered. simpl. apply set_add_elem_of. by left. }
  exists w1, (match hook with
              | Some _ => f r1
              | None => set_unloading false (f r1)
              end).
  split; [done|]. cbv zeta.
  revert Hv2. unfold Asset_unload, get_asset. rewrite Ha1.
  destruct hook as [e|]; cbn [final]; fold f; intros Hv2.
  - split; [done|].
    assert (Ha2 : w_assets (upd_asset a f w1) !! a = Some (f r1))
      by (unfold upd_asset, with_assets; cbn [w_assets];
          by rewrite list_lookup_alter_eq, Ha1).
    split; [done|]. split; [done|]. split; [done|]. split; [done|].
    split; [done|].
    destruct (pending_load_is_decoded (upd_asset a f w1) a (f r1))
      as (H3a & H3b & H4); try done.
    split; [done|]. split; [done|].
    intros Hp. destruct (H4 Hp) as (w4 & self4 & Hd & Ha4 & Hl4 & Hu4 & Hev).
    exists w4, self4. repeat split; try done. intros k Hk. by apply Hev, Hcb.
  - split; [done|].
    assert (Ha2 : w_assets (upd_asset a (set_unloading false) (upd_asset a f w1))
                  !! a = Some (set_unloading false (f r1)))
      by (unfold upd_asset, with_assets; cbn [w_assets];
          by rewrite !list_lookup_alter_eq, Ha1).
    split; [done|]. split; [done|]. split; [done|]. split; [done|].
    split; [done|].
    destruct (pending_load_is_decoded
                (upd_asset a (set_unloading false) (upd_asset a f w1)) a
                (set_unloading false (f r1)))
      as (H3a & H3b & H4); try done.
    split; [done|]. split; [done|].
    intros Hp. destruct (H4 Hp) as (w4 & self4 & Hd & Ha4 & Hl4 & Hu4 & Hev).
    exists w4, self4. repeat split; try done. intros k Hk. by apply Hev, Hcb.
Qed.

Lemma unload_keeps_pending_load_witness :
  ∃ w1 w4 self4,
    Asset_load 0 (App (Callable 9)) None (Asset_init 0 World_init) = Ok w1
    ∧ _check_loader_status
        (AssetLoader_run_once None (final (Asset_unload Asset__do_unload 0 w1)))
      = Done w4
    ∧ w_assets w4 !! 0%nat = Some self4
    ∧ loaded self4 = true
    ∧ CalledWithAsset 9 0 ∈ w_events w4.
Proof.
  destruct (unload_keeps_pending_load (Asset_init 0 World_init) 0
              (mkAsset 0 1 [] false false false) (Callable 9) None
              Asset__do_unload)
    as (w1 & self2 & H1 & _ & _ & _ & _ & _ & _ & _ & Hldq & Hpoll).
  - repeat split; simpl; repeat constructor.
    intros g Hg. simpl in Hg. by apply elem_of_nil in Hg.
  - reflexivity.
  - reflexivity.
  - reflexivity.
  - reflexivity.
  - reflexivity.
  - destruct Hpoll as (w4 & self4 & H4 & Ha4 & Hl4 & _ & Hev).
    + injection H1 as <-. exists 100. vm_compute. reflexivity.
    + exists w1, w4, self4. repeat split; try assumption. by apply Hev.
Defined.

(** ** 6.9 Remote progress reports *)

(** X11.  A remote progress report [(total, remaining)] stores [total],
    [total - remaining] and [remaining] as the remote counters and
    leaves the local counters, the queues, the assets and the groups
    alone.  When [loading_percent] returns on the new counters, one
    progress event is posted, with the local pending count plus [total]
    as total, the local loaded count plus [total - remaining] as loaded
    figure, the local remainder plus [remaining] as remaining figure and
    that percentage, and the boot hold is released exactly when the
    remaining figure is 0 and boot is not done.  When [loading_percent]
    raises, its exception leaves the call and nothing is posted; with
    no local load pending, the report [(1, -10^400)] is such a call. *)
Theorem remote_progress_report (total remaining : Z) (w : World) :
  let m := w_manager w in
  let m1 := mkAssetManager (num_assets_to_load m) (num_assets_loaded m)
              total (total - remaining) remaining
              (loader_queue m) (loaded_queue m) (_loaded_watcher m) in
  let w' := final (_bcp_client_asset_load total remaining w) in
  w_manager w' = m1
  ∧ w_assets w' = w_assets w
  ∧ w_groups w' = w_groups w
  ∧ w_loader w' = w_loader w
  ∧ match loading_percent m1 with
    | Ok percent =>
        _bcp_client_asset_load total remaining w = Done w'
        ∧ w_events w'
          = w_events w
            ++ LoadingAssets (num_assets_to_load m + total)
                 (num_assets_loaded m + (total - remaining))
                 (num_assets_remaining m + remaining)
                 percent
               :: (if (num_assets_remaining m + remaining =? 0)
                      && negb (w_init_done w)
                   then [ClearBootHold] else [])
    | Raise e =>
        _bcp_client_asset_load total remaining w = Aborted e w'
        ∧ w_events w' = w_events w
    end
  ∧ (num_assets_to_load m = 0 → num_assets_loaded m = 0 →
     ∃ w'', _bcp_client_asset_load 1 (- 10 ^ 400) w
            = Aborted OverflowError w'').
Proof.
  intros m m1 w'.
  set (w0 := with_manager (set_bcp_counters total remaining) w).
  set (remaining_ := num_assets_remaining m + remaining).
  assert (Hcase :
    _bcp_client_asset_load total remaining w
    = match loading_percent m1 with
      | Ok percent =>
          Done (let w1 := emit (LoadingAssets (num_assets_to_load m + total)
                                  (num_assets_loaded m + (total - remaining))
                                  remaining_ percent) w0 in
                if (remaining_ =? 0) && negb (w_init_done w)
                then emit ClearBootHold w1 else w1)
      | Raise e => Aborted e w0
      end).
  { unfold _bcp_client_asset_load, _post_loading_event. fold w0.
    change (w_manager w0) with m1.
    destruct (loading_percent m1); [|done].
    cbn [num_assets_to_load num_assets_loaded num_bcp_assets_to_load
         num_bcp_assets_loaded m1 emit w_init_done w0 with_manager].
    replace (num_assets_to_load m + total - num_assets_loaded m
             - (total - remaining)) with remaining_
      by (unfold remaining_, num_assets_remaining; lia).
    done. }
  split; [|split; [|split; [|split; [|split]]]].
  - subst w'. rewrite Hcase. destruct (loading_percent m1); [|done].
    by destruct (_ && _).
  - subst w'. rewrite Hcase. destruct (loading_percent m1); [|done].
    by destruct (_ && _).
  - subst w'. rewrite Hcase. destruct (loading_percent m1); [|done].
    by destruct (_ && _).
  - subst w'. rewrite Hcase. destruct (loading_percent m1); [|done].
    by destruct (_ && _).
  - subst w'. rewrite Hcase. destruct (loading_percent m1); [|done].
    split; [done|]. cbn [final]. fold remaining_.
    destruct (_ && _); simpl; by rewrite <- ?app_assoc.
  - intros Ht Hl. unfold _bcp_client_asset_load, _post_loading_event.
    assert (Hr : loading_percent
                   (w_manager (with_manager (set_bcp_counters 1 (- 10 ^ 400)) w))
                 = Raise OverflowError).
    { unfold loading_percent.
      cbn [w_manager with_manager set_bcp_counters num_assets_to_load
           num_assets_loaded num_bcp_assets_to_load num_bcp_assets_loaded].
      fold m. rewrite Ht, Hl. vm_compute. reflexivity. }
    rewrite Hr. by eexists.
Qed.

(** ** 6.10 When the poll is scheduled *)

Lemma watcher_inv_same (w w' : World) :
  w_manager w' = w_manager w → w_loader w' = w_loader w →
  length (w_assets w') = length (w_assets w) →
  watcher_inv (w_manager w) → watcher_inv (w_manager w').
Proof. by intros -> _ _. Qed.

Lemma watcher_inv_step (w w' : World) :
  step w w' → refs_valid w → counters_inv w →
  watcher_inv (w_manager w) → watcher_inv (w_manager w').
Proof.
  intros Hstep Hv Hc Hw. destruct Hstep; try done.
  - eapply (Asset_load_keeps (λ w, watcher_inv (w_manager w)));
      [apply watcher_inv_same| |eassumption|done].
    intros lt b w1 w2 -> _ _ _. apply watcher_inv_enqueued.
  - unfold Asset_unload. destruct (get_asset a w); [|done]. by destruct hook.
  - eapply (AssetGroup_load_keeps (λ w, watcher_inv (w_manager w)));
      [apply watcher_inv_same| |eassumption|done].
    intros lt b w1 w2 -> _ _ _. apply watcher_inv_enqueued.
  - destruct (bcp_manager total remaining w) as [-> _]. done.
  - unfold AssetLoader_get. destruct (w_loader w); try done.
    by destruct (PriorityQueue_get _ _) as [[??]|].
  - unfold AssetLoader_test. destruct (w_loader w); try done.
    by destruct (w_assets w !! asset).
  - unfold AssetLoader_do_load. destruct (w_loader w); try done.
    by destruct hook.
  - unfold AssetLoader_put. by destruct (w_loader w).
  - by apply watcher_inv_poll.
  - by apply watcher_inv_poll_entry.
  - by apply watcher_inv_poll_end.
Qed.

Lemma reachable_watcher_inv (w : World) :
  reachable w → watcher_inv (w_manager w).
Proof.
  induction 1 as [|w w' Hr IH Hstep]; [done|].
  eapply watcher_inv_step;
    [done|by apply reachable_refs_valid|by apply reachable_counters_inv|done].
Qed.

(** X12.  In every reachable world the remaining count (pending minus
    loaded) is at least the number of load requests under way, on the
    two queues and in the loader thread's hand, and is that number as
    long as the loader thread has not ended.  When the poll is not
    scheduled both counters are 0, both queues are empty and the loader
    thread holds no asset; so the poll is scheduled whenever a request
    is under way. *)
Theorem poll_scheduled_while_work_is_queued (w : World) :
  reachable w →
  let m := w_manager w in
  under_way w ≤ num_assets_remaining m
  ∧ (w_loader w ≠ Ended → num_assets_remaining m = under_way w)
  ∧ (_loaded_watcher m = false →
     num_assets_loaded m = 0 ∧ num_assets_to_load m = 0
     ∧ loader_queue m = [] ∧ loaded_queue m = []
     ∧ in_hand (w_loader w) = [])
  ∧ (0 < under_way w → _loaded_watcher m = true).
Proof.
  intros Hr m. destruct (reachable_counters_inv w Hr) as (H0 & Hle & Heq).
  pose proof (reachable_watcher_inv w Hr) as Hw.
  fold m in H0, Hle, Heq, Hw. unfold num_assets_remaining.
  assert (Hoff : _loaded_watcher m = false →
                 num_assets_loaded m = 0 ∧ num_assets_to_load m = 0
                 ∧ under_way w = 0).
  { intros Hf. destruct (Hw Hf) as [Hl Ht]. unfold under_way in *. lia. }
  split; [lia|]. split; [intros Hne; specialize (Heq Hne); lia|]. split.
  - intros Hf. destruct (Hoff Hf) as (Hl & Ht & Hu).
    unfold under_way in Hu. fold m in Hu.
    split; [done|]. split; [done|].
    destruct (loader_queue m), (loaded_queue m), (in_hand (w_loader w));
      simpl in Hu; try lia. done.
  - intros Hpos. destruct (_loaded_watcher m) eqn:E; [done|].
    destruct (Hoff eq_refl) as (_ & _ & Hu). lia.
Qed.

Lemma poll_scheduled_while_work_is_queued_witness :
  ∃ w, Asset_load 0 (App PyNone) None (Asset_init 0 World_init) = Ok w
       ∧ under_way (AssetLoader_get w)
         ≤ num_assets_remaining (w_manager (AssetLoader_get w))
       ∧ _loaded_watcher (w_manager (AssetLoader_get w)) = true.
Proof.
  eexists. split; [vm_compute; reflexivity|].
  match goal with |- context [AssetLoader_get ?w0] => set (w := w0) end.
  assert (Hr : reachable (AssetLoader_get w)).
  { eapply reachable_step; [|apply step_loader_get].
    eapply reachable_step;
      [|apply (step_asset_load 0 PyNone None (Asset_init 0 World_init));
        vm_compute; reflexivity].
    eapply reachable_step; [apply reachable_init|apply (step_new_asset 0)]. }
  destruct (poll_scheduled_while_work_is_queued _ Hr) as (Hle & _ & _ & Hon).
  split; [exact Hle|]. apply Hon. vm_compute. reflexivity.
Defined.

(** ** 6.11 [AssetGroup.load], the parts that work *)

Lemma group_load_loop_all_loaded (g : nat) (l : list Member) (w : World) :
  Forall (λ x, ∃ self, w_assets w !! m_asset x = Some self ∧ loaded self = true) l →
  foldM (λ w' asset,
           a ← get_asset (m_asset asset) w';
           if negb (loaded a) then
             Asset_load (m_asset asset) (GroupMemberLoaded g) None
               (upd_group g (λ self,
                  set_loading_members
                    (set_add PyObj_eqb (ObjMember asset) (loading_members self))
                    self) w')
           else Ok w') w l = Ok w.
Proof.
  induction 1 as [|x l (self & Hx & Hl) _ IH]; [done|].
  cbn [foldM]. rewrite (proj2 (get_asset_Ok _ _ _) Hx). cbn [mbind Res_bind].
  rewrite Hl. cbn [negb mbind Res_bind]. exact IH.
Qed.

(** X13.  [AssetGroup.load] on a group whose members are all loaded and
    whose [loading_members] set is empty calls at once every callable
    registered on the group or passed with the call, empties the
    group's callback set, and enqueues nothing. *)
Theorem group_load_all_loaded (w : World) (g : nat) (grp : AssetGroup)
    (c : AppCallback) (p : option Z) :
  w_groups w !! g = Some grp →
  loading_members grp = [] →
  Forall (λ x, ∃ self, w_assets w !! m_asset x = Some self ∧ loaded self = true)
    (assets grp) →
  ∃ w' grp',
    AssetGroup_load g c p w = Ok w'
    ∧ w_manager w' = w_manager w
    ∧ w_assets w' = w_assets w
    ∧ w_groups w' !! g = Some grp'
    ∧ g_callbacks grp' = []
    ∧ ∀ k, Callable k ∈ c :: g_callbacks grp → CalledWithGroup k g ∈ w_events w'.
Proof.
  intros Hg Hlm Hall. unfold AssetGroup_load, get_group. rewrite Hg.
  cbn [mbind Res_bind].
  set (w2 := upd_group g _ _).
  assert (Hw2a : w_assets w2 = w_assets w) by (unfold w2; by destruct p).
  assert (Hw2m : w_manager w2 = w_manager w) by (unfold w2; by destruct p).
  set (grp2 := set_g_callbacks
                 (set_add (λ x y, bool_decide (x = y)) c (g_callbacks grp))
                 (match p with Some q => set_g_priority (Some q) grp | None => grp end)).
  assert (Hw2g : w_groups w2 !! g = Some grp2).
  { unfold w2, grp2. destruct p; simpl; rewrite !list_lookup_alter_eq, Hg; done. }
  rewrite group_load_loop_all_loaded by (by rewrite Hw2a).
  cbn [mbind Res_bind]. rewrite Hw2g. cbn [mbind Res_bind].
  assert (loading_members grp2 = []) as -> by (unfold grp2; by destruct p).
  unfold AssetGroup__call_callbacks, get_group. rewrite Hw2g.
  cbn [mbind Res_bind].
  destruct (fold_group_callbacks_frame g (g_callbacks grp2) w2)
    as ((Hm & Ha & _) & Hgs & Hev).
  cbv zeta in Hm, Ha, Hgs, Hev.
  set (wf := fold_left _ (g_callbacks grp2) w2) in *.
  exists (upd_group g (set_g_callbacks []) wf), (set_g_callbacks [] grp2).
  split; [reflexivity|].
  split; [change (w_manager wf = w_manager w); congruence|].
  split; [change (w_assets wf = w_assets w); congruence|].
  split.
  { change (alter (set_g_callbacks []) g (w_groups wf) !! g
            = Some (set_g_callbacks [] grp2)).
    by rewrite Hgs, list_lookup_alter_eq, Hw2g. }
  split; [done|].
  intros k Hk. change (CalledWithGroup k g ∈ w_events wf).
  apply Hev. unfold grp2. simpl. apply set_add_elem_of.
  apply elem_of_cons in Hk as [->|Hk]; [by left|right; by destruct p].
Qed.

Lemma group_load_all_loaded_witness :
  ∃ w' grp',
    AssetGroup_load 0 (Callable 7) None
      (mkWorld [mkAsset 0 1 [] false true false]
         [AssetGroup_init None [(0%nat, 1)]] AssetManager_init 1 false [] Waiting)
    = Ok w'
    ∧ w_manager w' = AssetManager_init
    ∧ w_groups w' !! 0%nat = Some grp'
    ∧ g_callbacks grp' = []
    ∧ CalledWithGroup 7 0 ∈ w_events w'.
Proof.
  destruct (group_load_all_loaded
              (mkWorld [mkAsset 0 1 [] false true false]
                 [AssetGroup_init None [(0%nat, 1)]] AssetManager_init 1 false [] Waiting)
              0 (AssetGroup_init None [(0%nat, 1)]) (Callable 7) None)
    as (w' & grp' & H & Hm & _ & Hg & Hc & Hev).
  - reflexivity.
  - reflexivity.
  - repeat constructor. eexists. split; reflexivity.
  - exists w', grp'. repeat split; try assumption. apply Hev. left.
Defined.

Lemma needs_load_upd_group (g : nat) (f : AssetGroup → AssetGroup) (w : World)
    (x : Member) :
  needs_load (upd_group g f w) x = needs_load w x.
Proof. reflexivity. Qed.

Lemma Asset_load_not_loaded (a : nat) (cb : Callback) (w : World) (self : Asset) :
  w_assets w !! a = Some self → loaded self = false →
  Asset_load a cb None w
  = Ok (_load_asset a
          (upd_asset a (set_loading true)
             (with_assets (alter (registered cb None) a) w))).
Proof.
  intros Ha Hl. rewrite (Asset_load_unfold w a self) by done. by rewrite Hl.
Qed.

Lemma fold_put_ext {A} (lt lt' : A → A → bool) (l : list A) :
  (∀ x y, lt x y = lt' x y) →
  ∀ q, fold_left (λ q a, PriorityQueue_put lt a q) l q
       = fold_left (λ q a, PriorityQueue_put lt' a q) l q.
Proof.
  intros Hlt. induction l as [|a l IH]; intros q; [done|].
  cbn [fold_left]. rewrite IH. f_equal. by apply PriorityQueue_put_ext.
Qed.

Lemma fold_put_Permutation {A} (lt : A → A → bool) (l : list A) :
  ∀ q, fold_left (λ q a, PriorityQueue_put lt a q) l q ≡ₚ q ++ l.
Proof.
  induction l as [|a l IH]; intros q; [by rewrite app_nil_r|].
  cbn [fold_left]. rewrite IH, PriorityQueue_put_Permutation.
  by rewrite <- app_assoc.
Qed.

Lemma fmap_key_alter_id (f : Asset → Asset) (a : nat) (l : list Asset) :
  (∀ x, Asset_key (f x) = Asset_key x) →
  Asset_key <$> alter f a l = Asset_key <$> l.
Proof.
  intros Hf. rewrite (fmap_key_alter f id) by done. by rewrite list_alter_id.
Qed.

Lemma group_load_loop_enqueues (g : nat) (l : list Member) :
  ∀ w, Forall (λ x, is_Some (w_assets w !! m_asset x)) l →
    ∃ w', foldM (λ w' asset,
                   a ← get_asset (m_asset asset) w';
                   if negb (loaded a) then
                     Asset_load (m_asset asset) (GroupMemberLoaded g) None
                       (upd_group g (λ self,
                          set_loading_members
                            (set_add PyObj_eqb (ObjMember asset)
                               (loading_members self))
                            self) w')
                   else Ok w') w l = Ok w'
      ∧ num_assets_to_load (w_manager w')
        = num_assets_to_load (w_manager w)
          + Z.of_nat (length (filter (λ x, needs_load w x = true) l))
      ∧ num_assets_loaded (w_manager w') = num_assets_loaded (w_manager w)
      ∧ loader_queue (w_manager w')
        = fold_left (λ q a, PriorityQueue_put (ref_lt w) a q)
            (map m_asset (filter (λ x, needs_load w x = true) l))
            (loader_queue (w_manager w))
      ∧ loaded_queue (w_manager w') = loaded_queue (w_manager w)
      ∧ map loaded (w_assets w') = map loaded (w_assets w)
      ∧ length (w_groups w') = length (w_groups w)
      ∧ Asset_key <$> w_assets w' = Asset_key <$> w_assets w.
Proof.
  induction l as [|x l IH]; intros w Hall.
  - exists w. simpl. repeat split; lia.
  - apply Forall_cons in Hall as [[self Hx] Hall].
    cbn [foldM]. rewrite (proj2 (get_asset_Ok _ _ _) Hx). cbn [mbind Res_bind].
    assert (Hnl : needs_load w x = negb (loaded self))
      by (unfold needs_load; by rewrite Hx).
    destruct (loaded self) eqn:Hl; cbn [negb].
    + destruct (IH w Hall) as (w' & Hw' & Ht & Hld & Hq & Hq2 & Hm & Hg & Hk).
      exists w'. rewrite filter_cons_False by (rewrite Hnl; done).
      done.
    + rewrite (Asset_load_not_loaded _ _ _ self) by done.
      cbn [mbind Res_bind].
      set (w1 := _load_asset _ _).
      assert (Hm1 : map loaded (w_assets w1) = map loaded (w_assets w)).
      { unfold w1. simpl. rewrite list_alter_alter_eq.
        apply list_eq. intros i. rewrite !list_lookup_fmap.
        destruct (decide (i = m_asset x)) as [->|Hne].
        - rewrite list_lookup_alter_eq. by destruct (w_assets w !! m_asset x).
        - by rewrite list_lookup_alter_ne. }
      assert (Hnl1 : ∀ y, needs_load w1 y = needs_load w y).
      { intros y. unfold needs_load.
        pose proof (f_equal (λ l, l !! m_asset y) Hm1) as Hy.
        cbv beta in Hy. rewrite !list_lookup_fmap in Hy.
        destruct (w_assets w1 !! m_asset y), (w_assets w !! m_asset y);
          try done; injection Hy as Hy; by rewrite Hy. }
      assert (Hk1 : Asset_key <$> w_assets w1 = Asset_key <$> w_assets w).
      { unfold w1. simpl. rewrite list_alter_alter_eq.
        by apply fmap_key_alter_id. }
      destruct (IH w1) as (w' & Hw' & Ht & Hld & Hq & Hq2 & Hm & Hg & Hk).
      { eapply Forall_impl; [exact Hall|]. intros y Hy. simpl in Hy |- *.
        apply lookup_lt_is_Some. apply lookup_lt_is_Some in Hy.
        unfold w1. simpl. by rewrite !length_alter. }
      exists w'. rewrite filter_cons_True by (rewrite Hnl; done).
      split; [done|].
      rewrite (list_filter_iff _ (λ y, needs_load w y = true)) in Ht, Hq
        by (intros y; by rewrite Hnl1).
      rewrite (fold_put_ext (ref_lt w1) (ref_lt w)) in Hq
        by (by apply ref_lt_ext).
      rewrite Ht, Hld, Hq, Hq2, Hm, Hg, Hm1, Hk, Hk1.
      split; [unfold w1; simpl; lia|]. split; [done|]. split.
      { cbn [map fold_left]. f_equal. unfold w1.
        cbn [w_manager _load_asset with_manager loader_queue upd_asset
             with_assets upd_group with_groups].
        apply PriorityQueue_put_ext, ref_lt_ext.
        simpl. rewrite list_alter_alter_eq.
        by apply fmap_key_alter_id. }
      split; [done|]. split; [done|]. split; [|done].
      unfold w1. simpl. by rewrite length_alter.
Qed.

(** X14.  [AssetGroup.load] hands to the manager exactly the members
    that are not loaded, in member order: the pending counter grows by
    their number, their assets are put on the loader queue one after
    the other, which then holds them besides its earlier entries; the
    loaded counter and the loaded queue stay, and no asset changes its
    [loaded] flag. *)
Theorem group_load_enqueues_unloaded (w : World) (g : nat) (grp : AssetGroup)
    (c : AppCallback) (p : option Z) :
  w_groups w !! g = Some grp →
  Forall (λ x, is_Some (w_assets w !! m_asset x)) (assets grp) →
  let pending := filter (λ x, needs_load w x = true) (assets grp) in
  ∃ w', AssetGroup_load g c p w = Ok w'
    ∧ num_assets_to_load (w_manager w')
      = num_assets_to_load (w_manager w) + Z.of_nat (length pending)
    ∧ loader_queue (w_manager w')
      = fold_left (λ q a, PriorityQueue_put (ref_lt w) a q)
          (map m_asset pending) (loader_queue (w_manager w))
    ∧ loader_queue (w_manager w')
      ≡ₚ loader_queue (w_manager w) ++ map m_asset pending
    ∧ num_assets_loaded (w_manager w') = num_assets_loaded (w_manager w)
    ∧ loaded_queue (w_manager w') = loaded_queue (w_manager w)
    ∧ map loaded (w_assets w') = map loaded (w_assets w).
Proof.
  intros Hg Hall pending. unfold AssetGroup_load, get_group. rewrite Hg.
  cbn [mbind Res_bind].
  set (w2 := upd_group g _ _).
  assert (Hw2a : w_assets w2 = w_assets w) by (unfold w2; by destruct p).
  assert (Hw2m : w_manager w2 = w_manager w) by (unfold w2; by destruct p).
  assert (Hw2g : length (w_groups w2) = length (w_groups w)).
  { unfold w2. destruct p; simpl; by rewrite !length_alter. }
  destruct (group_load_loop_enqueues g (assets grp) w2)
    as (w3 & Hw3 & Ht & Hld & Hq & Hq2 & Hm & Hgl & _); [by rewrite Hw2a|].
  rewrite Hw3. cbn [mbind Res_bind].
  assert (Hg3 : (g < length (w_groups w3))%nat).
  { rewrite Hgl, Hw2g. by eapply lookup_lt_Some. }
  pose proof Hg3 as [grp3 Hgrp3]%lookup_lt_is_Some.
  rewrite Hgrp3. cbn [mbind Res_bind].
  rewrite (list_filter_iff _ (λ y, needs_load w y = true)) in Ht, Hq
    by (intros y; unfold needs_load; by rewrite Hw2a).
  rewrite (fold_put_ext (ref_lt w2) (ref_lt w)) in Hq
    by (apply ref_lt_ext; by rewrite Hw2a).
  rewrite Hw2m in Ht, Hld, Hq, Hq2. rewrite Hw2a in Hm.
  assert (Hperm : loader_queue (w_manager w3)
                  ≡ₚ loader_queue (w_manager w) ++ map m_asset pending)
    by (rewrite Hq; apply fold_put_Permutation).
  destruct (loading_members grp3).
  - destruct (AssetGroup__call_callbacks_succeeds g w3 Hg3) as [w' Hw'].
    exists w'. split; [done|].
    apply AssetGroup__call_callbacks_frame in Hw' as (-> & -> & _). done.
  - by exists w3.
Qed.

Lemma group_load_enqueues_unloaded_witness :
  ∃ w', AssetGroup_load 0 (Callable 7) None
          (mkWorld [mkAsset 0 1 [] false true false;
                    mkAsset 0 2 [] false false false]
             [AssetGroup_init None [(0%nat, 1); (1%nat, 1)]]
             AssetManager_init 2 false [] Waiting)
        = Ok w'
        ∧ num_assets_to_load (w_manager w') = 0 + 1
        ∧ loader_queue (w_manager w') ≡ₚ [] ++ [1%nat].
Proof.
  destruct (group_load_enqueues_unloaded
              (mkWorld [mkAsset 0 1 [] false true false;
                        mkAsset 0 2 [] false false false]
                 [AssetGroup_init None [(0%nat, 1); (1%nat, 1)]]
                 AssetManager_init 2 false [] Waiting)
              0 (AssetGroup_init None [(0%nat, 1); (1%nat, 1)]) (Callable 7) None)
    as (w' & H & Ht & _ & Hq & _).
  - reflexivity.
  - repeat constructor; eexists; reflexivity.
  - exists w'. split; [exact H|]. split; [exact Ht|exact Hq].
Defined.

(** ** 6.12 Creation ids and the order of the loader queue *)

Lemma ids_frame_refl (w : World) : ids_frame w w.
Proof. by split. Qed.

Lemma ids_frame_trans (w1 w2 w3 : World) :
  ids_frame w1 w2 → ids_frame w2 w3 → ids_frame w1 w3.
Proof. intros [??] [??]. split; congruence. Qed.

Lemma ids_frame_inv (w w' : World) : ids_frame w w' → ids_inv w → ids_inv w'.
Proof.
  intros [Hids Hn] [Hnext Hid]. split.
  - rewrite Hn, Hnext. f_equal.
    by rewrite <- (length_fmap _id (w_assets w')), Hids, length_fmap.
  - intros i self Hi.
    assert (Hl : (_id <$> w_assets w) !! i = Some (_id self))
      by (by rewrite <- Hids, list_lookup_fmap, Hi).
    rewrite list_lookup_fmap in Hl.
    destruct (w_assets w !! i) as [self0|] eqn:E; [|done].
    injection Hl as <-. by apply Hid.
Qed.

Lemma fmap_id_alter (f : Asset → Asset) (a : nat) (l : list Asset) :
  (∀ x, _id (f x) = _id x) → _id <$> alter f a l = _id <$> l.
Proof.
  intros Hf. apply list_eq. intros i. rewrite !list_lookup_fmap.
  destruct (decide (i = a)) as [->|Hne].
  - rewrite list_lookup_alter_eq. destruct (l !! a); simpl; [|done].
    by rewrite Hf.
  - by rewrite list_lookup_alter_ne.
Qed.

Lemma ids_frame_groups_frame (w w' : World) : groups_frame w w' → ids_frame w w'.
Proof. intros (_ & Ha & _ & Hn & _). split; congruence. Qed.

Lemma ids_frame_upd_asset (a : nat) (f : Asset → Asset) (w : World) :
  (∀ x, _id (f x) = _id x) → ids_frame w (upd_asset a f w).
Proof. intros Hf. split; [|done]. simpl. by apply fmap_id_alter. Qed.

Lemma ids_frame_call_callbacks (a : nat) (w w' : World) :
  Asset__call_callbacks a w = Ok w' → ids_frame w w'.
Proof.
  unfold Asset__call_callbacks. intros H.
  apply bind_Ok in H as (self & _ & H). apply bind_Ok in H as (w1 & H1 & H).
  injection H as <-.
  apply fire_asset_callbacks_frame, ids_frame_groups_frame in H1.
  eapply ids_frame_trans; [exact H1|]. by apply ids_frame_upd_asset.
Qed.

Lemma ids_frame_Asset_load (a : nat) (cb : Callback) (p : option Z) (w w' : World) :
  Asset_load a cb p w = Ok w' → ids_frame w w'.
Proof.
  intros H.
  assert (∃ self, w_assets w !! a = Some self) as [self Ha].
  { unfold Asset_load in H. apply bind_Ok in H as (self & Hs%get_asset_Ok & _).
    by exists self. }
  rewrite (Asset_load_unfold w a self) in H by done.
  assert (H2 : ids_frame w (with_assets (alter (registered cb p) a) w)).
  { apply (ids_frame_upd_asset a (registered cb p)). intros x. by destruct p. }
  destruct (loaded self).
  - eapply ids_frame_trans; [exact H2|]. by eapply ids_frame_call_callbacks.
  - injection H as <-. eapply ids_frame_trans; [exact H2|].
    by apply (ids_frame_upd_asset a (set_loading true)).
Qed.

Lemma ids_frame_AssetGroup_load (g : nat) (c : AppCallback) (p : option Z)
    (w w' : World) :
  AssetGroup_load g c p w = Ok w' → ids_frame w w'.
Proof.
  unfold AssetGroup_load. intros H.
  apply bind_Ok in H as (grp & _ & H). apply bind_Ok in H as (w3 & Hfold & H).
  apply bind_Ok in H as (grp' & _ & H).
  assert (H3 : ids_frame w w3).
  { revert Hfold. generalize (assets grp).
    match goal with |- ∀ l, foldM _ ?w0 l = _ → _ =>
      assert (H0 : ids_frame w w0) by (by destruct p);
      generalize dependent w0 end.
    intros w0 Hw0 l. revert w0 Hw0.
    induction l as [|x l IH]; intros w0 Hw0 Hf.
    - injection Hf as <-; done.
    - cbn [foldM] in Hf. apply bind_Ok in Hf as (w1 & H1 & Hf).
      apply (IH w1); [|done].
      apply bind_Ok in H1 as (ast & _ & H1).
      destruct (negb (loaded ast)); [|injection H1 as <-; done].
      eapply ids_frame_trans; [exact Hw0|].
      by apply ids_frame_Asset_load in H1. }
  destruct (loading_members grp').
  - eapply ids_frame_trans; [exact H3|].
    by apply AssetGroup__call_callbacks_frame, ids_frame_groups_frame in H.
  - injection H as <-; done.
Qed.

Lemma ids_frame_drain_entry (a : nat) (q' : list nat) (w : World) :
  ids_frame w (final (drain_entry a q' w)).
Proof.
  unfold drain_entry.
  destruct (Asset__loaded a _) as [w2|e] eqn:H2; [|done].
  unfold Asset__loaded in H2. apply bind_Ok in H2 as (self & _ & H2).
  apply ids_frame_call_callbacks in H2.
  assert (Hw3 : ids_frame w (with_manager incr_num_assets_loaded w2)).
  { destruct H2 as [Hi Hn]. split; [|done]. simpl in *. rewrite Hi.
    by apply fmap_id_alter. }
  pose proof (post_loading_event_spec (with_manager incr_num_assets_loaded w2))
    as Hpost.
  destruct (_post_loading_event _) as [w4|e w4].
  - destruct Hpost as (_ & Hf & _).
    eapply ids_frame_trans; [exact Hw3|]. by apply ids_frame_groups_frame.
  - by destruct Hpost as [_ ->].
Qed.

Lemma ids_frame_drain (q : list nat) :
  ∀ w, ids_frame w (final (drain_loaded_queue q w)).
Proof.
  induction q as [|a q IH]; intros w; [apply ids_frame_refl|].
  cbn [drain_loaded_queue].
  pose proof (ids_frame_drain_entry a q w) as He.
  destruct (drain_entry a q w) as [w1|e w1]; [|done].
  eapply ids_frame_trans; [exact He|apply IH].
Qed.

Lemma ids_inv_step (w w' : World) : step w w' → ids_inv w → ids_inv w'.
Proof.
  intros Hstep Hinv. destruct Hstep.
  - destruct Hinv as [Hn Hid]. split; simpl.
    + rewrite length_app, Hn. simpl. lia.
    + intros i self [Hi|[Hi Hs]]%lookup_app_Some; [by apply Hid|].
      destruct (i - length (w_assets w))%nat eqn:E; [|done].
      injection Hs as <-. simpl. rewrite Hn. lia.
  - done.
  - eapply ids_frame_inv; [|done]. by eapply ids_frame_Asset_load.
  - eapply ids_frame_inv; [|done].
    unfold Asset_unload. destruct (get_asset a w); [|apply ids_frame_refl].
    destruct hook as [e|]; (split; [|done]); simpl.
    + by apply fmap_id_alter.
    + rewrite list_alter_alter_eq. by apply fmap_id_alter.
  - eapply ids_frame_inv; [|done]. by eapply ids_frame_AssetGroup_load.
  - done.
  - eapply ids_frame_inv; [|done]. unfold _bcp_client_asset_load.
    pose proof (post_loading_event_spec
                  (with_manager (set_bcp_counters total remaining) w)) as Hpost.
    destruct (_post_loading_event _) as [w1|e w1]; cbn [final].
    + destruct Hpost as (_ & (_ & Ha & _ & Hn & _) & _).
      split; [by rewrite Ha|by rewrite Hn].
    + by destruct Hpost as [_ ->].
  - done.
  - eapply ids_frame_inv; [|done]. unfold AssetLoader_get.
    destruct (w_loader w); try done.
    by destruct (PriorityQueue_get _ _) as [[??]|].
  - eapply ids_frame_inv; [|done]. unfold AssetLoader_test.
    destruct (w_loader w); try done.
    destruct (w_assets w !! asset) as [self|]; [|done]. by destruct (loaded self).
  - eapply ids_frame_inv; [|done]. unfold AssetLoader_do_load.
    destruct (w_loader w); try done. by destruct hook.
  - eapply ids_frame_inv; [|done]. unfold AssetLoader_put.
    by destruct (w_loader w).
  - eapply ids_frame_inv; [|done]. unfold _check_loader_status.
    pose proof (ids_frame_drain (loaded_queue (w_manager w)) w) as Hd.
    destruct (drain_loaded_queue _ w) as [w1|e w1]; [|done].
    eapply ids_frame_trans; [exact Hd|].
    simpl. unfold reset_if_done. by destruct (_ =? _).
  - eapply ids_frame_inv; [|done]. apply ids_frame_drain_entry.
  - eapply ids_frame_inv; [|done]. unfold reset_if_done. by destruct (_ =? _).
Qed.

Lemma reachable_ids_inv (w : World) : reachable w → ids_inv w.
Proof.
  induction 1 as [|w w' _ IH Hstep]; [|by eapply ids_inv_step].
  split; [done|]. intros i self Hi. done.
Qed.

Lemma string_of_uint_no_comma (d : Decimal.uint) :
  has_comma (NilEmpty.string_of_uint d) = false.
Proof. induction d; simpl; done. Qed.

Lemma str_int_no_comma (n : Z) : has_comma (str_int n) = false.
Proof.
  unfold str_int, NilZero.string_of_int, NilZero.string_of_uint.
  destruct (Z.to_int n) as [d|d]; destruct d; simpl;
    rewrite ?string_of_uint_no_comma; done.
Qed.

Lemma split_at_comma (s1 s2 r1 r2 : string) :
  has_comma s1 = false → has_comma s2 = false →
  (s1 ++ String "," r1)%string = (s2 ++ String "," r2)%string →
  s1 = s2 ∧ r1 = r2.
Proof.
  revert s2; induction s1 as [|c s1 IH]; intros [|c2 s2]; simpl.
  - intros _ _ [= ->]. done.
  - intros _ [Hc _]%orb_false_iff [= <- _]. by rewrite Ascii.eqb_refl in Hc.
  - intros [Hc _]%orb_false_iff _ [= -> _]. by rewrite Ascii.eqb_refl in Hc.
  - intros [_ H1]%orb_false_iff [_ H2]%orb_false_iff [= -> H].
    destruct (IH s2 H1 H2 H) as [-> ->]. done.
Qed.

Lemma str_int_inj (n n' : Z) : str_int n = str_int n' → n = n'.
Proof.
  unfold str_int. intros H. apply DecimalZ.to_int_inj.
  assert (Hnn : ∀ z, Z.to_int z ≠ Decimal.Pos Decimal.Nil
                     ∧ Z.to_int z ≠ Decimal.Neg Decimal.Nil).
  { intros [|q|q]; simpl; split; try discriminate;
      intros [= E]; by apply DecimalPos.Unsigned.to_uint_nonnil in E. }
  destruct (Hnn n) as [H1 H2], (Hnn n') as [H1' H2'].
  pose proof (NilZero.isi _ H1 H2) as E. rewrite H in E.
  rewrite (NilZero.isi _ H1' H2') in E. by injection E.
Qed.

Lemma Asset_key_determines (x y : Asset) :
  Asset_key x = Asset_key y → priority x = priority y ∧ _id x = _id y.
Proof.
  unfold Asset_key. intros H.
  apply (split_at_comma (str_int (priority x)) (str_int (priority y))) in H
    as [Hp Hi]; [|apply str_int_no_comma..].
  injection Hi as Hi. split; by apply str_int_inj.
Qed.

(** X15.  The text [__lt__] compares determines the asset's priority and
    creation id: two assets with the same text have the same priority
    and the same id. *)
Theorem Asset_key_inj (x y : Asset) :
  Asset_key x = Asset_key y → priority x = priority y ∧ _id x = _id y.
Proof.
  unfold Asset_key. intros H.
  apply (split_at_comma (str_int (priority x)) (str_int (priority y))) in H
    as [Hp Hi]; [|apply str_int_no_comma..].
  injection Hi as Hi. split; by apply str_int_inj.
Qed.


Lemma Asset_key_inj_witness :
  priority (mkAsset 3 7 [] false false false)
  = priority (mkAsset 3 7 [App PyNone] true false false)
  ∧ _id (mkAsset 3 7 [] false false false)
    = _id (mkAsset 3 7 [App PyNone] true false false).
Proof.
  apply (Asset_key_inj (mkAsset 3 7 [] false false false)
           (mkAsset 3 7 [App PyNone] true false false)).
  reflexivity.
Defined.

Lemma String_ltb_total (s t : string) :
  s ≠ t → String.ltb s t = negb (String.ltb t s).
Proof.
  intros Hne. unfold String.ltb. rewrite (String.compare_antisym t s).
  destruct (String.compare s t) eqn:E; try done.
  by apply String.compare_eq_iff in E.
Qed.

(** X16.  In every reachable world the asset at position [i] of the
    store has creation id [i + 1], so the ids are pairwise distinct; and
    [__lt__] never ties two distinct assets: exactly one of them counts
    as less than the other, whatever their priorities. *)
Theorem distinct_assets_never_tie (w : World) (a b : nat) (x y : Asset) :
  reachable w →
  w_assets w !! a = Some x →
  w_assets w !! b = Some y →
  a ≠ b →
  _id x = Z.of_nat a + 1 ∧ _id y = Z.of_nat b + 1
  ∧ Asset_lt x y = negb (Asset_lt y x)
  ∧ ref_lt w a b = negb (ref_lt w b a).
Proof.
  intros Hr Ha Hb Hne. destruct (reachable_ids_inv w Hr) as [_ Hid].
  pose proof (Hid a x Ha) as Hx. pose proof (Hid b y Hb) as Hy.
  assert (Hlt : Asset_lt x y = negb (Asset_lt y x)).
  { unfold Asset_lt, str_gt. apply String_ltb_total.
    intros Hk. symmetry in Hk. apply Asset_key_determines in Hk as [_ Hk]. lia. }
  split; [done|]. split; [done|]. split; [done|].
  unfold ref_lt. by rewrite Ha, Hb.
Qed.

Lemma distinct_assets_never_tie_witness :
  Asset_lt (mkAsset 5 1 [] false false false) (mkAsset 5 2 [] false false false)
  = negb (Asset_lt (mkAsset 5 2 [] false false false)
            (mkAsset 5 1 [] false false false)).
Proof.
  refine (proj1 (proj2 (proj2
    (distinct_assets_never_tie (Asset_init 5 (Asset_init 5 World_init))
       0 1 _ _ _ eq_refl eq_refl _)))).
  - eapply reachable_step; [|apply (step_new_asset 5)].
    eapply reachable_step; [apply reachable_init|apply (step_new_asset 5)].
  - lia.
Defined.

(** ** 6.13 Registration of asset classes *)

Lemma filter_none {A} (P : A → Prop) `{∀ x, Decision (P x)} (l : list A) :
  Forall (λ x, ¬ P x) l → filter P l = [].
Proof.
  induction 1 as [|x l Hx _ IH]; [done|].
  by rewrite filter_cons_False.
Qed.

Section SortFacts.
Context {A : Type} (key : A → Z).

Lemma sort_insert_reverse_Permutation (x : A) (l : list A) :
  sort_insert_reverse key x l ≡ₚ x :: l.
Proof.
  induction l as [|y l IH]; simpl; [done|].
  destruct (key x <? key y); [|done].
  by rewrite IH, Permutation_swap.
Qed.

Lemma py_sort_reverse_Permutation (l : list A) : py_sort_reverse key l ≡ₚ l.
Proof.
  induction l as [|x l IH]; simpl; [done|].
  by rewrite sort_insert_reverse_Permutation, IH.
Qed.

Lemma sort_insert_reverse_sorted (x : A) (l : list A) :
  StronglySorted (λ a b, key b ≤ key a) l →
  StronglySorted (λ a b, key b ≤ key a) (sort_insert_reverse key x l).
Proof.
  induction 1 as [|y l Hs IH Hall]; simpl; [repeat constructor|].
  destruct (Z.ltb_spec (key x) (key y)).
  - constructor; [done|].
    rewrite sort_insert_reverse_Permutation. constructor; [lia|done].
  - constructor; [by constructor|].
    constructor; [done|]. eapply Forall_impl; [exact Hall|].
    intros z Hz. simpl in *. lia.
Qed.

Lemma py_sort_reverse_sorted (l : list A) :
  StronglySorted (λ a b, key b ≤ key a) (py_sort_reverse key l).
Proof.
  induction l as [|x l IH]; simpl; [constructor|].
  by apply sort_insert_reverse_sorted.
Qed.

Lemma sort_insert_reverse_head (x : A) (l : list A) :
  Forall (λ y, key y ≤ key x) l → sort_insert_reverse key x l = x :: l.
Proof.
  destruct 1 as [|y l Hy _]; simpl; [done|].
  destruct (Z.ltb_spec (key x) (key y)); [lia|done].
Qed.

(** Sorting a sorted list with one more entry at its end puts the entry
    behind the entries whose key is not smaller and before the others. *)
Lemma py_sort_reverse_snoc (x : A) (l : list A) :
  StronglySorted (λ a b, key b ≤ key a) l →
  py_sort_reverse key (l ++ [x])
  = filter (λ y, key x ≤ key y) l ++ x :: filter (λ y, ¬ key x ≤ key y) l.
Proof.
  induction 1 as [|a l Hs IH Hall]; [done|].
  change (py_sort_reverse key ((a :: l) ++ [x]))
    with (sort_insert_reverse key a (py_sort_reverse key (l ++ [x]))).
  rewrite IH.
  destruct (decide (key x ≤ key a)) as [Hle|Hgt].
  - rewrite filter_cons_True, filter_cons_False by (simpl; lia).
    apply sort_insert_reverse_head.
    apply Forall_app. split.
    + apply Forall_forall. intros y [_ Hy]%list_elem_of_filter.
      by apply (proj1 (Forall_forall _ _) Hall).
    + constructor; [lia|].
      apply Forall_forall. intros y [_ Hy]%list_elem_of_filter.
      by apply (proj1 (Forall_forall _ _) Hall).
  - rewrite filter_cons_False, filter_cons_True by (simpl; lia).
    assert (Hnone : filter (λ y, key x ≤ key y) l = []).
    { apply filter_none. eapply Forall_impl; [exact Hall|].
      intros y Hy. simpl in *. lia. }
    assert (Hall' : filter (λ y, ¬ key x ≤ key y) l = l).
    { apply filter_all. eapply Forall_impl; [exact Hall|].
      intros y Hy. simpl in *. lia. }
    rewrite Hnone, Hall'. simpl.
    destruct (Z.ltb_spec (key a) (key x)); [|lia].
    f_equal. by apply sort_insert_reverse_head.
Qed.
End SortFacts.

(** X17.  A registration whose attribute is not yet bound on [mc] (also
    one that then fails for want of a ['default'] section) leaves
    [_asset_classes] sorted by descending priority, with the classes
    registered before and the new one; when the list was sorted before,
    the new class stands behind every class whose priority is not lower
    and before every class whose priority is lower, and the older
    classes keep their order.  The attribute is bound afterwards, so
    registering it again raises [ValueError] and changes nothing. *)
Theorem registration_keeps_classes_sorted {V : Type} (reg : Registry V)
    (asset_class : nat) (attribute_ config_section_ path_string_ : string)
    (extensions_ : list string) (priority_ : Z)
    (group_config_section_ : option string) :
  attribute_ ∉ mc_attributes reg →
  let reg' := fst (register_asset_class asset_class attribute_ config_section_
                     path_string_ extensions_ priority_ group_config_section_ reg) in
  StronglySorted (λ a b, ac_priority b ≤ ac_priority a) (_asset_classes reg')
  ∧ (∃ ac, attribute ac = attribute_ ∧ ac_priority ac = priority_
           ∧ cls ac = asset_class
           ∧ _asset_classes reg' ≡ₚ ac :: _asset_classes reg
           ∧ (StronglySorted (λ a b, ac_priority b ≤ ac_priority a)
                (_asset_classes reg) →
              _asset_classes reg'
              = filter (λ c, priority_ ≤ ac_priority c) (_asset_classes reg)
                ++ ac :: filter (λ c, ¬ priority_ ≤ ac_priority c)
                           (_asset_classes reg)))
  ∧ ∀ asset_class' config_section' path_string' extensions' priority'
      group_config_section',
      register_asset_class asset_class' attribute_ config_section'
        path_string' extensions' priority' group_config_section' reg'
      = (reg', Some AttributeExists).
Proof.
  intros Hnew reg'. subst reg'. unfold register_asset_class.
  destruct (decide (attribute_ ∈ mc_attributes reg)) as [|_]; [done|].
  cbn [fst _asset_classes mc_attributes].
  split; [apply py_sort_reverse_sorted|]. split.
  - exists (mkAssetClass attribute_ asset_class path_string_ config_section_
              extensions_ priority_ group_config_section_
              (match _set_asset_class_defaults config_section_
                       (machine_assets_config reg) with
               | Some (d, _) => d
               | None => ∅
               end)).
    split; [reflexivity|]. split; [reflexivity|].
    split; [reflexivity|]. split.
    + rewrite py_sort_reverse_Permutation. by rewrite Permutation_app_comm.
    + intros Hs. by rewrite py_sort_reverse_snoc.
  - intros. rewrite decide_True; [done|]. set_solver.
Qed.

Lemma registration_keeps_classes_sorted_witness :
  StronglySorted (λ a b, ac_priority b ≤ ac_priority a)
    (_asset_classes
       (fst (register_asset_class (V := nat) 2 "videos" "videos" "videos"
               ["mp4"%string] 100 None
               (mkRegistry ∅
                  [mkAssetClass "images" 0 "images" "images" [] 100 None ∅;
                   mkAssetClass "sounds" 1 "sounds" "sounds" [] 50 None ∅]
                  ∅)))).
Proof.
  apply (registration_keeps_classes_sorted (V := nat)
           (mkRegistry ∅
              [mkAssetClass "images" 0 "images" "images" [] 100 None ∅;
               mkAssetClass "sounds" 1 "sounds" "sounds" [] 50 None ∅]
              ∅)
           2 "videos" "videos" "videos" ["mp4"%string] 100 None).
  simpl. set_solver.
Defined.

Lemma defaults_loop_lookup {V : Type} (default_ : gmap string V)
    (rest : gmap string (gmap string V)) :
  rest !! "default"%string = None →
  ∀ name,
    (map_fold (λ name settings d, <[name := settings ∪ default_]> d)
       ({["default"%string := default_]} : gmap string (gmap string V)) rest) !! name
    = if decide (name = "default"%string) then Some default_
      else (λ settings, settings ∪ default_) <$> rest !! name.
Proof.
  revert rest.
  apply (map_fold_weak_ind
           (λ r m, m !! "default"%string = None →
                   ∀ name, r !! name
                           = if decide (name = "default"%string) then Some default_
                             else (λ settings, settings ∪ default_) <$> m !! name)).
  - intros _ name. destruct (decide (name = "default"%string)) as [->|Hne].
    + by rewrite lookup_singleton_eq.
    + by rewrite lookup_singleton_ne, lookup_empty.
  - intros i x m r Hi IH Hd name.
    assert (i ≠ "default"%string) by (intros ->; by rewrite lookup_insert_eq in Hd).
    rewrite lookup_insert_ne in Hd by done. specialize (IH Hd name).
    destruct (decide (name = i)) as [->|Hne].
    + rewrite !lookup_insert_eq. by rewrite decide_False.
    + rewrite !lookup_insert_ne by done. exact IH.
Qed.

(** X18.  [_set_asset_class_defaults] on a non-empty config section:
    without a ['default'] entry [pop] raises [KeyError]; with one, the
    defaults have the ['default'] settings under ['default'] and, for
    every other folder of the section, that folder's settings laid over
    the default ones (a setting of the folder wins, a setting it lacks is
    taken from the default); the section loses its ['default'] entry and
    the other sections of the config are untouched. *)
Theorem class_defaults_merge {V : Type} (section : string)
    (config : gmap string (gmap string (gmap string V)))
    (this_config : gmap string (gmap string V)) :
  config !! section = Some this_config →
  size this_config ≠ 0%nat →
  match this_config !! "default"%string with
  | None => _set_asset_class_defaults section config = None
  | Some default_ =>
      ∃ d config',
        _set_asset_class_defaults section config = Some (d, config')
        ∧ d !! "default"%string = Some default_
        ∧ (∀ name, name ≠ "default"%string →
             d !! name = (λ settings, settings ∪ default_) <$> this_config !! name)
        ∧ (∀ name settings folder key,
             name ≠ "default"%string →
             this_config !! name = Some settings →
             d !! name = Some folder →
             folder !! key = match settings !! key with
                             | Some v => Some v
                             | None => default_ !! key
                             end)
        ∧ config' !! section = Some (delete "default"%string this_config)
        ∧ ∀ other, other ≠ section → config' !! other = config !! other
  end.
Proof.
  intros Hsec Hsize. unfold _set_asset_class_defaults. rewrite Hsec.
  rewrite decide_False by done.
  destruct (this_config !! "default"%string) as [default_|] eqn:Hd; [|done].
  eexists _, _. split; [reflexivity|].
  pose proof (defaults_loop_lookup default_ (delete "default"%string this_config)
                (lookup_delete_eq _ _)) as Hl.
  split; [by rewrite Hl, decide_True|].
  assert (Hfolder : ∀ name, name ≠ "default"%string →
            (map_fold (λ name settings d, <[name := settings ∪ default_]> d)
               ({["default"%string := default_]} : gmap string (gmap string V))
               (delete "default"%string this_config)) !! name
            = (λ settings, settings ∪ default_) <$> this_config !! name).
  { intros name Hne. by rewrite Hl, decide_False, lookup_delete_ne. }
  split; [exact Hfolder|]. split.
  - intros name settings folder key Hne Hs Hf.
    rewrite Hfolder, Hs in Hf by done. injection Hf as <-.
    rewrite lookup_union. by destruct (settings !! key), (default_ !! key).
  - split; [by rewrite lookup_insert_eq|].
    intros other Hne. by rewrite lookup_insert_ne.
Qed.

Lemma class_defaults_merge_witness :
  ∃ d config',
    _set_asset_class_defaults "images"
      ({["images"%string :=
           {["default"%string := {["load"%string := 1%nat]};
             "preload"%string := {["load"%string := 2%nat]}]} ]}
       : gmap string (gmap string (gmap string nat)))
    = Some (d, config')
    ∧ d !! "default"%string = Some {["load"%string := 1%nat]}.
Proof.
  pose proof (class_defaults_merge "images"
                ({["images"%string :=
                     {["default"%string := {["load"%string := 1%nat]};
                       "preload"%string := {["load"%string := 2%nat]}]} ]}
                 : gmap string (gmap string (gmap string nat)))
                {["default"%string := {["load"%string := 1%nat]};
                  "preload"%string := {["load"%string := 2%nat]}]}
                eq_refl) as H.
  destruct H as (d & config' & Hr & Hd & _).
  - vm_compute. discriminate.
  - exists d, config'. split; [exact Hr|exact Hd].
Defined.
